(** * Warehouse-worker grid game (ww.py): a shallow embedding and its properties

    The Python module [ww.py] defines a class hierarchy of actors living on a
    [Stage].  Actors are mutable objects that refer to each other (a monster
    remembers the box it sticks to, the stage holds a list of actors), so the
    embedding keeps an explicit object store: every actor is a record stored
    at a reference, the stage holds references, and every method is a
    function on the whole world.  Python exceptions are results of their own,
    and the recursion of the push protocol is bounded by a fuel argument.

    The pygame calls (icons, sounds, the screen) neither read nor write the
    game state and are left out. *)

From stdpp Require Import base list gmap.
From Stdlib Require Import ZArith Lia.

Local Open Scope Z_scope.

(** ** Classes and run-time type tests *)

Inductive Class : Set :=
| C_Actor | C_Player | C_KeyboardPlayer
| C_Box | C_StickyBox | C_Wall
| C_Monster | C_NormalMonster | C_EzMonster | C_ExplodingMonster | C_Flame.

Global Instance Class_eq_dec : EqDecision Class.
Proof. solve_decision. Defined.

(** [isinstance(a, K)] follows the subclass relation of the source. *)
Definition isinstance_Monster (c : Class) : bool :=
  match c with
  | C_Monster | C_NormalMonster | C_EzMonster | C_ExplodingMonster | C_Flame => true
  | _ => false
  end.

Definition isinstance_Box (c : Class) : bool :=
  match c with C_Box | C_StickyBox => true | _ => false end.

Definition isinstance_StickyBox (c : Class) : bool :=
  match c with C_StickyBox => true | _ => false end.

Definition isinstance_KeyboardPlayer (c : Class) : bool :=
  match c with C_KeyboardPlayer => true | _ => false end.

Definition isinstance_NormalMonster (c : Class) : bool :=
  match c with C_NormalMonster => true | _ => false end.

Definition isinstance_EzMonster (c : Class) : bool :=
  match c with C_EzMonster => true | _ => false end.

Definition isinstance_Flame (c : Class) : bool :=
  match c with C_Flame => true | _ => false end.

(** ** Values, keys, objects *)

(** What a method hands back: [True], [False], or nothing ([None]). *)
Inductive PyVal : Set := PyTrue | PyFalse | PyNone.

Global Instance PyVal_eq_dec : EqDecision PyVal.
Proof. solve_decision. Defined.

(** The pygame key codes tested by [KeyboardPlayer.step]; any other code is
    [K_other]. *)
Inductive Key : Set :=
| K_DOWN | K_LEFT | K_RIGHT | K_UP
| K_KP1 | K_KP3 | K_KP4 | K_KP5 | K_KP6 | K_KP7 | K_KP8 | K_KP9
| K_other (code : Z).

Definition ref := nat.

(** One record for every actor object; the attributes a class does not set
    keep the value given here by the constructors below. *)
Record Actor : Set := mkActor {
  cls : Class;
  _x : Z;
  _y : Z;
  _delay : Z;
  _delay_count : Z;
  life : Z;
  _last_event : option Key;
  dead : bool;
  _dx : Z;
  _dy : Z;
  trapped : bool;
  stuck : bool;
  stick_with : option ref;
  stick_position : option (Z * Z)
}.

(** [Actor.__init__], the default [delay] being 5. *)
Definition Actor__init__ (c : Class) (x y delay : Z) : Actor :=
  mkActor c x y delay 0 5 None false 0 0 false false None None.

Definition Player__init__ (c : Class) (x y : Z) : Actor :=
  Actor__init__ c x y 5.

Definition KeyboardPlayer__init__ (x y : Z) : Actor :=
  Player__init__ C_KeyboardPlayer x y.

Definition Box__init__ (c : Class) (x y : Z) : Actor :=
  Actor__init__ c x y 5.

Definition Wall__init__ (x y : Z) : Actor :=
  Actor__init__ C_Wall x y 5.

Definition Monster__init__ (c : Class) (x y delay : Z) : Actor :=
  mkActor c x y delay 0 5 None false 1 1 false false None None.

(** [ExplodingMonster.__init__] passes [delay=5] to its parent whatever its
    own [delay] argument is. *)
Definition ExplodingMonster__init__ (x y delay exploding_delay : Z) : Actor :=
  let m := Monster__init__ C_ExplodingMonster x y 5 in
  mkActor (cls m) (_x m) (_y m) (_delay m) (_delay_count m)
          (10 + exploding_delay)
          (_last_event m) (dead m) (_dx m) (_dy m) (trapped m)
          (stuck m) (stick_with m) (stick_position m).

(** [Flame.__init__] passes [delay=1] likewise. *)
Definition Flame__init__ (x y delay : Z) : Actor :=
  let m := Monster__init__ C_Flame x y 1 in
  mkActor (cls m) (_x m) (_y m) (_delay m) (_delay_count m)
          10
          (_last_event m) (dead m) (_dx m) (_dy m) (trapped m)
          (stuck m) (stick_with m) (stick_position m).

Global Instance Actor_inhabited : Inhabited Actor :=
  populate (Actor__init__ C_Actor 0 0 5).

(** Attribute assignments. *)
Definition with_position (x y : Z) (a : Actor) : Actor :=
  mkActor (cls a) x y (_delay a) (_delay_count a) (life a) (_last_event a)
          (dead a) (_dx a) (_dy a) (trapped a) (stuck a) (stick_with a)
          (stick_position a).

Definition with_life (l : Z) (a : Actor) : Actor :=
  mkActor (cls a) (_x a) (_y a) (_delay a) (_delay_count a) l
          (_last_event a) (dead a) (_dx a) (_dy a) (trapped a) (stuck a)
          (stick_with a) (stick_position a).

Definition with_delay_count (n : Z) (a : Actor) : Actor :=
  mkActor (cls a) (_x a) (_y a) (_delay a) n (life a)
          (_last_event a) (dead a) (_dx a) (_dy a) (trapped a) (stuck a)
          (stick_with a) (stick_position a).

Definition with_last_event (e : option Key) (a : Actor) : Actor :=
  mkActor (cls a) (_x a) (_y a) (_delay a) (_delay_count a) (life a)
          e (dead a) (_dx a) (_dy a) (trapped a) (stuck a)
          (stick_with a) (stick_position a).

Definition with_dead (b : bool) (a : Actor) : Actor :=
  mkActor (cls a) (_x a) (_y a) (_delay a) (_delay_count a) (life a)
          (_last_event a) b (_dx a) (_dy a) (trapped a) (stuck a)
          (stick_with a) (stick_position a).

Definition with_dx (d : Z) (a : Actor) : Actor :=
  mkActor (cls a) (_x a) (_y a) (_delay a) (_delay_count a) (life a)
          (_last_event a) (dead a) d (_dy a) (trapped a) (stuck a)
          (stick_with a) (stick_position a).

Definition with_dy (d : Z) (a : Actor) : Actor :=
  mkActor (cls a) (_x a) (_y a) (_delay a) (_delay_count a) (life a)
          (_last_event a) (dead a) (_dx a) d (trapped a) (stuck a)
          (stick_with a) (stick_position a).

Definition with_stuck (b : bool) (a : Actor) : Actor :=
  mkActor (cls a) (_x a) (_y a) (_delay a) (_delay_count a) (life a)
          (_last_event a) (dead a) (_dx a) (_dy a) (trapped a) b
          (stick_with a) (stick_position a).

Definition with_stick_with (o : option ref) (a : Actor) : Actor :=
  mkActor (cls a) (_x a) (_y a) (_delay a) (_delay_count a) (life a)
          (_last_event a) (dead a) (_dx a) (_dy a) (trapped a) (stuck a)
          o (stick_position a).

Definition with_stick_position (o : option (Z * Z)) (a : Actor) : Actor :=
  mkActor (cls a) (_x a) (_y a) (_delay a) (_delay_count a) (life a)
          (_last_event a) (dead a) (_dx a) (_dy a) (trapped a) (stuck a)
          (stick_with a) o.

(** ** The world: object store and stage *)

(** [heap] is the object store; [next_ref] the next free reference.  The
    other fields are those of the [Stage] object. *)
Record World : Type := mkWorld {
  heap : gmap nat Actor;
  next_ref : ref;
  _actors : list ref;
  _player : option ref;
  _width : Z;
  _height : Z
}.

(** [Stage(width, height, _)]. *)
Definition Stage__init__ (width height : Z) : World :=
  mkWorld ∅ 0%nat [] None width height.

(** Reading an object.  A Python reference always designates an object;
    at a reference that was never allocated the embedding reads the default
    object of [Actor_inhabited]. *)
Definition deref (w : World) (r : ref) : Actor := heap w !!! r.

Definition update (r : ref) (f : Actor → Actor) (w : World) : World :=
  mkWorld (<[r := f (deref w r)]> (heap w)) (next_ref w) (_actors w)
          (_player w) (_width w) (_height w).

Definition with_actors (l : list ref) (w : World) : World :=
  mkWorld (heap w) (next_ref w) l (_player w) (_width w) (_height w).

(** Object creation: the new object gets the next free reference. *)
Definition alloc (a : Actor) (w : World) : ref * World :=
  (next_ref w,
   mkWorld (<[next_ref w := a]> (heap w)) (S (next_ref w)) (_actors w)
           (_player w) (_width w) (_height w)).

(** ** Outcomes *)

Inductive Exn : Set := ValueError | TypeError | ZeroDivisionError | AttributeError.

(** A call returns a value in a new world, raises, or exceeds the depth
    allowed by the fuel. *)
Inductive Res (A : Type) : Type :=
| Ok (v : A) (w : World)
| Raise (e : Exn)
| OutOfFuel.
Arguments Ok {A} v w.
Arguments Raise {A} e.
Arguments OutOfFuel {A}.

Definition bind {A B} (m : Res A) (k : A → World → Res B) : Res B :=
  match m with
  | Ok v w => k v w
  | Raise e => Raise e
  | OutOfFuel => OutOfFuel
  end.

Notation "'call' x , w <- m ; k" := (bind m (fun x w => k))
  (at level 10, x name, w name, m at level 100, k at level 200).

(** ** Stage queries and updates *)

Definition is_in_bounds_x (w : World) (x : Z) : bool :=
  (0 <=? x) && (x <? _width w).

Definition is_in_bounds_y (w : World) (y : Z) : bool :=
  (0 <=? y) && (y <? _height w).

Definition is_in_bounds (w : World) (x y : Z) : bool :=
  is_in_bounds_x w x && is_in_bounds_y w y.

Definition get_position (w : World) (r : ref) : Z * Z :=
  (_x (deref w r), _y (deref w r)).

Definition set_position (r : ref) (x y : Z) (w : World) : World :=
  update r (with_position x y) w.

Definition at_cell (w : World) (x y : Z) (r : ref) : bool :=
  (_x (deref w r) =? x) && (_y (deref w r) =? y).

(** [Stage.get_actor]: the first actor of the list standing on [(x, y)]. *)
Fixpoint first_at (w : World) (x y : Z) (l : list ref) : option ref :=
  match l with
  | [] => None
  | r :: l' => if at_cell w x y r then Some r else first_at w x y l'
  end.

Definition get_actor (w : World) (x y : Z) : option ref :=
  first_at w x y (_actors w).

Definition add_actor (r : ref) (w : World) : World :=
  with_actors (_actors w ++ [r]) w.

(** [list.remove]: drops the first occurrence. *)
Fixpoint remove_first (r : ref) (l : list ref) : list ref :=
  match l with
  | [] => []
  | r' :: l' => if Nat.eqb r' r then l' else r' :: remove_first r l'
  end.

Definition mem (r : ref) (l : list ref) : bool := existsb (Nat.eqb r) l.

(** [Stage.remove_actor]: [list.remove] raises [ValueError] when the actor is
    not in the list. *)
Definition remove_actor (r : ref) (w : World) : Res PyVal :=
  if mem r (_actors w)
  then Ok PyNone (with_actors (remove_first r (_actors w)) w)
  else Raise ValueError.

Definition set_player (r : ref) (w : World) : World :=
  add_actor r (mkWorld (heap w) (next_ref w) (_actors w) (Some r)
                       (_width w) (_height w)).

(** ** Actor *)

Definition Actor_is_dead (self : ref) (w : World) : bool :=
  life (deref w self) =? 0.

(** [KeyboardPlayer.is_dead] also raises the [dead] flag the first time (and
    plays the game-over sound, not modelled). *)
Definition KeyboardPlayer_is_dead (self : ref) (w : World) : bool * World :=
  if (life (deref w self) =? 0) && negb (dead (deref w self))
  then (true, update self (with_dead true) w)
  else if life (deref w self) =? 0 then (true, w)
  else (false, w).

Definition is_dead (self : ref) (w : World) : bool * World :=
  match cls (deref w self) with
  | C_KeyboardPlayer => KeyboardPlayer_is_dead self w
  | _ => (Actor_is_dead self w, w)
  end.

Definition Actor_move (self other : ref) (dx dy : Z) (w : World) : Res PyVal :=
  Ok PyTrue (set_position self (_x (deref w self) + dx)
                               (_y (deref w self) + dy) w).

(** [Actor.delay]: [%] by zero raises. *)
Definition delay (self : ref) (w : World) : Res bool :=
  let a := deref w self in
  if _delay a =? 0 then Raise ZeroDivisionError
  else
    let c := (_delay_count a + 1) mod _delay a in
    Ok (c =? 0) (update self (with_delay_count c) w).

Definition Actor_step (self : ref) (w : World) : Res PyVal :=
  if Actor_is_dead self w then remove_actor self w else Ok PyNone w.

(** ** The move protocol *)

Definition Wall_move (self other : ref) (dx dy : Z) (w : World) : Res PyVal :=
  Ok PyFalse w.

Definition Flame_move (self other : ref) (dx dy : Z) (w : World) : Res PyVal :=
  Ok PyNone w.

Section Dispatch.
(** [actor.move(...)] on an actor whose class is only known at run time. *)
Variable move : ref → ref → Z → Z → World → Res PyVal.

Definition KeyboardPlayer_move (self other : ref) (dx dy : Z) (w : World)
  : Res PyVal :=
  let new_x := _x (deref w self) + dx in
  let new_y := _y (deref w self) + dy in
  if is_in_bounds w new_x new_y then
    match get_actor w new_x new_y with
    | Some occ =>
        let c := cls (deref w occ) in
        if negb (isinstance_Monster c) then
          call r, w1 <- move occ self dx dy w;
          if decide (r = PyTrue) then Actor_move self other dx dy w1
          else Ok PyNone w1
        else if isinstance_NormalMonster c then
          Ok PyFalse (update self (with_life 0) w)
        else if isinstance_EzMonster c then
          let w1 := update occ (with_life 0) w in
          call _, w2 <- Actor_move self other dx dy w1;
          Ok PyTrue w2
        else if isinstance_Flame c then
          Ok PyFalse (update self (with_life 0) w)
        else Actor_move self other dx dy w
    | None => Actor_move self other dx dy w
    end
  else Ok PyFalse w.

Definition Box_move (self other : ref) (dx dy : Z) (w : World) : Res PyVal :=
  let new_x := _x (deref w self) + dx in
  let new_y := _y (deref w self) + dy in
  if is_in_bounds w new_x new_y then
    match get_actor w new_x new_y with
    | Some occ =>
        call r, w1 <- move occ self dx dy w;
        if decide (r = PyTrue) then Actor_move self other dx dy w1
        else Ok PyNone w1
    | None => Actor_move self other dx dy w
    end
  else Ok PyFalse w.

(** [StickyBox.move] looks the occupant up again after each assignment. *)
Definition StickyBox_move (self other : ref) (dx dy : Z) (w : World)
  : Res PyVal :=
  let new_x := _x (deref w self) + dx in
  let new_y := _y (deref w self) + dy in
  if is_in_bounds w new_x new_y then
    match get_actor w new_x new_y with
    | Some occ =>
        let w1 :=
          if isinstance_Monster (cls (deref w occ)) then
            let wa := update occ (with_stuck true) w in
            match get_actor wa new_x new_y with
            | Some occ' => update occ' (with_stick_with (Some self)) wa
            | None => wa
            end
          else w in
        match get_actor w1 new_x new_y with
        | Some occ'' =>
            call r, w2 <- move occ'' self dx dy w1;
            if decide (r = PyTrue) then Actor_move self other dx dy w2
            else Ok PyNone w2
        | None => Raise AttributeError
        end
    | None => Actor_move self other dx dy w
    end
  else Ok PyFalse w.
End Dispatch.

(** [Monster.move]; it never asks another actor to move. *)
Definition Monster_move (self other : ref) (dx dy : Z) (w : World) : Res PyVal :=
  if negb (Nat.eqb other self) then Ok PyFalse w
  else
    let new_x := _x (deref w self) + _dx (deref w self) in
    let new_y := _y (deref w self) + _dy (deref w self) in
    let bx := negb (is_in_bounds_x w new_x) in
    let w1 := if bx then update self (with_dx (- _dx (deref w self))) w else w in
    let by_ := negb (is_in_bounds_y w1 new_y) in
    let w2 := if by_ then update self (with_dy (- _dy (deref w1 self))) w1 else w1 in
    if bx || by_ then Ok PyFalse w2
    else if is_in_bounds w2 new_x new_y then
      match get_actor w2 new_x new_y with
      | None => Actor_move self other dx dy w2
      | Some actor =>
          if isinstance_KeyboardPlayer (cls (deref w2 actor)) then
            Ok PyFalse (update actor (with_life 0) w2)
          else if isinstance_StickyBox (cls (deref w2 actor)) then
            let w3 := update self (with_stuck true) w2 in
            let w4 := update self (with_stick_with (Some actor)) w3 in
            Ok PyNone
               (update self (with_stick_position (Some (get_position w4 actor))) w4)
          else
            let a := deref w2 self in
            Ok PyFalse
               (update self (fun s => with_dy (- _dy a) (with_dx (- _dx a) s)) w2)
      end
    else
      call r, w3 <- Actor_move self other dx dy w2;
      Ok (if decide (r = PyTrue) then PyFalse else PyTrue) w3.

(** Method resolution for [move]. *)
Fixpoint move (fuel : nat) (self other : ref) (dx dy : Z) (w : World)
  : Res PyVal :=
  match fuel with
  | O => OutOfFuel
  | S n =>
      match cls (deref w self) with
      | C_Actor | C_Player => Actor_move self other dx dy w
      | C_KeyboardPlayer => KeyboardPlayer_move (move n) self other dx dy w
      | C_Box => Box_move (move n) self other dx dy w
      | C_StickyBox => StickyBox_move (move n) self other dx dy w
      | C_Wall => Wall_move self other dx dy w
      | C_Monster | C_NormalMonster | C_EzMonster | C_ExplodingMonster =>
          Monster_move self other dx dy w
      | C_Flame => Flame_move self other dx dy w
      end
  end.

(** ** Monsters *)

(** The test made on one cell by [Monster.is_trapped]. *)
Definition blocked (w : World) (cx cy : Z) : bool :=
  match get_actor w cx cy with
  | Some r => isinstance_Box (cls (deref w r))
              || isinstance_Monster (cls (deref w r))
  | None => false
  end
  || negb (is_in_bounds w cx cy).

(** The cells visited by the two nested loops over [range_x] and [range_y],
    in the order of the loops. *)
Definition block3 (x y : Z) : list (Z * Z) :=
  list_prod [x - 1; x; x + 1] [y - 1; y; y + 1].

Definition is_trapped (self : ref) (w : World) : bool :=
  forallb (fun c => blocked w c.1 c.2)
          (block3 (_x (deref w self)) (_y (deref w self))).

(** The test [if self.stuck: ...] of [Monster.step]: [Ok true] when the step
    returns there. *)
Definition stuck_check (self : ref) (w : World) : Res bool :=
  if stuck (deref w self) then
    match stick_position (deref w self) with
    | None => Raise TypeError
    | Some (px, py) =>
        if decide (get_actor w px py = stick_with (deref w self))
        then Ok true w
        else Ok false
               (update self (with_stick_position None)
                  (update self (with_stuck false)
                     (update self (with_stick_with None) w)))
    end
  else Ok false w.

(** [Monster.step], run by [Monster], [NormalMonster] and [EzMonster], for
    which [self.is_dead] is [Actor.is_dead] and [self.move] is
    [Monster.move]. *)
Definition Monster_step (self : ref) (w : World) : Res PyVal :=
  call _, w1 <- (if Actor_is_dead self w then remove_actor self w
                 else Ok PyNone w);
  let w2 := if is_trapped self w1
            then update self (fun a => with_life (life a - 1) a) w1
            else update self (with_life 5) w1 in
  call stop, w3 <- stuck_check self w2;
  if stop : bool then Ok PyNone w3
  else
    call go, w4 <- delay self w3;
    if negb go then Ok PyNone w4
    else
      call _, w5 <- Monster_move self self (_dx (deref w4 self))
                                 (_dy (deref w4 self)) w4;
      Ok PyTrue w5.

(** One round of the loops of [ExplodingMonster.explode]. *)
Definition explode_cell (cx cy : Z) (w : World) : Res PyVal :=
  if is_in_bounds w cx cy then
    let w1 := match get_actor w cx cy with
              | Some r =>
                  if isinstance_KeyboardPlayer (cls (deref w r))
                  then update r (with_life 0) w else w
              | None => w
              end in
    call _, w2 <- match get_actor w1 cx cy with
                  | Some r => remove_actor r w1
                  | None => Ok PyNone w1
                  end;
    let (f, w3) := alloc (Flame__init__ cx cy 1) w2 in
    Ok PyNone (add_actor f w3)
  else Ok PyNone w.

Fixpoint explode_cells (cells : list (Z * Z)) (w : World) : Res PyVal :=
  match cells with
  | [] => Ok PyTrue w
  | c :: rest => call _, w1 <- explode_cell c.1 c.2 w; explode_cells rest w1
  end.

Definition explode (self : ref) (w : World) : Res PyVal :=
  explode_cells (block3 (_x (deref w self)) (_y (deref w self))) w.

Definition ExplodingMonster_step (self : ref) (w : World) : Res PyVal :=
  let w1 := if is_trapped self w
            then update self (fun a => with_life (life a - 1) a) w else w in
  let w2 := update self (fun a => with_life (life a - 1) a) w1 in
  call _, w3 <- (if Actor_is_dead self w2
                 then call _, wa <- remove_actor self w2; explode self wa
                 else Ok PyNone w2);
  call go, w4 <- delay self w3;
  if negb go then Ok PyNone w4
  else
    call _, w5 <- Monster_move self self (_dx (deref w4 self))
                               (_dy (deref w4 self)) w4;
    Ok PyTrue w5.

Definition Flame_step (self : ref) (w : World) : Res PyVal :=
  let w1 := update self (fun a => with_life (life a - 1) a) w in
  if Actor_is_dead self w1 then remove_actor self w1 else Ok PyNone w1.

(** ** The player *)

(** The direction chosen by the chain of tests of [KeyboardPlayer.step]. *)
Definition key_direction (k : Key) : option (Z * Z) :=
  match k with
  | K_DOWN | K_KP5 => Some (0, 1)
  | K_LEFT | K_KP4 => Some (-1, 0)
  | K_RIGHT | K_KP6 => Some (1, 0)
  | K_UP | K_KP8 => Some (0, -1)
  | K_KP7 => Some (-1, -1)
  | K_KP9 => Some (1, -1)
  | K_KP1 => Some (-1, 1)
  | K_KP3 => Some (1, 1)
  | K_other _ => None
  end.

Definition handle_event (self : ref) (event : Key) (w : World) : World :=
  match cls (deref w self) with
  | C_KeyboardPlayer => update self (with_last_event (Some event)) w
  | _ => w
  end.

(** [KeyboardPlayer.step]; [fuel] bounds the pushes started by the move. *)
Definition KeyboardPlayer_step (fuel : nat) (self : ref) (w : World)
  : Res PyVal :=
  call _, w1 <-
    match _last_event (deref w self) with
    | Some k =>
        call _, wa <- match key_direction k with
                      | Some (dx, dy) =>
                          KeyboardPlayer_move (move fuel) self self dx dy w
                      | None => Ok PyNone w
                      end;
        Ok PyNone (update self (with_last_event None) wa)
    | None => Ok PyNone w
    end;
  let (d, w2) := KeyboardPlayer_is_dead self w1 in
  if d then remove_actor self w2 else Ok PyNone w2.

(** ** The stage *)

(** Method resolution for [step]. *)
Definition step (fuel : nat) (self : ref) (w : World) : Res PyVal :=
  match cls (deref w self) with
  | C_Actor | C_Player | C_Box | C_StickyBox | C_Wall => Actor_step self w
  | C_KeyboardPlayer => KeyboardPlayer_step fuel self w
  | C_Monster | C_NormalMonster | C_EzMonster => Monster_step self w
  | C_ExplodingMonster => ExplodingMonster_step self w
  | C_Flame => Flame_step self w
  end.

(** [Stage.step] is [for a in self._actors: a.step()].  A Python [for] over
    a list keeps an index into the list itself: every round reads the
    element at the index in the list as it is then, and stops when the index
    reaches the current length.  The value returned here is the list of the
    actors whose [step] was run, in order (Python returns nothing).  [loops]
    bounds the number of rounds, [fuel] the depth of the pushes in a step. *)
Fixpoint Stage_step_from (fuel loops : nat) (i : nat) (w : World)
  : Res (list ref) :=
  match loops with
  | O => OutOfFuel
  | S n =>
      match _actors w !! i with
      | None => Ok [] w
      | Some a =>
          call _, w1 <- step fuel a w;
          call rest, w2 <- Stage_step_from fuel n (S i) w1;
          Ok (a :: rest) w2
      end
  end.

Definition Stage_step (fuel : nat) (w : World) : Res (list ref) :=
  Stage_step_from fuel fuel 0%nat w.

(** [Stage.player_event]: only players have a [handle_event]. *)
Definition player_event (event : Key) (w : World) : Res PyVal :=
  match _player w with
  | Some p =>
      match cls (deref w p) with
      | C_Player | C_KeyboardPlayer => Ok PyNone (handle_event p event w)
      | _ => Raise AttributeError
      end
  | None => Raise AttributeError
  end.

(** Running [n] ticks without key presses. *)
Fixpoint ticks (fuel : nat) (n : nat) (w : World) : Res (list ref) :=
  match n with
  | O => Ok [] w
  | S n' => call _, w1 <- Stage_step fuel w; ticks fuel n' w1
  end.

(** [stage.add_actor(K(...))]: build the object, then register it. *)
Definition spawn (a : Actor) (w : World) : World :=
  let (r, w1) := alloc a w in add_actor r w1.

Definition spawn_player (a : Actor) (w : World) : World :=
  let (r, w1) := alloc a w in set_player r w1.

(** What a run leaves behind. *)
Definition returned {A} (m : Res A) : option A :=
  match m with Ok v _ => Some v | _ => None end.

Definition final {A} (m : Res A) : option World :=
  match m with Ok _ w => Some w | _ => None end.

(** [after m P]: the run [m] returns, and [P] holds of its value and world. *)
Definition after {A} (m : Res A) (P : A → World → Prop) : Prop :=
  match m with Ok v w => P v w | _ => False end.

(** ** The grid invariant *)

(** At most one registered actor on any cell: the positions of the actors
    of the list are pairwise distinct. *)
Definition one_per_cell (w : World) : Prop :=
  NoDup (get_position w <$> _actors w).

(** The eight cells around [(x, y)], the Moore neighbourhood of the
    specification. *)
Definition neighbours (x y : Z) : list (Z * Z) :=
  [(x - 1, y - 1); (x - 1, y); (x - 1, y + 1);
   (x, y - 1); (x, y + 1);
   (x + 1, y - 1); (x + 1, y); (x + 1, y + 1)].

(** A registered actor that is a Box or a Monster stands on [(cx, cy)]. *)
Definition holds_box_or_monster (w : World) (cx cy : Z) : bool :=
  existsb (fun r => at_cell w cx cy r &&
                    (isinstance_Box (cls (deref w r))
                     || isinstance_Monster (cls (deref w r))))
          (_actors w).

(** The trapped condition in the words of the specification: every one of
    the eight neighbouring cells is out of bounds or occupied by a Box or a
    Monster. *)
Definition hemmed_in (self : ref) (w : World) : bool :=
  forallb (fun c => negb (is_in_bounds w c.1 c.2)
                    || holds_box_or_monster w c.1 c.2)
          (neighbours (_x (deref w self)) (_y (deref w self))).

(** The test of the source, [blocked], on the eight neighbouring cells:
    it looks at the first actor the stage finds on a cell.  [is_trapped]
    above makes it on the monster's own cell as well. *)
Definition blocked_around (self : ref) (w : World) : bool :=
  forallb (fun c => blocked w c.1 c.2)
          (neighbours (_x (deref w self)) (_y (deref w self))).

(** The number of entries of the stage's list that stand on [(cx, cy)]. *)
Definition crowd_at (w : World) (cx cy : Z) : nat :=
  length (List.filter (at_cell w cx cy) (_actors w)).

(** None of the eight neighbouring cells holds more than one registered
    actor. *)
Definition uncrowded (self : ref) (w : World) : bool :=
  forallb (fun c => Nat.leb (crowd_at w c.1 c.2) 1)
          (neighbours (_x (deref w self)) (_y (deref w self))).

(** ** What a call leaves alone *)

(** The stage object and the class of every object are the same. *)
Definition same_stage (w w' : World) : Prop :=
  _actors w' = _actors w ∧ _width w' = _width w ∧ _height w' = _height w ∧
  next_ref w' = next_ref w ∧ _player w' = _player w ∧
  ∀ a, cls (deref w' a) = cls (deref w a).

Definition stays (w w' : World) (a : ref) : Prop :=
  get_position w' a = get_position w a.

Definition shifted (dx dy : Z) (w w' : World) (a : ref) : Prop :=
  get_position w' a = (_x (deref w a) + dx, _y (deref w a) + dy).

(** The life of [a] is untouched, or [a] is a KeyboardPlayer that was
    killed. *)
Definition life_kept (w w' : World) (a : ref) : Prop :=
  life (deref w' a) = life (deref w a) ∨
  (isinstance_KeyboardPlayer (cls (deref w a)) = true ∧ life (deref w' a) = 0).

(** Every registered actor is an object created before [next_ref]. *)
Definition refs_allocated (w : World) : Prop :=
  ∀ r, r ∈ _actors w → (r < next_ref w)%nat.

(** What [explode_cell] does on an in-bounds cell, in one expression. *)
Definition exploded_cell (cx cy : Z) (w : World) : World :=
  let w1 := match get_actor w cx cy with
            | Some r => if isinstance_KeyboardPlayer (cls (deref w r))
                        then update r (with_life 0) w else w
            | None => w
            end in
  let w2 := match get_actor w cx cy with
            | Some r => with_actors (remove_first r (_actors w)) w1
            | None => w1
            end in
  add_actor (next_ref w) (alloc (Flame__init__ cx cy 1) w2).2.

(** [w'] comes from [w] by an explosion: objects may have been created and
    the list of actors changed, but the objects of [w] are as they were,
    except that a player may have lost its life. *)
Definition grows (w w' : World) : Prop :=
  _width w' = _width w ∧ _height w' = _height w ∧ _player w' = _player w ∧
  (next_ref w ≤ next_ref w')%nat ∧
  (∀ r, r ∈ _actors w' → r ∈ _actors w ∨ (next_ref w ≤ r)%nat) ∧
  ∀ a, (a < next_ref w)%nat →
       deref w' a = deref w a ∨
       (isinstance_KeyboardPlayer (cls (deref w a)) = true ∧
        deref w' a = with_life 0 (deref w a)).

(** The last lines of [Monster.step] and of [ExplodingMonster.step]: wait
    for the delay, then ask oneself to move. *)
Definition delayed_move (self : ref) (w : World) : Res PyVal :=
  call go, w4 <- delay self w;
  if negb go then Ok PyNone w4
  else
    call _, w5 <- Monster_move self self (_dx (deref w4 self))
                               (_dy (deref w4 self)) w4;
    Ok PyTrue w5.

(** The first lines of [KeyboardPlayer.step]: act on the pending key, if
    any, and forget it. *)
Definition pending_move (fuel : nat) (self : ref) (w : World) : Res PyVal :=
  match _last_event (deref w self) with
  | Some k =>
      call _, wa <- match key_direction k with
                    | Some (dx, dy) =>
                        KeyboardPlayer_move (move fuel) self self dx dy w
                    | None => Ok PyNone w
                    end;
      Ok PyNone (update self (with_last_event None) wa)
  | None => Ok PyNone w
  end.

(** ** The calls of [move] that return, as a relation *)

(** The effect of [Actor.move]. *)
Definition relocated (self : ref) (dx dy : Z) (w : World) : World :=
  set_position self (_x (deref w self) + dx) (_y (deref w self) + dy) w.

(** The classes whose [move] looks at the target cell and may ask its
    occupant to move. *)
Definition pusher (c : Class) : bool :=
  match c with C_KeyboardPlayer | C_Box | C_StickyBox => true | _ => false end.

(** Whether an actor of class [c] asks an occupant of class [o] to move. *)
Definition asks (c o : Class) : bool :=
  match c with
  | C_Box | C_StickyBox => true
  | C_KeyboardPlayer => negb (isinstance_Monster o)
  | _ => false
  end.

(** What a [StickyBox] writes into a monster before it asks it to move. *)
Definition marks (self occ : ref) (w : World) : World :=
  match cls (deref w self) with
  | C_StickyBox =>
      if isinstance_Monster (cls (deref w occ))
      then update occ (with_stick_with (Some self))
             (update occ (with_stuck true) w)
      else w
  | _ => w
  end.

(** [Moved self other dx dy w r w']: the call [self.move(other, dx, dy)] in
    world [w] returns [r] in world [w'].  One rule per path through the
    methods; [move_Moved] below shows that every returning run of [move]
    follows these rules. *)
Inductive Moved : ref → ref → Z → Z → World → PyVal → World → Prop :=
| Moved_base self other dx dy w :
    cls (deref w self) = C_Actor ∨ cls (deref w self) = C_Player →
    Moved self other dx dy w PyTrue (relocated self dx dy w)
| Moved_wall self other dx dy w :
    cls (deref w self) = C_Wall →
    Moved self other dx dy w PyFalse w
| Moved_flame self other dx dy w :
    cls (deref w self) = C_Flame →
    Moved self other dx dy w PyNone w
| Moved_monster self other dx dy w r w' :
    isinstance_Monster (cls (deref w self)) = true →
    isinstance_Flame (cls (deref w self)) = false →
    Monster_move self other dx dy w = Ok r w' →
    Moved self other dx dy w r w'
| Moved_out self other dx dy w :
    pusher (cls (deref w self)) = true →
    is_in_bounds w (_x (deref w self) + dx) (_y (deref w self) + dy) = false →
    Moved self other dx dy w PyFalse w
| Moved_free self other dx dy w :
    pusher (cls (deref w self)) = true →
    is_in_bounds w (_x (deref w self) + dx) (_y (deref w self) + dy) = true →
    get_actor w (_x (deref w self) + dx) (_y (deref w self) + dy) = None →
    Moved self other dx dy w PyTrue (relocated self dx dy w)
| Moved_push self other dx dy w occ w1 :
    is_in_bounds w (_x (deref w self) + dx) (_y (deref w self) + dy) = true →
    get_actor w (_x (deref w self) + dx) (_y (deref w self) + dy) = Some occ →
    asks (cls (deref w self)) (cls (deref w occ)) = true →
    Moved occ self dx dy (marks self occ w) PyTrue w1 →
    Moved self other dx dy w PyTrue (relocated self dx dy w1)
| Moved_refused self other dx dy w occ r1 w1 :
    is_in_bounds w (_x (deref w self) + dx) (_y (deref w self) + dy) = true →
    get_actor w (_x (deref w self) + dx) (_y (deref w self) + dy) = Some occ →
    asks (cls (deref w self)) (cls (deref w occ)) = true →
    Moved occ self dx dy (marks self occ w) r1 w1 →
    r1 ≠ PyTrue →
    Moved self other dx dy w PyNone w1
| Moved_die self other dx dy w occ :
    cls (deref w self) = C_KeyboardPlayer →
    is_in_bounds w (_x (deref w self) + dx) (_y (deref w self) + dy) = true →
    get_actor w (_x (deref w self) + dx) (_y (deref w self) + dy) = Some occ →
    cls (deref w occ) = C_NormalMonster ∨ cls (deref w occ) = C_Flame →
    Moved self other dx dy w PyFalse (update self (with_life 0) w)
| Moved_kill self other dx dy w occ :
    cls (deref w self) = C_KeyboardPlayer →
    is_in_bounds w (_x (deref w self) + dx) (_y (deref w self) + dy) = true →
    get_actor w (_x (deref w self) + dx) (_y (deref w self) + dy) = Some occ →
    cls (deref w occ) = C_EzMonster →
    Moved self other dx dy w PyTrue
          (relocated self dx dy (update occ (with_life 0) w))
| Moved_onto self other dx dy w occ :
    cls (deref w self) = C_KeyboardPlayer →
    is_in_bounds w (_x (deref w self) + dx) (_y (deref w self) + dy) = true →
    get_actor w (_x (deref w self) + dx) (_y (deref w self) + dy) = Some occ →
    cls (deref w occ) = C_Monster ∨ cls (deref w occ) = C_ExplodingMonster →
    Moved self other dx dy w PyTrue (relocated self dx dy w).

(** The life of [a] is untouched, or [a] is a KeyboardPlayer or an
    EzMonster that was killed. *)
Definition unharmed (w w' : World) (a : ref) : Prop :=
  life (deref w' a) = life (deref w a) ∨
  (life (deref w' a) = 0 ∧
   (isinstance_KeyboardPlayer (cls (deref w a)) = true ∨
    isinstance_EzMonster (cls (deref w a)) = true)).

(** ** Runs of the game seen from one monster *)

(** [game_run fuel self ts w w']: from [w] the game reaches [w'] by steps
    of actors and key presses in any order.  [ts] has one entry for every
    step of [self] in the run, in order: what [is_trapped] answers for
    [self] in the world where that step starts. *)
Inductive game_run (fuel : nat) (self : ref)
  : list bool → World → World → Prop :=
| run_done w : game_run fuel self [] w w
| run_other ts w a r w1 w' :
    a ≠ self → step fuel a w = Ok r w1 → game_run fuel self ts w1 w' →
    game_run fuel self ts w w'
| run_key ts w key r w1 w' :
    player_event key w = Ok r w1 → game_run fuel self ts w1 w' →
    game_run fuel self ts w w'
| run_self ts w r w1 w' :
    step fuel self w = Ok r w1 → game_run fuel self ts w1 w' →
    game_run fuel self (is_trapped self w :: ts) w w'.

(** The life an ExplodingMonster loses in steps with these answers of
    [is_trapped]: 2 when trapped, 1 when not. *)
Fixpoint burnt (ts : list bool) : Z :=
  match ts with
  | [] => 0
  | t :: ts' => (if t : bool then 2 else 1) + burnt ts'
  end.

(** [n] steps of [self] in a row, each started in a world where
    [is_trapped] answers [t]. *)
Fixpoint own_steps (fuel : nat) (self : ref) (t : bool) (n : nat) (w : World)
  : option World :=
  match n with
  | O => Some w
  | S n' =>
      if Bool.eqb (is_trapped self w) t then
        match step fuel self w with
        | Ok _ w1 => own_steps fuel self t n' w1
        | _ => None
        end
      else None
  end.

(** ** The shape of a push *)

(** [a] stands [i] cells, [i >= 1], further than [self] in direction
    [(dx, dy)]. *)
Definition ahead (dx dy : Z) (w : World) (self a : ref) : Prop :=
  ∃ i : nat, (1 ≤ i)%nat ∧
    _x (deref w a) = _x (deref w self) + Z.of_nat i * dx ∧
    _y (deref w a) = _y (deref w self) + Z.of_nat i * dy.

(** The monsters onto whose cell [KeyboardPlayer.move] relocates the
    player: those that are neither a NormalMonster nor a Flame. *)
Definition walk_on (c : Class) : bool :=
  match c with
  | C_Monster | C_EzMonster | C_ExplodingMonster => true
  | _ => false
  end.

(** The cell [a] moves to was free, or its occupant has moved on as well;
    the one exception is a player walking onto a monster. *)
Definition target_clear (dx dy : Z) (w w' : World) (a : ref) : Prop :=
  match get_actor w (_x (deref w a) + dx) (_y (deref w a) + dy) with
  | None => True
  | Some b =>
      shifted dx dy w w' b ∨
      (cls (deref w a) = C_KeyboardPlayer ∧ walk_on (cls (deref w b)) = true)
  end.

(** The classes the game creates objects of. *)
Definition concrete (c : Class) : bool :=
  match c with C_Actor | C_Player => false | _ => true end.

(** The calls of [move] that occur in the program: on objects of concrete
    classes, and, when a monster asks itself to move, with its own
    direction as [(dx, dy)] as in [Monster.step]. *)
Definition proper (self other : ref) (dx dy : Z) (w : World) : Prop :=
  concrete (cls (deref w self)) = true ∧
  (∀ b, b ∈ _actors w → concrete (cls (deref w b)) = true) ∧
  (isinstance_Monster (cls (deref w self)) = true → other = self →
   dx = _dx (deref w self) ∧ dy = _dy (deref w self)).

(** No registered player has, one step in direction [(dx, dy)], a monster
    it would walk onto. *)
Definition no_walk_on (dx dy : Z) (w : World) : Prop :=
  ∀ a b, a ∈ _actors w → cls (deref w a) = C_KeyboardPlayer →
         get_actor w (_x (deref w a) + dx) (_y (deref w a) + dy) = Some b →
         walk_on (cls (deref w b)) = false.

(** [no_walk_on], computed. *)
Definition no_walk_on_b (dx dy : Z) (w : World) : bool :=
  forallb
    (fun a =>
       if decide (cls (deref w a) = C_KeyboardPlayer) then
         match get_actor w (_x (deref w a) + dx) (_y (deref w a) + dy) with
         | Some b => negb (walk_on (cls (deref w b)))
         | None => true
         end
       else true)
    (_actors w).

(** What a returning call [self.move(other, dx, dy)] has done to the places
    of the actors. *)
Record push_shape (self other : ref) (dx dy : Z) (w : World) (r : PyVal)
    (w' : World) : Prop := {
  ps_refused : r ≠ PyTrue → ∀ a, stays w w' a;
  ps_self : r = PyTrue → shifted dx dy w w' self;
  ps_target :
    r = PyTrue → pusher (cls (deref w self)) = true →
    is_in_bounds w (_x (deref w self) + dx) (_y (deref w self) + dy) = true ∧
    target_clear dx dy w w' self;
  ps_each :
    ∀ a, stays w w' a ∨
         (shifted dx dy w w' a ∧ (a = self ∨ ahead dx dy w self a));
  ps_proper :
    proper self other dx dy w →
    ∀ a, shifted dx dy w w' a →
         is_in_bounds w (_x (deref w a) + dx) (_y (deref w a) + dy) = true ∧
         target_clear dx dy w w' a
}.

(** The cells [(x, y)], [(x + dx, y + dy)], ... are on the stage and hold
    [k] boxes in a row and then a wall. *)
Fixpoint boxes_then_wall (w : World) (x y dx dy : Z) (k : nat) : bool :=
  is_in_bounds w x y &&
  match get_actor w x y with
  | None => false
  | Some a =>
      match k with
      | O => bool_decide (cls (deref w a) = C_Wall)
      | S k' => isinstance_Box (cls (deref w a))
                && boxes_then_wall w (x + dx) (y + dy) dx dy k'
      end
  end.

(** At most one registered actor stands on [(x, y)]. *)
Definition at_most_one_at (w : World) (x y : Z) : Prop :=
  ∀ a b, a ∈ _actors w → b ∈ _actors w →
         get_position w a = (x, y) → get_position w b = (x, y) → a = b.

(** ** How deep a push can go *)

(** The number of cells of the stage from [(x, y)] on in direction
    [(dx, dy)], counted along the first non-null coordinate of the
    direction. *)
Definition room (dx dy : Z) (w : World) (x y : Z) : Z :=
  if 0 <? dx then _width w - x
  else if dx <? 0 then x + 1
  else if 0 <? dy then _height w - y
  else y + 1.

(** A recursion depth that is enough for any push on the stage. *)
Definition enough_fuel (w : World) : nat :=
  Z.to_nat (Z.max (_width w) (_height w)) + 2.

(** ** The death test of a step *)

(** The world in which the step of [self] asks [is_dead].  A Flame and an
    ExplodingMonster have counted their life down first; the player has
    acted on the pending key first; the others ask at the start. *)
Definition at_death_test (fuel : nat) (self : ref) (w : World) : Res PyVal :=
  match cls (deref w self) with
  | C_KeyboardPlayer => pending_move fuel self w
  | C_Flame => Ok PyNone (update self (fun a => with_life (life a - 1) a) w)
  | C_ExplodingMonster =>
      Ok PyNone
         (update self (fun a => with_life (life a - 1) a)
            (if is_trapped self w
             then update self (fun a => with_life (life a - 1) a) w
             else w))
  | _ => Ok PyNone w
  end.

(** What is enough for the step to return: for the player a recursion
    depth that covers the stage, for a monster a non-zero delay, and a stick
    position if it is stuck. *)
Definition step_completes (fuel : nat) (self : ref) (w : World) : Prop :=
  match cls (deref w self) with
  | C_KeyboardPlayer =>
      (enough_fuel w ≤ S fuel)%nat
  | C_Monster | C_NormalMonster | C_EzMonster =>
      ((stuck (deref w self) = true → stick_position (deref w self) ≠ None)
       ∧ _delay (deref w self) ≠ 0)
  | C_ExplodingMonster => _delay (deref w self) ≠ 0
  | _ => True
  end.

(** ** Scenarios *)

Module Scenario.

(** A player next to an EzMonster, and a NormalMonster registered after
    them; the right arrow is pressed. *)
Definition skip_start : World :=
  spawn (Monster__init__ C_NormalMonster 3 3 3)
    (spawn (Monster__init__ C_EzMonster 1 0 3)
       (spawn_player (KeyboardPlayer__init__ 0 0) (Stage__init__ 4 4))).

Definition skip_pressed : World :=
  handle_event 0%nat K_RIGHT skip_start.

(** A player, a sticky box and a NormalMonster in a row. *)
Definition sticky_start : World :=
  spawn (Monster__init__ C_NormalMonster 2 0 3)
    (spawn (Box__init__ C_StickyBox 1 0)
       (spawn_player (KeyboardPlayer__init__ 0 0) (Stage__init__ 4 1))).

Definition sticky_pressed : World :=
  handle_event 0%nat K_RIGHT sticky_start.

(** A player, a box and a wall in a row. *)
Definition wall_row : World :=
  spawn (Wall__init__ 2 0)
    (spawn (Box__init__ C_Box 1 0)
       (spawn_player (KeyboardPlayer__init__ 0 0) (Stage__init__ 4 1))).

(** An ExplodingMonster built with [exploding_delay = 1] in the middle of
    a 3 x 3 stage, boxes on the eight cells around it. *)
Definition boxed_in : World :=
  foldr (fun c w => spawn (Box__init__ C_Box c.1 c.2) w)
        (spawn (ExplodingMonster__init__ 1 1 1 1) (Stage__init__ 3 3))
        [(0, 0); (0, 1); (0, 2); (1, 0); (1, 2); (2, 0); (2, 1); (2, 2)].

(** The same with a NormalMonster in the middle. *)
Definition boxed_in_normal : World :=
  foldr (fun c w => spawn (Box__init__ C_Box c.1 c.2) w)
        (spawn (Monster__init__ C_NormalMonster 1 1 3) (Stage__init__ 3 3))
        [(0, 0); (0, 1); (0, 2); (1, 0); (1, 2); (2, 0); (2, 1); (2, 2)].

(** A player next to a NormalMonster; the right arrow is pressed. *)
Definition doomed : World :=
  handle_event 0%nat K_RIGHT
    (spawn (Monster__init__ C_NormalMonster 1 0 3)
       (spawn_player (KeyboardPlayer__init__ 0 0) (Stage__init__ 4 4))).

(** The ExplodingMonster of the game script, [ExplodingMonster(_, ww, 7, 4,
    1, 20)], alone on the 20 x 20 stage. *)
Definition fuse20 : World :=
  spawn (ExplodingMonster__init__ 7 4 1 20) (Stage__init__ 20 20).

(** The world after [n] ticks from [w] (the world itself if a tick fails). *)
Definition after_ticks (n : nat) (w : World) : World :=
  default w (final (ticks 40 n w)).

(** A player next to an ExplodingMonster. *)
Definition beside_bomb : World :=
  spawn (ExplodingMonster__init__ 1 0 1 20)
    (spawn_player (KeyboardPlayer__init__ 0 0) (Stage__init__ 4 4)).

(** A NormalMonster moving every tick, one diagonal step away from a
    player that does not move: the first tick kills the player. *)
Definition ambush : World :=
  spawn (Monster__init__ C_NormalMonster 0 0 1)
    (spawn_player (KeyboardPlayer__init__ 1 1) (Stage__init__ 4 4)).

(** The world after [n] steps of actor 0 alone, never trapped. *)
Definition after_own_steps (n : nat) (w : World) : World :=
  default w (own_steps 40 0%nat false n w).

(** A player, two boxes and a wall in a row. *)
Definition two_boxes_wall : World :=
  spawn (Wall__init__ 3 0)
    (spawn (Box__init__ C_StickyBox 2 0)
       (spawn (Box__init__ C_Box 1 0)
          (spawn_player (KeyboardPlayer__init__ 0 0) (Stage__init__ 5 1)))).

(** The world left by the call [self.move(other, dx, dy)] (the world itself
    if the call fails). *)
Definition after_move (self other : ref) (dx dy : Z) (w : World) : World :=
  default w (final (move 10 self other dx dy w)).

(** A player and two boxes in a row, a free cell behind them. *)
Definition push_row : World :=
  spawn (Box__init__ C_StickyBox 2 0)
    (spawn (Box__init__ C_Box 1 0)
       (spawn_player (KeyboardPlayer__init__ 0 0) (Stage__init__ 5 1))).

(** A NormalMonster at (1, 1) with a Box on seven of its neighbouring
    cells and an ExplodingMonster on the eighth, (2, 1); the player stands
    at (3, 1) and the left arrow is pressed. *)
Definition crowd_start : World :=
  handle_event 0%nat K_LEFT
    (foldr (fun c w => spawn (Box__init__ C_Box c.1 c.2) w)
           (spawn (ExplodingMonster__init__ 2 1 1 20)
              (spawn (Monster__init__ C_NormalMonster 1 1 3)
                 (spawn_player (KeyboardPlayer__init__ 3 1)
                    (Stage__init__ 4 3))))
           [(0, 0); (0, 1); (0, 2); (1, 0); (1, 2); (2, 0); (2, 2)]).

(** The same after the step of the player, who has walked onto the cell of
    the ExplodingMonster. *)
Definition crowd : World :=
  default crowd_start (final (step 10 0%nat crowd_start)).

End Scenario.

(** * More of the program

    The rest of [ww.py] and the set-up loops of the game script
    [wwgame.py], for the properties at the end of the file. *)

(** [n] calls of [Actor.delay] in a row, with the value of each. *)
Fixpoint delay_calls (n : nat) (self : ref) (w : World) : Res (list bool) :=
  match n with
  | O => Ok [] w
  | S n' =>
      call b, w1 <- delay self w;
      call bs, w2 <- delay_calls n' self w1;
      Ok (b :: bs) w2
  end.

Definition with_player (p : option ref) (w : World) : World :=
  mkWorld (heap w) (next_ref w) (_actors w) p (_width w) (_height w).

(** [Stage.remove_player] is [self.remove_actor(self._player)] followed by
    [self._player = None]; with no player the first line asks the list to
    remove [None], which it does not hold. *)
Definition remove_player (w : World) : Res PyVal :=
  match _player w with
  | Some p => call _, w1 <- remove_actor p w; Ok PyNone (with_player None w1)
  | None => Raise ValueError
  end.

(** One of the two set-up loops of the game script,
    [while n < todo: x = randrange(width); y = randrange(height);
     if get_actor(x, y) is None: add_actor(Box(_, ww, x, y)); n += 1],
    for boxes of class [c].  [draws] are the pairs the random generator
    returns, in order; the loop is still running when they are used up. *)
Fixpoint scatter (c : Class) (draws : list (Z * Z)) (todo : nat) (w : World)
  {struct draws} : Res PyVal :=
  match todo with
  | O => Ok PyNone w
  | S t =>
      match draws with
      | [] => OutOfFuel
      | d :: ds =>
          match get_actor w d.1 d.2 with
          | None => scatter c ds t (spawn (Box__init__ c d.1 d.2) w)
          | Some _ => scatter c ds todo w
          end
      end
  end.

(** The stage of the game script before the boxes are scattered. *)
Definition wwgame_stage : World :=
  spawn (Monster__init__ C_EzMonster 2 4 3)
    (spawn (Monster__init__ C_NormalMonster 5 20 2)
       (spawn (Monster__init__ C_NormalMonster 4 10 3)
          (spawn (ExplodingMonster__init__ 7 4 1 20)
             (spawn (ExplodingMonster__init__ 0 3 1 20)
                (spawn (Wall__init__ 3 4)
                   (spawn_player (KeyboardPlayer__init__ 0 0)
                      (Stage__init__ 20 20))))))).

(** The set-up of the game script: 90 boxes, then 10 sticky boxes. *)
Definition wwgame_init (boxes sticky : list (Z * Z)) : Res PyVal :=
  call _, w1 <- scatter C_Box boxes 90 wwgame_stage;
  scatter C_StickyBox sticky 10 w1.

(** The cells [(x, y)], [(x + dx, y + dy)], ... are on the stage and hold
    [k] boxes in a row and then nobody. *)
Fixpoint boxes_then_free (w : World) (x y dx dy : Z) (k : nat) : bool :=
  is_in_bounds w x y &&
  match k with
  | O => bool_decide (get_actor w x y = None)
  | S k' =>
      match get_actor w x y with
      | Some a => isinstance_Box (cls (deref w a))
                  && boxes_then_free w (x + dx) (y + dy) dx dy k'
      | None => false
      end
  end.

(** Every registered actor is alive and of a class whose step is
    [Actor.step]. *)
Definition inert (w : World) : bool :=
  forallb
    (fun a =>
       match cls (deref w a) with
       | C_Actor | C_Player | C_Box | C_StickyBox | C_Wall =>
           negb (life (deref w a) =? 0)
       | _ => false
       end)
    (_actors w).

(** The classes whose objects no call moves: walls and flames. *)
Definition fixture (c : Class) : bool :=
  match c with C_Wall | C_Flame => true | _ => false end.

(** The direction [KeyboardPlayer.step] is going to move in: that of the
    pending key, if there is one and it is one of the keys tested. *)
Definition pending_direction (self : ref) (w : World) : option (Z * Z) :=
  match _last_event (deref w self) with
  | Some k => key_direction k
  | None => None
  end.

(** The classes that no request of another actor moves. *)
Definition unpushable (c : Class) : bool :=
  isinstance_Monster c || bool_decide (c = C_Wall).

(** Nothing has moved from [w] to [w']: the stage has its size, and every
    object its class and its place. *)
Definition same_places (w w' : World) : Prop :=
  _width w' = _width w ∧ _height w' = _height w ∧
  ∀ a, cls (deref w' a) = cls (deref w a) ∧ stays w w' a.

(** What a step may do to the place of [a]: leave it, or, if [a] is neither
    a wall nor a flame, and no monster but the stepping one, change it. *)
Definition moved_by (s : ref) (w w' : World) (a : ref) : Prop :=
  stays w w' a ∨
  (fixture (cls (deref w a)) = false ∧
   (isinstance_Monster (cls (deref w a)) = true → a = s)).

(** [a] stands on the stage. *)
Definition on_stage (w : World) (a : ref) : Prop :=
  is_in_bounds w (_x (deref w a)) (_y (deref w a)) = true.

(** [Stage.draw], as far as the game state goes: the icons are drawn from
    the places of the actors, which it only reads, and then the player is
    asked whether it is dead, for the game-over text. *)
Definition draw (w : World) : Res PyVal :=
  match _player w with
  | Some p => let (_, w1) := is_dead p w in Ok PyNone w1
  | None => Raise AttributeError
  end.

(** The key presses of one pass of the main loop of the game script, sent
    to the stage in order. *)
Fixpoint key_events (keys : list Key) (w : World) : Res PyVal :=
  match keys with
  | [] => Ok PyNone w
  | k :: ks => call _, w1 <- player_event k w; key_events ks w1
  end.

(** One pass of the main loop: the pending key presses, a step of the
    stage, and the drawing.  (The QUIT event, which ends the program, is
    left out.) *)
Definition main_loop_pass (fuel : nat) (keys : list Key) (w : World)
  : Res PyVal :=
  call _, w1 <- key_events keys w;
  call _, w2 <- Stage_step fuel w1;
  draw w2.

(** [n] steps of one actor in a row. *)
Fixpoint steps_in_a_row (fuel n : nat) (self : ref) (w : World) : Res PyVal :=
  match n with
  | O => Ok PyNone w
  | S n' => call _, w1 <- step fuel self w; steps_in_a_row fuel n' self w1
  end.

Module Setup.

(** The cells of the rows [y0], [y0 + 1], ... of a stage 20 cells wide. *)
Definition rows (y0 : Z) (n : nat) : list (Z * Z) :=
  (fun c : nat * nat => (Z.of_nat c.1, y0 + Z.of_nat c.2))
    <$> list_prod (seq 0 20) (seq 0 n).

(** Draws that find a free cell every time. *)
Definition box_draws : list (Z * Z) := rows 12 5.

Definition sticky_draws : list (Z * Z) := rows 17 1.

(** The stage set up with these draws. *)
Definition ready : World :=
  default wwgame_stage (final (wwgame_init box_draws sticky_draws)).

(** The game on that stage after [n] ticks without key presses (the stage
    itself if a tick fails). *)
Definition played (n : nat) : World :=
  default ready (final (ticks 200 n ready)).

(** A monster that has run into a sticky box: a StickyBox at (1, 1) in the
    way of a NormalMonster at (0, 0) that moves at every tick. *)
Definition stuck_pair : World :=
  Scenario.after_ticks 1
    (spawn (Monster__init__ C_NormalMonster 0 0 1)
       (spawn (Box__init__ C_StickyBox 1 1) (Stage__init__ 4 4))).

(** Boxes and walls only. *)
Definition warehouse : World :=
  spawn (Wall__init__ 3 0)
    (spawn (Box__init__ C_StickyBox 2 0)
       (spawn (Box__init__ C_Box 1 0) (Stage__init__ 5 1))).

(** A player, a box and a wall in a row; the right arrow is pressed. *)
Definition wall_pressed : World :=
  handle_event 0%nat K_RIGHT Scenario.wall_row.

(** The stage of [Scenario.wall_row] after [remove_player]. *)
Definition no_player : World :=
  default Scenario.wall_row (final (remove_player Scenario.wall_row)).

(** The player of [Scenario.ambush] killed by the monster at the first
    tick, and the stage drawn afterwards. *)
Definition killed : World := Scenario.after_ticks 1 Scenario.ambush.

Definition drawn : World := default killed (final (draw killed)).

(** A flame as an explosion leaves it. *)
Definition bonfire : World :=
  spawn (Flame__init__ 1 1 1) (Stage__init__ 3 3).

(** The world left by the step of [a] (the world itself if it fails). *)
Definition after_step (a : ref) (w : World) : World :=
  default w (final (step 10 a w)).

(** The stage of [Scenario.doomed] once the player has walked into the
    monster and its step has removed it. *)
Definition buried : World := after_step 0%nat Scenario.doomed.

End Setup.

(** * Properties

    First the lemmas about the object store, [get_actor], the list of
    actors, [Monster.move], explosions and the rules of [Moved]; then, claim
    by claim, the theorems.  The theorems named after a claim that end in
    [_counterexample], and those marked (defect), run the code on one of
    the scenarios above. *)

(** ** Reading and writing the object store *)

Lemma deref_update_eq r f w : deref (update r f w) r = f (deref w r).
Proof. unfold deref, update; simpl. apply lookup_total_insert_eq. Qed.

Lemma deref_update_ne r r' f w : r ≠ r' → deref (update r f w) r' = deref w r'.
Proof. intros H. unfold deref, update; simpl. by apply lookup_total_insert_ne. Qed.

Lemma deref_update r r' f w :
  deref (update r f w) r' = if decide (r = r') then f (deref w r) else deref w r'.
Proof.
  case_decide; subst; [apply deref_update_eq | by apply deref_update_ne].
Qed.


Lemma get_position_update r r' f w :
  _x (f (deref w r)) = _x (deref w r) →
  _y (f (deref w r)) = _y (deref w r) →
  get_position (update r f w) r' = get_position w r'.
Proof.
  intros Hx Hy. unfold get_position. rewrite deref_update.
  case_decide; subst; congruence.
Qed.

Lemma at_cell_true w x y r :
  at_cell w x y r = true ↔ get_position w r = (x, y).
Proof.
  unfold at_cell, get_position. rewrite andb_true_iff, !Z.eqb_eq.
  split; [intros [-> ->]; reflexivity | intros [= -> ->]; done].
Qed.

Lemma at_cell_false w x y r :
  at_cell w x y r = false ↔ get_position w r ≠ (x, y).
Proof.
  rewrite <- at_cell_true. destruct (at_cell w x y r); split; congruence.
Qed.

(** ** [get_actor] *)

Lemma first_at_Some w x y l r :
  first_at w x y l = Some r → r ∈ l ∧ get_position w r = (x, y).
Proof.
  induction l as [|a l IH]; simpl; [discriminate|].
  destruct (at_cell w x y a) eqn:E.
  - intros [= <-]. split; [left | by apply at_cell_true].
  - intros H. destruct (IH H). split; [by right | done].
Qed.

Lemma first_at_None w x y l :
  first_at w x y l = None ↔ ∀ r, r ∈ l → get_position w r ≠ (x, y).
Proof.
  induction l as [|a l IH]; simpl.
  - split; [intros _ r Hr; inversion Hr | done].
  - destruct (at_cell w x y a) eqn:E.
    + split; [discriminate|]. intros H. exfalso.
      apply (H a); [left | by apply at_cell_true].
    + rewrite IH. split.
      * intros H r Hr. inversion Hr; subst; [by apply at_cell_false | auto].
      * intros H r Hr. apply H. by right.
Qed.

Lemma first_at_ext w w' x y l :
  (∀ r, r ∈ l → get_position w' r = get_position w r) →
  first_at w' x y l = first_at w x y l.
Proof.
  induction l as [|a l IH]; simpl; [done|]. intros H.
  assert (at_cell w' x y a = at_cell w x y a) as ->.
  { destruct (at_cell w x y a) eqn:E.
    - apply at_cell_true. rewrite H by left. by apply at_cell_true.
    - apply at_cell_false. rewrite H by left. by apply at_cell_false. }
  rewrite IH; [done|]. intros r Hr. apply H. by right.
Qed.

Lemma get_actor_Some w x y r :
  get_actor w x y = Some r → r ∈ _actors w ∧ get_position w r = (x, y).
Proof. apply first_at_Some. Qed.

Lemma get_actor_None w x y :
  get_actor w x y = None ↔ ∀ r, r ∈ _actors w → get_position w r ≠ (x, y).
Proof. apply first_at_None. Qed.

Lemma get_actor_occupied w x y r :
  r ∈ _actors w → get_position w r = (x, y) → get_actor w x y ≠ None.
Proof. intros Hr Hp H. by eapply get_actor_None in H. Qed.

Lemma get_actor_ext w w' x y :
  _actors w' = _actors w →
  (∀ r, r ∈ _actors w → get_position w' r = get_position w r) →
  get_actor w' x y = get_actor w x y.
Proof. intros Ha H. unfold get_actor. rewrite Ha. by apply first_at_ext. Qed.

(** ** Frames *)

Lemma same_stage_refl w : same_stage w w.
Proof. by repeat split. Qed.

Lemma same_stage_trans w1 w2 w3 :
  same_stage w1 w2 → same_stage w2 w3 → same_stage w1 w3.
Proof.
  intros (?&?&?&?&?&Hc1) (?&?&?&?&?&Hc2).
  repeat split; first [congruence | intros a; by rewrite Hc2].
Qed.

Lemma same_stage_update r f w :
  cls (f (deref w r)) = cls (deref w r) → same_stage w (update r f w).
Proof.
  intros H. repeat split. intros a. rewrite deref_update.
  case_decide; subst; done.
Qed.

Lemma same_stage_bounds w w' x y :
  same_stage w w' → is_in_bounds w' x y = is_in_bounds w x y.
Proof.
  intros (_&Hw&Hh&_). unfold is_in_bounds, is_in_bounds_x, is_in_bounds_y.
  by rewrite Hw, Hh.
Qed.

Lemma is_in_bounds_split w x y :
  is_in_bounds w x y = is_in_bounds_x w x && is_in_bounds_y w y.
Proof. reflexivity. Qed.

Lemma stays_update r f w a :
  _x (f (deref w r)) = _x (deref w r) →
  _y (f (deref w r)) = _y (deref w r) →
  stays w (update r f w) a.
Proof. apply get_position_update. Qed.

Lemma stays_update_ne r f w a : a ≠ r → stays w (update r f w) a.
Proof. intros H. unfold stays, get_position. by rewrite deref_update_ne. Qed.

Lemma stays_trans w1 w2 w3 a : stays w1 w2 a → stays w2 w3 a → stays w1 w3 a.
Proof. unfold stays. congruence. Qed.

Lemma life_kept_refl w a : life_kept w w a.
Proof. by left. Qed.

Lemma get_actor_stays w w' x y :
  same_stage w w' → (∀ a, stays w w' a) → get_actor w' x y = get_actor w x y.
Proof. intros (Ha&_) Hs. apply get_actor_ext; [done|]. intros r _. apply Hs. Qed.

(** ** [Monster.move] *)

Ltac upd :=
  repeat first
    [ rewrite deref_update_eq
    | rewrite deref_update_ne by (first [done | congruence]) ];
  simpl.

Lemma life_kept_update_ne r f w a : a ≠ r → life_kept w (update r f w) a.
Proof. intros H. left. by rewrite deref_update_ne. Qed.

Lemma life_kept_update r f w a :
  life (f (deref w r)) = life (deref w r) → life_kept w (update r f w) a.
Proof.
  intros H. left. rewrite deref_update. case_decide; subst; done.
Qed.

Lemma life_kept_kill r w a :
  isinstance_KeyboardPlayer (cls (deref w r)) = true →
  life_kept w (update r (with_life 0) w) a.
Proof.
  intros H. unfold life_kept. rewrite deref_update.
  case_decide; subst; [right | left]; done.
Qed.

Lemma life_kept_trans w1 w2 w3 a :
  same_stage w1 w2 → life_kept w1 w2 a → life_kept w2 w3 a → life_kept w1 w3 a.
Proof.
  intros (_&_&_&_&_&Hc) [H1|[H1 H1']] [H2|[H2 H2']]; unfold life_kept.
  - left; congruence.
  - right. rewrite <- Hc. done.
  - right. split; [done | congruence].
  - right. rewrite <- Hc. done.
Qed.

Lemma Monster_move_spec self other dx dy w r w' :
  Monster_move self other dx dy w = Ok r w' →
  same_stage w w' ∧
  (∀ a, a ≠ self → stays w w' a) ∧
  (∀ a, life_kept w w' a) ∧
  ((r ≠ PyTrue ∧ stays w w' self) ∨
   (r = PyTrue ∧ other = self ∧ shifted dx dy w w' self ∧
    is_in_bounds w (_x (deref w self) + _dx (deref w self))
                   (_y (deref w self) + _dy (deref w self)) = true ∧
    get_actor w (_x (deref w self) + _dx (deref w self))
                (_y (deref w self) + _dy (deref w self)) = None)).
Proof.
  unfold Monster_move.
  destruct (Nat.eqb other self) eqn:Eo; simpl.
  2:{ intros [= <- <-]. split; [apply same_stage_refl|].
      split; [done|]. split; [intros; apply life_kept_refl|]. by left. }
  apply Nat.eqb_eq in Eo. subst other.
  set (nx := _x (deref w self) + _dx (deref w self)).
  set (ny := _y (deref w self) + _dy (deref w self)).
  destruct (is_in_bounds_x w nx) eqn:Ex; simpl.
  - unfold is_in_bounds_y at 1. simpl. fold (is_in_bounds_y w ny).
    destruct (is_in_bounds_y w ny) eqn:Ey; simpl.
    + rewrite is_in_bounds_split, Ex, Ey. simpl.
      destruct (get_actor w nx ny) as [actor|] eqn:Eg.
      * destruct (isinstance_KeyboardPlayer (cls (deref w actor))) eqn:Ek;
          [|destruct (isinstance_StickyBox (cls (deref w actor))) eqn:Es];
          intros [= <- <-].
        -- split; [by apply same_stage_update|].
           split; [intros; by apply stays_update|].
           split; [intros; by apply life_kept_kill|].
           left. split; [done | by apply stays_update].
        -- split.
           { eapply same_stage_trans; [|by apply same_stage_update].
             eapply same_stage_trans; by apply same_stage_update. }
           split; [intros a Ha; unfold stays, get_position; by upd|].
           split.
           { intros a. left. destruct (decide (a = self)) as [->|]; by upd. }
           left. split; [done|]. unfold stays, get_position. by upd.
        -- split; [by apply same_stage_update|].
           split; [intros; by apply stays_update|].
           split; [intros; by apply life_kept_update|].
           left. split; [done | by apply stays_update].
      * unfold Actor_move. intros [= <- <-].
        split; [by apply same_stage_update|].
        split; [intros; by apply stays_update_ne|].
        split; [intros; by apply life_kept_update|].
        right. split; [done|]. split; [done|]. split; [|split; [|done]].
        -- unfold shifted, set_position, get_position. by upd.
        -- first [done | by rewrite is_in_bounds_split, Ex, Ey].
    + intros [= <- <-].
      split; [by apply same_stage_update|].
      split; [intros; by apply stays_update|].
      split; [intros; by apply life_kept_update|].
      left. split; [done | by apply stays_update].
  - unfold is_in_bounds_y at 1. simpl. fold (is_in_bounds_y w ny).
    intros [= <- <-].
    destruct (is_in_bounds_y w ny) eqn:Ey; simpl.
    + split; [by apply same_stage_update|].
      split; [intros; by apply stays_update|].
      split; [intros; by apply life_kept_update|].
      left. split; [done | by apply stays_update].
    + split.
      { eapply same_stage_trans; by apply same_stage_update. }
      split; [intros a Ha; unfold stays, get_position; by upd|].
      split.
      { intros a. left. destruct (decide (a = self)) as [->|]; by upd. }
      left. split; [done|]. unfold stays, get_position. by upd.
Qed.

Lemma Monster_move_returns self other dx dy w :
  ∃ r w', Monster_move self other dx dy w = Ok r w'.
Proof.
  unfold Monster_move, Actor_move, bind.
  repeat (case_match; simpl); eauto.
Qed.

(** ** The stuck check and the delay *)

Lemma stuck_check_spec self w b w' :
  stuck_check self w = Ok b w' →
  same_stage w w' ∧ (∀ a, stays w w' a) ∧
  (∀ a, life (deref w' a) = life (deref w a)) ∧
  (∀ a, _delay (deref w' a) = _delay (deref w a)) ∧
  (∀ a, _dx (deref w' a) = _dx (deref w a)) ∧
  (∀ a, _dy (deref w' a) = _dy (deref w a)).
Proof.
  unfold stuck_check.
  destruct (stuck (deref w self)); [|intros [= <- <-]; by repeat split].
  destruct (stick_position (deref w self)) as [[px py]|]; [|discriminate].
  case_decide; intros [= <- <-]; [by repeat split|].
  split.
  { eapply same_stage_trans; [|by apply same_stage_update].
    eapply same_stage_trans; by apply same_stage_update. }
  repeat split; intros a; unfold stays, get_position;
    destruct (decide (a = self)) as [->|]; by upd.
Qed.

Lemma stuck_check_returns self w :
  (stuck (deref w self) = true → stick_position (deref w self) ≠ None) →
  ∃ b w', stuck_check self w = Ok b w'.
Proof.
  unfold stuck_check. intros H.
  destruct (stuck (deref w self)); [|eauto].
  destruct (stick_position (deref w self)) as [[px py]|];
    [case_decide; eauto | by destruct H].
Qed.

Lemma delay_spec self w b w' :
  delay self w = Ok b w' →
  _delay (deref w self) ≠ 0 ∧
  w' = update self
         (with_delay_count ((_delay_count (deref w self) + 1)
                            `mod` _delay (deref w self))) w.
Proof.
  unfold delay. destruct (_delay (deref w self) =? 0) eqn:E; [discriminate|].
  intros [= <- <-]. split; [by apply Z.eqb_neq | done].
Qed.

Lemma delay_returns self w :
  _delay (deref w self) ≠ 0 → ∃ b w', delay self w = Ok b w'.
Proof.
  intros H. unfold delay. apply Z.eqb_neq in H. rewrite H. eauto.
Qed.

(** ** The list of actors *)

Lemma mem_true r l : mem r l = true ↔ r ∈ l.
Proof.
  unfold mem. rewrite existsb_exists. split.
  - intros (x & Hx & E). apply Nat.eqb_eq in E. subst. by apply list_elem_of_In.
  - intros H. exists r. split; [by apply list_elem_of_In | apply Nat.eqb_refl].
Qed.

Lemma remove_first_sublist r l : remove_first r l `sublist_of` l.
Proof.
  induction l as [|a l IH]; simpl; [constructor|].
  destruct (Nat.eqb a r); [by apply sublist_cons | by apply sublist_skip].
Qed.

Lemma remove_first_elem_of r l x : x ∈ remove_first r l → x ∈ l.
Proof. intros H. eapply elem_of_sublist, remove_first_sublist. done. Qed.

Lemma remove_first_other r l x : x ∈ l → x ≠ r → x ∈ remove_first r l.
Proof.
  induction l as [|a l IH]; simpl; [done|]. intros Hx Hne.
  destruct (Nat.eqb a r) eqn:E.
  - apply Nat.eqb_eq in E. subst a. inversion Hx; subst; done.
  - inversion Hx; subst; [left | right; auto].
Qed.

Lemma remove_first_gone r l : NoDup l → r ∉ remove_first r l.
Proof.
  induction 1 as [|a l Ha Hl IH]; simpl; [inversion 1|].
  destruct (Nat.eqb a r) eqn:E.
  - apply Nat.eqb_eq in E. by subst a.
  - apply Nat.eqb_neq in E. intros H. inversion H; subst; done.
Qed.

Lemma remove_first_NoDup r l : NoDup l → NoDup (remove_first r l).
Proof. intros H. eapply sublist_NoDup; [done | apply remove_first_sublist]. Qed.

Lemma remove_actor_spec r w v w' :
  remove_actor r w = Ok v w' →
  r ∈ _actors w ∧ v = PyNone ∧
  w' = with_actors (remove_first r (_actors w)) w.
Proof.
  unfold remove_actor. destruct (mem r (_actors w)) eqn:E; [|discriminate].
  intros [= <- <-]. by apply mem_true in E.
Qed.

Lemma remove_actor_returns r w :
  r ∈ _actors w →
  remove_actor r w = Ok PyNone (with_actors (remove_first r (_actors w)) w).
Proof. intros H. unfold remove_actor. apply mem_true in H. by rewrite H. Qed.

(** ** Pairwise form of the grid invariant *)

Lemma NoDup_fmap_pairwise {A B} (f : A → B) (l : list A) :
  NoDup (f <$> l) ↔
  NoDup l ∧ ∀ x y, x ∈ l → y ∈ l → f x = f y → x = y.
Proof.
  split.
  - intros H. split; [by eapply NoDup_fmap_1|].
    induction l as [|a l IH]; [intros x y Hx; inversion Hx|].
    simpl in H. apply NoDup_cons in H as [Ha Hl].
    intros x y Hx Hy E. inversion Hx; inversion Hy; subst; auto.
    + destruct Ha. rewrite E. by apply list_elem_of_fmap_2.
    + destruct Ha. rewrite <- E. by apply list_elem_of_fmap_2.
  - intros [H1 H2]. by apply NoDup_fmap_2_strong.
Qed.

Lemma one_per_cell_pairwise w :
  one_per_cell w ↔
  NoDup (_actors w) ∧
  ∀ a b, a ∈ _actors w → b ∈ _actors w →
         get_position w a = get_position w b → a = b.
Proof. apply NoDup_fmap_pairwise. Qed.

Lemma get_actor_only w x y r :
  one_per_cell w → r ∈ _actors w → get_position w r = (x, y) →
  get_actor w x y = Some r.
Proof.
  intros [_ H]%one_per_cell_pairwise Hr Hp.
  destruct (get_actor w x y) as [r'|] eqn:E.
  - apply get_actor_Some in E as [Hr' Hp']. f_equal. apply H; congruence.
  - by eapply get_actor_None in E.
Qed.

(** ** Explosions *)

Lemma deref_alloc x w a :
  deref (alloc x w).2 a = if decide (next_ref w = a) then x else deref w a.
Proof.
  unfold deref, alloc; simpl. case_decide; subst.
  - apply lookup_total_insert_eq.
  - by apply lookup_total_insert_ne.
Qed.

Lemma explode_cell_in cx cy w :
  is_in_bounds w cx cy = true →
  explode_cell cx cy w = Ok PyNone (exploded_cell cx cy w).
Proof.
  intros Hb. unfold explode_cell, exploded_cell. rewrite Hb.
  destruct (get_actor w cx cy) as [r|] eqn:Eg; simpl.
  - set (w1 := if isinstance_KeyboardPlayer (cls (deref w r))
               then update r (with_life 0) w else w).
    assert (Ha : _actors w1 = _actors w).
    { unfold w1. by destruct (isinstance_KeyboardPlayer _). }
    assert (Hn : next_ref w1 = next_ref w).
    { unfold w1. by destruct (isinstance_KeyboardPlayer _). }
    assert (Hg : get_actor w1 cx cy = Some r).
    { rewrite <- Eg. apply get_actor_ext; [done|]. intros a _. unfold w1.
      destruct (isinstance_KeyboardPlayer _); [by apply stays_update | done]. }
    rewrite Hg. apply get_actor_Some in Eg as [Hr _].
    rewrite remove_actor_returns by by rewrite Ha. simpl.
    by rewrite Ha, Hn.
  - rewrite Eg. reflexivity.
Qed.

Lemma explode_cell_out cx cy w :
  is_in_bounds w cx cy = false → explode_cell cx cy w = Ok PyNone w.
Proof. intros Hb. unfold explode_cell. by rewrite Hb. Qed.

Lemma exploded_cell_actors cx cy w :
  _actors (exploded_cell cx cy w)
  = match get_actor w cx cy with
    | Some r => remove_first r (_actors w)
    | None => _actors w
    end ++ [next_ref w].
Proof.
  unfold exploded_cell. destruct (get_actor w cx cy) as [r|]; simpl; [done|].
  reflexivity.
Qed.

Lemma exploded_cell_next cx cy w :
  next_ref (exploded_cell cx cy w) = S (next_ref w).
Proof.
  unfold exploded_cell.
  destruct (get_actor w cx cy) as [r|]; simpl; [|done].
  by destruct (isinstance_KeyboardPlayer _).
Qed.

Lemma exploded_cell_flame cx cy w :
  deref (exploded_cell cx cy w) (next_ref w) = Flame__init__ cx cy 1.
Proof.
  unfold exploded_cell, add_actor, with_actors, deref; simpl.
  destruct (get_actor w cx cy) as [r|]; simpl.
  - destruct (isinstance_KeyboardPlayer _); simpl; apply lookup_total_insert_eq.
  - apply lookup_total_insert_eq.
Qed.

Lemma exploded_cell_old cx cy w a :
  a ≠ next_ref w →
  deref (exploded_cell cx cy w) a
  = match get_actor w cx cy with
    | Some r => if isinstance_KeyboardPlayer (cls (deref w r))
                then deref (update r (with_life 0) w) a else deref w a
    | None => deref w a
    end.
Proof.
  intros Hne. unfold exploded_cell, add_actor, with_actors, deref; simpl.
  destruct (get_actor w cx cy) as [r|]; simpl.
  - destruct (isinstance_KeyboardPlayer _); simpl;
      by rewrite lookup_total_insert_ne.
  - by rewrite lookup_total_insert_ne.
Qed.

Lemma exploded_cell_old_place cx cy w a :
  a ≠ next_ref w → stays w (exploded_cell cx cy w) a.
Proof.
  intros Hne. unfold stays, get_position. rewrite exploded_cell_old by done.
  destruct (get_actor w cx cy) as [r|]; [|done].
  destruct (isinstance_KeyboardPlayer _); [|done].
  rewrite deref_update. case_decide; subst; done.
Qed.

Lemma exploded_cell_old_cls cx cy w a :
  a ≠ next_ref w → cls (deref (exploded_cell cx cy w) a) = cls (deref w a).
Proof.
  intros Hne. rewrite exploded_cell_old by done.
  destruct (get_actor w cx cy) as [r|]; [|done].
  destruct (isinstance_KeyboardPlayer _); [|done].
  rewrite deref_update. case_decide; subst; done.
Qed.

Lemma exploded_cell_old_life cx cy w a :
  a ≠ next_ref w → life_kept w (exploded_cell cx cy w) a.
Proof.
  intros Hne. unfold life_kept. rewrite exploded_cell_old by done.
  destruct (get_actor w cx cy) as [r|]; [|by left].
  destruct (isinstance_KeyboardPlayer _) eqn:E; [|by left].
  rewrite deref_update. case_decide; subst; [right | left]; done.
Qed.

Lemma exploded_cell_allocated cx cy w :
  refs_allocated w → refs_allocated (exploded_cell cx cy w).
Proof.
  intros H r. rewrite exploded_cell_actors, exploded_cell_next.
  rewrite elem_of_app, list_elem_of_singleton. intros [Hr| ->]; [|lia].
  assert (Hin : r ∈ _actors w).
  { destruct (get_actor w cx cy); [by eapply remove_first_elem_of | done]. }
  apply H in Hin. lia.
Qed.

Lemma exploded_cell_one_per_cell cx cy w :
  refs_allocated w → one_per_cell w → one_per_cell (exploded_cell cx cy w).
Proof.
  intros Hal Hone.
  pose proof Hone as [Hnd Hpw]%one_per_cell_pairwise.
  apply one_per_cell_pairwise. rewrite exploded_cell_actors.
  set (L := match get_actor w cx cy with
            | Some r => remove_first r (_actors w)
            | None => _actors w
            end).
  assert (HL : ∀ a, a ∈ L → a ∈ _actors w).
  { intros a. unfold L.
    destruct (get_actor w cx cy); [apply remove_first_elem_of | done]. }
  assert (Hfresh : ∀ a, a ∈ L → a ≠ next_ref w).
  { intros a Ha%HL%Hal. lia. }
  assert (Hempty : ∀ a, a ∈ L → get_position w a ≠ (cx, cy)).
  { intros a Ha Hp. unfold L in Ha.
    destruct (get_actor w cx cy) as [r|] eqn:Eg.
    - assert (a = r) as ->.
      { apply get_actor_Some in Eg as [Hr Hpr].
        apply Hpw; [by eapply remove_first_elem_of | done | congruence]. }
      by eapply remove_first_gone.
    - by eapply get_actor_None in Eg. }
  assert (Hflame : get_position (exploded_cell cx cy w) (next_ref w) = (cx, cy)).
  { unfold get_position. by rewrite exploded_cell_flame. }
  split.
  - apply NoDup_app. split; [|split; [|apply NoDup_singleton]].
    + unfold L. destruct (get_actor w cx cy); [by apply remove_first_NoDup|done].
    + intros a Ha ->%list_elem_of_singleton. by apply (Hfresh (next_ref w)).
  - intros a b. rewrite !elem_of_app, !list_elem_of_singleton.
    intros [Ha| ->] [Hb| ->]; [| | |done].
    + rewrite !exploded_cell_old_place by auto. apply Hpw; auto.
    + rewrite Hflame, exploded_cell_old_place by auto.
      intros Hp. by destruct (Hempty a).
    + rewrite Hflame, exploded_cell_old_place by auto.
      intros Hp. by destruct (Hempty b).
Qed.

Lemma grows_refl w : grows w w.
Proof.
  repeat split; try done. - by left. - by left.
Qed.

Lemma grows_trans w1 w2 w3 : grows w1 w2 → grows w2 w3 → grows w1 w3.
Proof.
  intros (Hw1&Hh1&Hp1&Hn1&Ha1&Ho1) (Hw2&Hh2&Hp2&Hn2&Ha2&Ho2).
  split; [congruence|]. split; [congruence|]. split; [congruence|].
  split; [lia|]. split.
  - intros r [Hr|Hr]%Ha2; [apply Ha1 in Hr as [?|?]; [by left | right; lia]
                          | right; lia].
  - intros a Ha. destruct (Ho1 a Ha) as [E1|[Hk E1]];
      (destruct (Ho2 a) as [E2|[Hk' E2]]; [lia| |]); rewrite E2, E1.
    + by left.
    + right. by rewrite <- E1.
    + by right.
    + by right.
Qed.

Lemma grows_old w w' a :
  grows w w' → (a < next_ref w)%nat →
  cls (deref w' a) = cls (deref w a) ∧ stays w w' a ∧ life_kept w w' a ∧
  _delay (deref w' a) = _delay (deref w a).
Proof.
  intros (_&_&_&_&_&Ho) Ha. unfold stays, get_position, life_kept.
  destruct (Ho a Ha) as [->|[Hk ->]]; repeat split; auto.
Qed.

Lemma explode_cell_grows cx cy w :
  ∃ w', explode_cell cx cy w = Ok PyNone w' ∧ grows w w' ∧
        (refs_allocated w → refs_allocated w') ∧
        (refs_allocated w → one_per_cell w → one_per_cell w').
Proof.
  destruct (is_in_bounds w cx cy) eqn:Hb.
  2:{ exists w. rewrite explode_cell_out by done.
      split; [done|]. split; [apply grows_refl | done]. }
  exists (exploded_cell cx cy w). rewrite explode_cell_in by done.
  split; [done|]. split; [|split].
  - split; [|split; [|split; [|split; [|split]]]].
    + unfold exploded_cell. destruct (get_actor w cx cy); simpl; [|done].
      by destruct (isinstance_KeyboardPlayer _).
    + unfold exploded_cell. destruct (get_actor w cx cy); simpl; [|done].
      by destruct (isinstance_KeyboardPlayer _).
    + unfold exploded_cell. destruct (get_actor w cx cy); simpl; [|done].
      by destruct (isinstance_KeyboardPlayer _).
    + rewrite exploded_cell_next. lia.
    + intros r. rewrite exploded_cell_actors, elem_of_app,
        list_elem_of_singleton. intros [Hr| ->]; [left | right; lia].
      destruct (get_actor w cx cy); [by eapply remove_first_elem_of | done].
    + intros a Ha. assert (a ≠ next_ref w) by lia.
      rewrite exploded_cell_old by done.
      destruct (get_actor w cx cy) as [r|]; [|by left].
      destruct (isinstance_KeyboardPlayer _) eqn:E; [|by left].
      rewrite deref_update. case_decide; subst; [by right | by left].
  - apply exploded_cell_allocated.
  - apply exploded_cell_one_per_cell.
Qed.

Lemma explode_cells_grows cells w :
  ∃ w', explode_cells cells w = Ok PyTrue w' ∧ grows w w' ∧
        (refs_allocated w → refs_allocated w') ∧
        (refs_allocated w → one_per_cell w → one_per_cell w').
Proof.
  revert w. induction cells as [|c cells IH]; intros w; simpl.
  - exists w. split; [done|]. split; [apply grows_refl | done].
  - destruct (explode_cell_grows c.1 c.2 w) as (w1 & -> & Hg & Ha & Ho). simpl.
    destruct (IH w1) as (w' & -> & Hg' & Ha' & Ho').
    exists w'. split; [done|]. split; [by eapply grows_trans|]. split; auto.
Qed.

Lemma explode_grows self w :
  ∃ w', explode self w = Ok PyTrue w' ∧ grows w w' ∧
        (refs_allocated w → refs_allocated w') ∧
        (refs_allocated w → one_per_cell w → one_per_cell w').
Proof. apply explode_cells_grows. Qed.

(** ** Every returning run of [move] follows the rules of [Moved] *)

Lemma get_actor_update r f w x y :
  _x (f (deref w r)) = _x (deref w r) →
  _y (f (deref w r)) = _y (deref w r) →
  get_actor (update r f w) x y = get_actor w x y.
Proof.
  intros Hx Hy. apply get_actor_ext; [done|]. intros a _.
  by apply get_position_update.
Qed.

Lemma push_Moved mv self other dx dy w occ r w' :
  (∀ r1 w1, mv occ self dx dy (marks self occ w) = Ok r1 w1 →
            Moved occ self dx dy (marks self occ w) r1 w1) →
  is_in_bounds w (_x (deref w self) + dx) (_y (deref w self) + dy) = true →
  get_actor w (_x (deref w self) + dx) (_y (deref w self) + dy) = Some occ →
  asks (cls (deref w self)) (cls (deref w occ)) = true →
  (call r1, w1 <- mv occ self dx dy (marks self occ w);
   if decide (r1 = PyTrue) then Actor_move self other dx dy w1
   else Ok PyNone w1) = Ok r w' →
  Moved self other dx dy w r w'.
Proof.
  intros IH Hb Hg Ha.
  destruct (mv occ self dx dy (marks self occ w)) as [r1 w1| |];
    simpl; try discriminate.
  specialize (IH _ _ eq_refl). rename IH into E. case_decide as Hr.
  - subst r1. unfold Actor_move. intros [= <- <-].
    by eapply Moved_push.
  - intros [= <- <-]. by eapply Moved_refused.
Qed.

Lemma move_Moved fuel self other dx dy w r w' :
  move fuel self other dx dy w = Ok r w' → Moved self other dx dy w r w'.
Proof.
  revert self other dx dy w r w'.
  induction fuel as [|n IH]; intros self other dx dy w r w'; [discriminate|].
  simpl. destruct (cls (deref w self)) eqn:Ec.
  - intros [= <- <-]. apply Moved_base. by left.
  - intros [= <- <-]. apply Moved_base. by right.
  - (* KeyboardPlayer *)
    unfold KeyboardPlayer_move.
    destruct (is_in_bounds w _ _) eqn:Hb.
    2:{ intros [= <- <-]. apply Moved_out; [by rewrite Ec | done]. }
    destruct (get_actor w _ _) as [occ|] eqn:Hg.
    2:{ intros [= <- <-]. apply Moved_free; [by rewrite Ec | done | done]. }
    destruct (isinstance_Monster (cls (deref w occ))) eqn:Hm; simpl.
    + destruct (cls (deref w occ)) eqn:Eo; try discriminate; simpl;
        intros [= <- <-].
      * eapply Moved_onto; eauto.
      * eapply Moved_die; eauto.
      * eapply Moved_kill; eauto.
      * eapply Moved_onto; eauto.
      * eapply Moved_die; eauto.
    + intros H. eapply push_Moved with (mv := move n) (occ := occ); eauto.
      * by rewrite Ec; simpl; rewrite Hm.
      * unfold marks. by rewrite Ec.
  - (* Box *)
    unfold Box_move.
    destruct (is_in_bounds w _ _) eqn:Hb.
    2:{ intros [= <- <-]. apply Moved_out; [by rewrite Ec | done]. }
    destruct (get_actor w _ _) as [occ|] eqn:Hg.
    2:{ intros [= <- <-]. apply Moved_free; [by rewrite Ec | done | done]. }
    intros H. eapply push_Moved with (mv := move n) (occ := occ); eauto.
    + by rewrite Ec.
    + unfold marks. by rewrite Ec.
  - (* StickyBox *)
    unfold StickyBox_move.
    destruct (is_in_bounds w _ _) eqn:Hb.
    2:{ intros [= <- <-]. apply Moved_out; [by rewrite Ec | done]. }
    destruct (get_actor w _ _) as [occ|] eqn:Hg.
    2:{ intros [= <- <-]. apply Moved_free; [by rewrite Ec | done | done]. }
    assert (Hmarks :
      (if isinstance_Monster (cls (deref w occ))
       then match get_actor (update occ (with_stuck true) w)
                    (_x (deref w self) + dx) (_y (deref w self) + dy) with
            | Some occ' => update occ' (with_stick_with (Some self))
                             (update occ (with_stuck true) w)
            | None => update occ (with_stuck true) w
            end
       else w) = marks self occ w).
    { unfold marks. rewrite Ec.
      destruct (isinstance_Monster _); [|done].
      by rewrite get_actor_update, Hg. }
    rewrite Hmarks.
    assert (get_actor (marks self occ w) (_x (deref w self) + dx)
                      (_y (deref w self) + dy) = Some occ) as ->.
    { unfold marks. rewrite Ec. destruct (isinstance_Monster _); [|done].
      by rewrite !get_actor_update. }
    intros H. eapply push_Moved with (mv := move n) (occ := occ); eauto.
    by rewrite Ec.
  - intros [= <- <-]. by apply Moved_wall.
  - intros H. eapply Moved_monster; eauto; by rewrite Ec.
  - intros H. eapply Moved_monster; eauto; by rewrite Ec.
  - intros H. eapply Moved_monster; eauto; by rewrite Ec.
  - intros H. eapply Moved_monster; eauto; by rewrite Ec.
  - intros [= <- <-]. by apply Moved_flame.
Qed.

(** ** What [move] leaves alone *)

Lemma unharmed_refl w a : unharmed w w a.
Proof. by left. Qed.

Lemma life_kept_unharmed w w' a : life_kept w w' a → unharmed w w' a.
Proof. intros [H|[H1 H2]]; [by left | right; auto]. Qed.

Lemma unharmed_trans w1 w2 w3 a :
  same_stage w1 w2 → unharmed w1 w2 a → unharmed w2 w3 a → unharmed w1 w3 a.
Proof.
  intros (_&_&_&_&_&Hc) [H1|[H1 H1']] [H2|[H2 H2']]; unfold unharmed.
  - left; congruence.
  - right. by rewrite <- Hc.
  - right. split; [congruence | done].
  - right. by rewrite <- Hc.
Qed.

Lemma unharmed_update r f w a :
  life (f (deref w r)) = life (deref w r) → unharmed w (update r f w) a.
Proof. intros H. by apply life_kept_unharmed, life_kept_update. Qed.

Lemma same_stage_relocated self dx dy w : same_stage w (relocated self dx dy w).
Proof. by apply same_stage_update. Qed.

Lemma unharmed_relocated self dx dy w a : unharmed w (relocated self dx dy w) a.
Proof. by apply unharmed_update. Qed.

Lemma same_stage_marks self occ w : same_stage w (marks self occ w).
Proof.
  unfold marks. destruct (cls (deref w self)); try apply same_stage_refl.
  destruct (isinstance_Monster _); [|apply same_stage_refl].
  eapply same_stage_trans; by apply same_stage_update.
Qed.

Lemma marks_deref self occ w a :
  deref (marks self occ w) a = deref w a ∨
  (a = occ ∧ isinstance_Monster (cls (deref w occ)) = true ∧
   deref (marks self occ w) a
   = with_stick_with (Some self) (with_stuck true (deref w a))).
Proof.
  unfold marks. destruct (cls (deref w self)); try by left.
  destruct (isinstance_Monster _) eqn:E; [|by left].
  destruct (decide (a = occ)) as [->|]; [right | left]; by upd.
Qed.

Lemma stays_marks self occ w a : stays w (marks self occ w) a.
Proof.
  unfold stays, get_position.
  destruct (marks_deref self occ w a) as [->|(_&_&->)]; done.
Qed.

Lemma unharmed_marks self occ w a : unharmed w (marks self occ w) a.
Proof.
  left. destruct (marks_deref self occ w a) as [->|(_&_&->)]; done.
Qed.

Lemma Moved_frame self other dx dy w r w' :
  Moved self other dx dy w r w' →
  same_stage w w' ∧ ∀ a, unharmed w w' a.
Proof.
  induction 1 as
    [self other dx dy w Hc | self other dx dy w Hc | self other dx dy w Hc
    | self other dx dy w r w' Hm Hf Hmv
    | self other dx dy w Hp Hb | self other dx dy w Hp Hb Hg
    | self other dx dy w occ w1 Hb Hg Ha Hrec IH
    | self other dx dy w occ r1 w1 Hb Hg Ha Hrec IH Hr
    | self other dx dy w occ Hc Hb Hg Ho
    | self other dx dy w occ Hc Hb Hg Ho
    | self other dx dy w occ Hc Hb Hg Ho].
  - split; [apply same_stage_relocated | intros; apply unharmed_relocated].
  - split; [apply same_stage_refl | intros; apply unharmed_refl].
  - split; [apply same_stage_refl | intros; apply unharmed_refl].
  - apply Monster_move_spec in Hmv as (Hs & _ & Hl & _).
    split; [done | intros; by apply life_kept_unharmed].
  - split; [apply same_stage_refl | intros; apply unharmed_refl].
  - split; [apply same_stage_relocated | intros; apply unharmed_relocated].
  - destruct IH as [Hs Hl].
    assert (Hs1 : same_stage w w1).
    { eapply same_stage_trans; [apply same_stage_marks | done]. }
    split.
    + eapply same_stage_trans; [exact Hs1 | apply same_stage_relocated].
    + intros a. eapply unharmed_trans; [exact Hs1 | | apply unharmed_relocated].
      eapply unharmed_trans;
        [apply same_stage_marks | apply unharmed_marks | apply Hl].
  - destruct IH as [Hs Hl].
    split; [eapply same_stage_trans; [apply same_stage_marks | done]|].
    intros a. eapply unharmed_trans;
      [apply same_stage_marks | apply unharmed_marks | apply Hl].
  - split; [by apply same_stage_update|]. intros a.
    apply life_kept_unharmed, life_kept_kill. by rewrite Hc.
  - assert (Hs1 : same_stage w (update occ (with_life 0) w))
      by by apply same_stage_update.
    split; [eapply same_stage_trans; [exact Hs1 | apply same_stage_relocated]|].
    intros a. eapply unharmed_trans; [exact Hs1 | | apply unharmed_relocated].
    unfold unharmed. rewrite deref_update.
    case_decide; subst; [right | left]; [|done].
    split; [done|]. right. by rewrite Ho.
  - split; [apply same_stage_relocated | intros; apply unharmed_relocated].
Qed.

Lemma move_frame fuel self other dx dy w r w' :
  move fuel self other dx dy w = Ok r w' →
  same_stage w w' ∧ ∀ a, unharmed w w' a.
Proof. intros H. eapply Moved_frame, move_Moved, H. Qed.

(** ** The steps of the monsters *)

Lemma Monster_step_unfold self w :
  Monster_step self w
  = (call _, w1 <- (if Actor_is_dead self w then remove_actor self w
                    else Ok PyNone w);
     call stop, w3 <-
       stuck_check self
         (if is_trapped self w1
          then update self (fun a => with_life (life a - 1) a) w1
          else update self (with_life 5) w1);
     if stop : bool then Ok PyNone w3 else delayed_move self w3).
Proof. reflexivity. Qed.

Lemma ExplodingMonster_step_unfold self w :
  ExplodingMonster_step self w
  = (call _, w3 <-
       (let w2 := update self (fun a => with_life (life a - 1) a)
                    (if is_trapped self w
                     then update self (fun a => with_life (life a - 1) a) w
                     else w) in
        if Actor_is_dead self w2
        then call _, wa <- remove_actor self w2; explode self wa
        else Ok PyNone w2);
     delayed_move self w3).
Proof. reflexivity. Qed.

Lemma delayed_move_spec self w r w' :
  delayed_move self w = Ok r w' →
  same_stage w w' ∧
  (∀ a, a ≠ self → stays w w' a) ∧
  (∀ a, life_kept w w' a) ∧
  (stays w w' self ∨
   ∃ cx cy, get_position w' self = (cx, cy) ∧ get_actor w cx cy = None).
Proof.
  unfold delayed_move. destruct (delay self w) as [go w4| |] eqn:Ed;
    simpl; try discriminate.
  apply delay_spec in Ed as [Hd ->].
  set (w4 := update self _ w).
  assert (Hs4 : same_stage w w4) by by apply same_stage_update.
  assert (Hp4 : ∀ a, stays w w4 a) by (intros; by apply stays_update).
  assert (Hl4 : ∀ a, life_kept w w4 a) by (intros; by apply life_kept_update).
  destruct go; simpl.
  2:{ intros [= <- <-]. split; [done|]. split; [auto|]. split; [done|].
      by left. }
  destruct (Monster_move _ _ _ _ _) as [r5 w5| |] eqn:Em;
    simpl; try discriminate.
  intros [= <- <-].
  apply Monster_move_spec in Em as (Hs5 & Hp5 & Hl5 & Hself).
  split; [by eapply same_stage_trans|].
  split; [intros a Ha; eapply stays_trans; [apply Hp4 | by apply Hp5]|].
  split; [intros a; by eapply life_kept_trans|].
  destruct Hself as [[_ Hst]|(_ & _ & Hsh & _ & Hg)].
  - left. eapply stays_trans; [apply Hp4 | done].
  - right. eexists _, _. split; [exact Hsh|].
    rewrite <- Hg. symmetry. by apply get_actor_stays.
Qed.

Lemma delayed_move_returns self w :
  _delay (deref w self) ≠ 0 → ∃ r w', delayed_move self w = Ok r w'.
Proof.
  intros Hd. unfold delayed_move.
  destruct (delay_returns self w Hd) as (go & w4 & ->). simpl.
  destruct go; simpl; [|eauto].
  destruct (Monster_move_returns self self (_dx (deref w4 self))
              (_dy (deref w4 self)) w4) as (r & w5 & ->).
  simpl. eauto.
Qed.

(** ** Deciding the side conditions on a given world *)

Lemma refs_allocated_Forall w :
  Forall (fun r => (r < next_ref w)%nat) (_actors w) → refs_allocated w.
Proof. intros H r Hr. by eapply Forall_forall in H. Qed.

Ltac decide_now := refine (bool_decide_unpack _ _); vm_compute; exact I.

Ltac refute_now :=
  let H := fresh in
  intros H; apply (bool_decide_pack _) in H; vm_compute in H; exact H.
(** ** The player and the monsters it can walk onto *)

Section WalkOn.
Variables (w : World) (self m : ref) (dx dy : Z).
Hypothesis self_player : cls (deref w self) = C_KeyboardPlayer.
Hypothesis target_in_bounds :
  is_in_bounds w (_x (deref w self) + dx) (_y (deref w self) + dy) = true.
Hypothesis target_occupant :
  get_actor w (_x (deref w self) + dx) (_y (deref w self) + dy) = Some m.
Hypothesis occupant_monster : isinstance_Monster (cls (deref w m)) = true.
Hypothesis not_normal : isinstance_NormalMonster (cls (deref w m)) = false.
Hypothesis not_ez : isinstance_EzMonster (cls (deref w m)) = false.
Hypothesis not_flame : isinstance_Flame (cls (deref w m)) = false.

Lemma walk_on_any_dispatch mv :
  KeyboardPlayer_move mv self self dx dy w
  = Ok PyTrue (relocated self dx dy w).
Proof.
  unfold KeyboardPlayer_move.
  rewrite target_in_bounds, target_occupant, occupant_monster, not_normal,
    not_ez, not_flame. reflexivity.
Qed.

Lemma walk_on_distinct : m ≠ self.
Proof.
  intros ->. rewrite self_player in occupant_monster. discriminate.
Qed.
End WalkOn.

(** C10.  A KeyboardPlayer asked by itself to move onto an in-bounds cell
    whose occupant is a Monster that is neither a NormalMonster, an EzMonster
    nor a Flame (an ExplodingMonster) relocates there and returns [True]:
    whatever the occupant's own [move] would do, it is not called; the
    occupant stays on the cell, and no actor's life changes. *)
Theorem C10_player_walks_onto_exploding_monster
    (w : World) (self m : ref) (dx dy : Z) :
  cls (deref w self) = C_KeyboardPlayer →
  is_in_bounds w (_x (deref w self) + dx) (_y (deref w self) + dy) = true →
  get_actor w (_x (deref w self) + dx) (_y (deref w self) + dy) = Some m →
  isinstance_Monster (cls (deref w m)) = true →
  isinstance_NormalMonster (cls (deref w m)) = false →
  isinstance_EzMonster (cls (deref w m)) = false →
  isinstance_Flame (cls (deref w m)) = false →
  let w' := set_position self (_x (deref w self) + dx)
                         (_y (deref w self) + dy) w in
  (∀ fuel, move (S fuel) self self dx dy w = Ok PyTrue w') ∧
  (∀ mv, KeyboardPlayer_move mv self self dx dy w = Ok PyTrue w') ∧
  get_position w' self = (_x (deref w self) + dx, _y (deref w self) + dy) ∧
  get_actor w' (_x (deref w self) + dx) (_y (deref w self) + dy) ≠ None ∧
  deref w' m = deref w m ∧
  get_position w' m = get_position w' self ∧
  (∀ r, life (deref w' r) = life (deref w r)).
Proof.
  intros Hc Hb Hg Hm Hn He Hf w'.
  assert (Hne : m ≠ self) by (eapply walk_on_distinct; eauto).
  assert (Hm' : deref w' m = deref w m).
  { unfold w', set_position. by rewrite deref_update_ne. }
  assert (Hs' : get_position w' self
                = (_x (deref w self) + dx, _y (deref w self) + dy)).
  { unfold w', set_position, get_position. by rewrite deref_update_eq. }
  split; [|split; [|split; [|split; [|split; [|split]]]]].
  - intros fuel. simpl. rewrite Hc. by apply walk_on_any_dispatch with (m := m).
  - intros mv. by apply walk_on_any_dispatch with (m := m).
  - exact Hs'.
  - apply get_actor_Some in Hg as [Hin Hp].
    apply (get_actor_occupied w' _ _ m); [exact Hin|].
    unfold get_position. by rewrite Hm'.
  - exact Hm'.
  - apply get_actor_Some in Hg as [_ Hp].
    rewrite Hs'. unfold get_position. by rewrite Hm'.
  - intros r. unfold w', set_position. rewrite deref_update.
    case_decide; subst; reflexivity.
Qed.

Lemma C10_witness :
  move 1 0%nat 0%nat 1 0 Scenario.beside_bomb
  = Ok PyTrue (set_position 0%nat 1 0 Scenario.beside_bomb).
Proof.
  exact (proj1 (C10_player_walks_onto_exploding_monster
                  Scenario.beside_bomb 0%nat 1%nat 1 0
                  eq_refl eq_refl eq_refl eq_refl eq_refl eq_refl eq_refl)
               0%nat).
Defined.

(** ** Trapped monsters *)

Lemma is_trapped_own_cell self w :
  is_trapped self w
  = blocked w (_x (deref w self)) (_y (deref w self))
    && blocked_around self w.
Proof.
  unfold is_trapped, blocked_around, block3, neighbours. simpl.
  rewrite !andb_true_r.
  repeat match goal with
         | |- context [blocked w ?a ?b] =>
             generalize (blocked w a b); intros ?
         end.
  repeat match goal with b : bool |- _ => destruct b end; reflexivity.
Qed.

(** On a cell with at most one registered actor, "occupied by a Box or a
    Monster" is what the source tests on the first actor found there. *)
Lemma holds_box_or_monster_first w cx cy :
  (crowd_at w cx cy ≤ 1)%nat →
  holds_box_or_monster w cx cy
  = match get_actor w cx cy with
    | Some r => isinstance_Box (cls (deref w r))
                || isinstance_Monster (cls (deref w r))
    | None => false
    end.
Proof.
  unfold holds_box_or_monster, crowd_at, get_actor.
  induction (_actors w) as [|a l IH]; simpl; [done|].
  destruct (at_cell w cx cy a) eqn:Ea; simpl; [|exact IH].
  intros Hl.
  assert (Hnone : List.filter (at_cell w cx cy) l = [])
    by (destruct (List.filter _ l); [done | simpl in Hl; lia]).
  replace (existsb _ l) with false; [by rewrite orb_false_r|].
  symmetry. clear -Hnone.
  induction l as [|b l IHl]; simpl in *; [done|].
  destruct (at_cell w cx cy b); [discriminate|]. simpl. auto.
Qed.

Lemma hemmed_in_uncrowded self w :
  uncrowded self w = true → hemmed_in self w = blocked_around self w.
Proof.
  unfold uncrowded, hemmed_in, blocked_around.
  induction (neighbours _ _) as [|c cells IH]; simpl; [done|].
  intros [Hc Hcells]%andb_true_iff. apply Nat.leb_le in Hc.
  rewrite IH by done. f_equal. unfold blocked.
  rewrite holds_box_or_monster_first by done. apply orb_comm.
Qed.

Lemma blocked_by_self self w :
  get_actor w (_x (deref w self)) (_y (deref w self)) = Some self →
  isinstance_Monster (cls (deref w self)) = true →
  blocked w (_x (deref w self)) (_y (deref w self)) = true.
Proof.
  intros Hg Hm. unfold blocked. rewrite Hg, Hm. by rewrite orb_true_r.
Qed.

(** Classes whose [step] is [Monster.step]. *)
Lemma step_Monster fuel self w :
  cls (deref w self) = C_Monster ∨ cls (deref w self) = C_NormalMonster ∨
  cls (deref w self) = C_EzMonster →
  step fuel self w = Monster_step self w ∧
  isinstance_Monster (cls (deref w self)) = true ∧
  isinstance_KeyboardPlayer (cls (deref w self)) = false.
Proof. unfold step. by intros [->|[->| ->]]. Qed.

(** C7 (amended).  On a tick where a base Monster is alive at the start of
    its step, is the actor the stage finds on the monster's own cell, and
    none of its 8 neighbouring cells holds more than one registered actor
    (and the step can complete: a non-zero delay, a stick position if it is
    stuck): if all 8 neighbouring cells are out of bounds or occupied by a
    Box or a Monster it loses exactly 1 life, otherwise its life is set to
    5. *)
Theorem C7_monster_life_rule (fuel : nat) (w : World) (self : ref) :
  cls (deref w self) = C_Monster ∨ cls (deref w self) = C_NormalMonster ∨
  cls (deref w self) = C_EzMonster →
  life (deref w self) ≠ 0 →
  get_actor w (_x (deref w self)) (_y (deref w self)) = Some self →
  uncrowded self w = true →
  (stuck (deref w self) = true → stick_position (deref w self) ≠ None) →
  _delay (deref w self) ≠ 0 →
  ∃ r w', step fuel self w = Ok r w' ∧
          life (deref w' self)
          = if hemmed_in self w then life (deref w self) - 1 else 5.
Proof.
  intros Hc Hl Hg Hu Hs Hd.
  destruct (step_Monster fuel self w Hc) as (-> & Hm & Hk).
  unfold Monster_step, Actor_is_dead.
  apply Z.eqb_neq in Hl. rewrite Hl. simpl.
  rewrite is_trapped_own_cell, blocked_by_self by done. simpl.
  rewrite <- hemmed_in_uncrowded by done.
  set (w2 := if hemmed_in self w
             then update self (fun a => with_life (life a - 1) a) w
             else update self (with_life 5) w).
  assert (Hw2 : deref w2 self
                = with_life (if hemmed_in self w
                             then life (deref w self) - 1 else 5)
                            (deref w self)).
  { unfold w2. destruct (hemmed_in self w); by upd. }
  assert (Hc2 : cls (deref w2 self) = cls (deref w self)) by by rewrite Hw2.
  destruct (stuck_check_returns self w2) as (b & w3 & E3).
  { by rewrite Hw2. }
  rewrite E3. simpl.
  apply stuck_check_spec in E3 as ((_&_&_&_&_&Hc3) & _ & Hl3 & Hd3 & _).
  destruct b.
  { eexists _, _. split; [done|]. by rewrite Hl3, Hw2. }
  destruct (delay_returns self w3) as (go & w4 & E4).
  { by rewrite Hd3, Hw2. }
  rewrite E4. simpl.
  apply delay_spec in E4 as [_ ->].
  destruct go; simpl.
  2:{ eexists _, _. split; [done|]. upd. by rewrite Hl3, Hw2. }
  match goal with
  | |- context [Monster_move ?s ?o ?a ?b ?v] =>
      destruct (Monster_move_returns s o a b v) as (r & w5 & E5);
      pose proof (Monster_move_spec _ _ _ _ _ _ _ E5) as (_ & _ & Hk5 & _)
  end.
  rewrite E5. simpl. eexists _, _. split; [done|].
  destruct (Hk5 self) as [->|[Hbad _]].
  - upd. by rewrite Hl3, Hw2.
  - revert Hbad. upd. rewrite Hc3, Hc2, Hk. discriminate.
Qed.

Lemma C7_witness :
  ∃ r w', step 0 0%nat Scenario.boxed_in_normal = Ok r w' ∧
          life (deref w' 0%nat)
          = if hemmed_in 0%nat Scenario.boxed_in_normal
            then life (deref Scenario.boxed_in_normal 0%nat) - 1 else 5.
Proof.
  apply (C7_monster_life_rule 0 Scenario.boxed_in_normal 0%nat).
  - right; left; reflexivity.
  - vm_compute. discriminate.
  - reflexivity.
  - vm_compute. reflexivity.
  - vm_compute. discriminate.
  - vm_compute. discriminate.
Defined.

(** Two stages on which the rule fails as the specification words it.
    After five ticks the boxed-in NormalMonster has life 0 and all its 8
    neighbours still hold boxes; its next step removes it and then sets its
    life to 5 instead of taking 1 away.  And once the player has walked
    onto the ExplodingMonster next to a live NormalMonster, that cell is
    still occupied by a Monster, as are the seven others by boxes, but the
    stage finds the player there first: the monster's life is set to 5. *)
Lemma C7_counterexample :
  (let w := Scenario.after_ticks 5 Scenario.boxed_in_normal in
   cls (deref w 0%nat) = C_NormalMonster ∧
   get_actor w 1 1 = Some 0%nat ∧
   hemmed_in 0%nat w = true ∧
   life (deref w 0%nat) = 0 ∧
   after (step 10 0%nat w)
     (fun _ w' => life (deref w' 0%nat) = 5 ∧
                  life (deref w' 0%nat) ≠ life (deref w 0%nat) - 1)) ∧
  (let w := Scenario.crowd in
   one_per_cell Scenario.crowd_start ∧
   step 10 0%nat Scenario.crowd_start = Ok PyNone w ∧
   cls (deref w 1%nat) = C_NormalMonster ∧
   get_actor w 1 1 = Some 1%nat ∧
   life (deref w 1%nat) = 5 ∧
   cls (deref w 2%nat) = C_ExplodingMonster ∧
   2%nat ∈ _actors w ∧ get_position w 2%nat = (2, 1) ∧
   get_actor w 2 1 = Some 0%nat ∧
   hemmed_in 1%nat w = true ∧
   is_trapped 1%nat w = false ∧
   after (step 10 1%nat w)
     (fun _ w' => life (deref w' 1%nat) = 5 ∧
                  life (deref w' 1%nat) ≠ life (deref w 1%nat) - 1)).
Proof.
  split.
  - vm_compute. repeat split; try reflexivity. discriminate.
  - cbv zeta. split; [decide_now|]. split; [vm_compute; reflexivity|].
    split; [vm_compute; reflexivity|]. split; [vm_compute; reflexivity|].
    split; [vm_compute; reflexivity|]. split; [vm_compute; reflexivity|].
    split; [decide_now|]. split; [vm_compute; reflexivity|].
    split; [vm_compute; reflexivity|]. split; [vm_compute; reflexivity|].
    split; [vm_compute; reflexivity|].
    vm_compute. split; [reflexivity | discriminate].
Qed.

(** ** What a step does to the other actors *)

Lemma KeyboardPlayer_step_unfold fuel self w :
  KeyboardPlayer_step fuel self w
  = (call _, w1 <- pending_move fuel self w;
     let (d, w2) := KeyboardPlayer_is_dead self w1 in
     if d then remove_actor self w2 else Ok PyNone w2).
Proof. reflexivity. Qed.

Lemma pending_move_frame fuel self w v w1 :
  cls (deref w self) = C_KeyboardPlayer →
  pending_move fuel self w = Ok v w1 →
  same_stage w w1 ∧ ∀ a, unharmed w w1 a.
Proof.
  intros Hc. unfold pending_move.
  destruct (_last_event (deref w self)) as [k|];
    [|intros [= <- <-]; split; [apply same_stage_refl | intros; by left]].
  destruct (key_direction k) as [[dx dy]|]; simpl.
  - destruct (KeyboardPlayer_move _ _ _ _ _ _) as [v' wa| |] eqn:Em;
      simpl; try discriminate.
    intros [= <- <-].
    assert (Hm : move (S fuel) self self dx dy w = Ok v' wa)
      by (simpl; by rewrite Hc).
    apply move_frame in Hm as [Hs Hu].
    split; [eapply same_stage_trans; [done | by apply same_stage_update]|].
    intros a. eapply unharmed_trans; [done | apply Hu|].
    by apply unharmed_update.
  - intros [= <- <-]. split; [by apply same_stage_update|].
    intros a. by apply unharmed_update.
Qed.

Lemma KeyboardPlayer_is_dead_frame self w :
  same_stage w (KeyboardPlayer_is_dead self w).2 ∧
  ∀ a, life (deref (KeyboardPlayer_is_dead self w).2 a) = life (deref w a).
Proof.
  unfold KeyboardPlayer_is_dead.
  destruct (_ && _); simpl.
  - split; [by apply same_stage_update|]. intros a. rewrite deref_update.
    case_decide; subst; done.
  - destruct (_ =? _); simpl; split; try apply same_stage_refl; done.
Qed.

Lemma Monster_step_frame a w r w' :
  Monster_step a w = Ok r w' →
  next_ref w' = next_ref w ∧
  ∀ b, b ≠ a → cls (deref w' b) = cls (deref w b) ∧ life_kept w w' b.
Proof.
  rewrite Monster_step_unfold.
  set (first := if Actor_is_dead a w then _ else _).
  assert (Hfirst : ∀ v w1, first = Ok v w1 →
            next_ref w1 = next_ref w ∧ deref w1 = deref w).
  { unfold first. intros v w1.
    destruct (Actor_is_dead a w);
      [intros (_ & _ & ->)%remove_actor_spec | intros [= <- <-]]; done. }
  destruct first as [v w1| |]; simpl; try discriminate.
  destruct (Hfirst _ _ eq_refl) as [Hn1 Hd1]. clear Hfirst.
  set (w2 := if is_trapped a w1 then _ else _).
  assert (Hw2 : next_ref w2 = next_ref w1 ∧
                ∀ b, b ≠ a → deref w2 b = deref w1 b).
  { unfold w2. destruct (is_trapped a w1);
      (split; [done | intros b Hb; by upd]). }
  destruct Hw2 as [Hn2 Hd2]. clearbody w2.
  destruct (stuck_check a w2) as [stop w3| |] eqn:E3; simpl; try discriminate.
  apply stuck_check_spec in E3 as ((_&_&_&Hn3&_&Hc3) & _ & Hl3 & _).
  assert (Hgoal : ∀ w4, next_ref w4 = next_ref w3 →
            (∀ b, cls (deref w4 b) = cls (deref w3 b)) →
            (∀ b, life_kept w3 w4 b) →
            next_ref w4 = next_ref w ∧
            ∀ b, b ≠ a → cls (deref w4 b) = cls (deref w b) ∧ life_kept w w4 b).
  { intros w4 Hn4 Hc4 Hl4. split; [congruence|]. intros b Hb.
    specialize (Hl4 b). unfold life_kept in *.
    rewrite Hc3, Hl3, Hd2, Hd1 in Hl4 by done.
    split; [|done]. by rewrite Hc4, Hc3, Hd2, Hd1. }
  destruct stop.
  - intros [= <- <-]. apply Hgoal; [done | done | intros; by left].
  - intros ((_&_&_&Hn4&_&Hc4) & _ & Hl4 & _)%delayed_move_spec.
    by apply Hgoal.
Qed.

Lemma ExplodingMonster_step_frame a w r w' :
  ExplodingMonster_step a w = Ok r w' →
  (next_ref w ≤ next_ref w')%nat ∧
  (∀ b, (b < next_ref w)%nat → cls (deref w' b) = cls (deref w b)) ∧
  (∀ b, b ≠ a → (b < next_ref w)%nat → life_kept w w' b) ∧
  ((a < next_ref w)%nat →
   isinstance_KeyboardPlayer (cls (deref w a)) = false →
   life (deref w' a)
   = life (deref w a) - (if is_trapped a w then 2 else 1)).
Proof.
  rewrite ExplodingMonster_step_unfold. cbv zeta.
  set (w2 := update a _ _).
  assert (Hw2 : next_ref w2 = next_ref w ∧
                (∀ b, b ≠ a → deref w2 b = deref w b) ∧
                cls (deref w2 a) = cls (deref w a) ∧
                life (deref w2 a)
                = life (deref w a) - (if is_trapped a w then 2 else 1)).
  { unfold w2. destruct (is_trapped a w).
    - split; [done|]. split; [intros b Hb; by upd|]. upd. split; [done|lia].
    - split; [done|]. split; [intros b Hb; by upd|]. by upd. }
  destruct Hw2 as (Hn2 & Hd2 & Hc2 & Hl2). clearbody w2.
  set (mid := if Actor_is_dead a w2 then _ else _).
  assert (Hmid : ∀ v w3, mid = Ok v w3 →
            (next_ref w2 ≤ next_ref w3)%nat ∧
            ∀ b, (b < next_ref w2)%nat →
                 deref w3 b = deref w2 b ∨
                 (isinstance_KeyboardPlayer (cls (deref w2 b)) = true ∧
                  deref w3 b = with_life 0 (deref w2 b))).
  { unfold mid. intros v w3. destruct (Actor_is_dead a w2).
    - destruct (remove_actor a w2) as [v' wa| |] eqn:Er;
        simpl; try discriminate.
      apply remove_actor_spec in Er as (_ & _ & ->).
      destruct (explode_grows a (with_actors (remove_first a (_actors w2)) w2))
        as (w3' & -> & (_&_&_&Hn&_&Ho) & _). intros [= _ <-].
      split; [done | exact Ho].
    - intros [= <- <-]. split; [done | intros; by left]. }
  destruct mid as [v w3| |]; simpl; try discriminate.
  destruct (Hmid _ _ eq_refl) as [Hn3 Ho3]. clear Hmid.
  intros ((_&_&_&Hn4&_&Hc4) & _ & Hl4 & _)%delayed_move_spec.
  assert (Hcls : ∀ b, (b < next_ref w)%nat → cls (deref w3 b) = cls (deref w b)).
  { intros b Hb. destruct (Ho3 b) as [->|[_ ->]]; [lia| |];
      (destruct (decide (b = a)) as [->|]; [done | by rewrite Hd2]). }
  split; [lia|]. split; [intros b Hb; rewrite Hc4; auto|]. split.
  - intros b Hne Hb. specialize (Hl4 b). unfold life_kept in *.
    destruct (Ho3 b) as [E|[Hk E]]; [lia| |]; rewrite E in Hl4;
      rewrite Hd2 in * by done; simpl in *.
    + done.
    + right. split; [done|]. destruct Hl4 as [->|[_ ->]]; done.
  - intros Ha Hk. specialize (Hl4 a). unfold life_kept in Hl4.
    rewrite Hcls, Hk in Hl4 by done.
    destruct Hl4 as [->|[? _]]; [|done].
    destruct (Ho3 a) as [->|[Hk' _]]; [lia | done |].
    rewrite Hc2, Hk in Hk'. done.
Qed.

(** A step changes neither the class nor, players and EzMonsters apart, the
    life of the objects that exist when it starts, the stepping actor's own
    excepted. *)
Lemma step_frame fuel a w r w' :
  step fuel a w = Ok r w' →
  (next_ref w ≤ next_ref w')%nat ∧
  ∀ b, b ≠ a → (b < next_ref w)%nat →
       cls (deref w' b) = cls (deref w b) ∧ unharmed w w' b.
Proof.
  unfold step. destruct (cls (deref w a)) eqn:Ec.
  1,2,4,5,6:
    unfold Actor_step; destruct (Actor_is_dead a w);
    [intros (_ & _ & ->)%remove_actor_spec | intros [= <- <-]];
    (split; [done|]; intros b _ _; split; [done | by left]).
  - (* the player *)
    rewrite KeyboardPlayer_step_unfold.
    destruct (pending_move fuel a w) as [v w1| |] eqn:E1;
      simpl; try discriminate.
    apply pending_move_frame in E1 as [Hs1 Hu1]; [|done].
    destruct (KeyboardPlayer_is_dead_frame a w1) as [Hs2 Hl2].
    destruct (KeyboardPlayer_is_dead a w1) as [d w2]. simpl in *.
    assert (Hs : same_stage w w2) by by eapply same_stage_trans.
    intros H.
    assert (deref w' = deref w2 ∧ next_ref w' = next_ref w2) as [Hd Hn].
    { destruct d; [apply remove_actor_spec in H as (_ & _ & ->)
                  | injection H as <- <-]; done. }
    destruct Hs as (_&_&_&Hnx&_&Hc). split; [lia|].
    intros b _ _. unfold unharmed. rewrite !Hd, Hl2.
    split; [apply Hc | apply Hu1].
  - intros [Hn Hb]%Monster_step_frame. split; [lia|].
    intros b Hne _. destruct (Hb b Hne). auto using life_kept_unharmed.
  - intros [Hn Hb]%Monster_step_frame. split; [lia|].
    intros b Hne _. destruct (Hb b Hne). auto using life_kept_unharmed.
  - intros [Hn Hb]%Monster_step_frame. split; [lia|].
    intros b Hne _. destruct (Hb b Hne). auto using life_kept_unharmed.
  - intros (Hn & Hc & Hl & _)%ExplodingMonster_step_frame. split; [done|].
    intros b Hne Hb. auto using life_kept_unharmed.
  - unfold Flame_step. set (w1 := update a _ w).
    intros H.
    assert (deref w' = deref w1 ∧ next_ref w' = next_ref w1) as [Hd Hn].
    { destruct (Actor_is_dead a w1);
        [apply remove_actor_spec in H as (_ & _ & ->)
        | injection H as <- <-]; done. }
    split; [by rewrite Hn|]. intros b Hne _. unfold unharmed.
    rewrite !Hd. unfold w1. upd. auto.
Qed.

(** ** The fuse of an ExplodingMonster *)

Lemma own_steps_run fuel self t n w w' :
  own_steps fuel self t n w = Some w' →
  game_run fuel self (replicate n t) w w'.
Proof.
  revert w. induction n as [|n IH]; intros w; simpl.
  - intros [= <-]. constructor.
  - destruct (Bool.eqb (is_trapped self w) t) eqn:Et; [|discriminate].
    apply Bool.eqb_prop in Et.
    destruct (step fuel self w) as [r w1| |] eqn:Es; try discriminate.
    intros H. rewrite <- Et. eapply run_self; eauto.
    rewrite Et. by apply IH.
Qed.

Lemma game_run_app fuel self ts1 ts2 w1 w2 w3 :
  game_run fuel self ts1 w1 w2 → game_run fuel self ts2 w2 w3 →
  game_run fuel self (ts1 ++ ts2) w1 w3.
Proof.
  induction 1; intros H2; simpl; eauto using game_run.
Qed.

(** The steps of a tick form a run. *)
Lemma Stage_step_from_run fuel self loops :
  ∀ i w visits w',
    Stage_step_from fuel loops i w = Ok visits w' →
    ∃ ts, game_run fuel self ts w w'.
Proof.
  induction loops as [|n IH]; intros i w visits w'; simpl; [discriminate|].
  destruct (_actors w !! i) as [a|];
    [|intros [= <- <-]; exists []; constructor].
  destruct (step fuel a w) as [r w1| |] eqn:Es; simpl; try discriminate.
  destruct (Stage_step_from fuel n (S i) w1) as [rest w2| |] eqn:Er;
    simpl; try discriminate.
  intros [= <- <-]. destruct (IH _ _ _ _ Er) as (ts & Hrun).
  destruct (decide (a = self)) as [->|Hne].
  - eexists. eapply run_self; eauto.
  - exists ts. eapply run_other; eauto.
Qed.

Lemma ticks_run fuel self n :
  ∀ w v w', ticks fuel n w = Ok v w' → ∃ ts, game_run fuel self ts w w'.
Proof.
  induction n as [|n IH]; intros w v w'; simpl.
  - intros [= <- <-]. exists []. constructor.
  - destruct (Stage_step fuel w) as [visits w1| |] eqn:Es;
      simpl; try discriminate.
    intros (ts2 & H2)%IH.
    apply (Stage_step_from_run fuel self) in Es as (ts1 & H1).
    exists (ts1 ++ ts2). by eapply game_run_app.
Qed.

Lemma game_run_life fuel self ts w w' :
  game_run fuel self ts w w' →
  cls (deref w self) = C_ExplodingMonster → (self < next_ref w)%nat →
  life (deref w' self) = life (deref w self) - burnt ts.
Proof.
  induction 1 as [w | ts w a r w1 w' Hne Hs Hrun IH
                 | ts w key r w1 w' Hk Hrun IH
                 | ts w r w1 w' Hs Hrun IH]; intros Hc Hn.
  - simpl. lia.
  - apply step_frame in Hs as [Hn1 Hb].
    destruct (Hb self) as [Hc1 Hl1]; [done | done |].
    rewrite IH by (first [congruence | lia]).
    destruct Hl1 as [->|[_ [Hk|Hk]]]; [done | |]; by rewrite Hc in Hk.
  - unfold player_event in Hk. destruct (_player w) as [p|]; [|discriminate].
    assert (Hk' : Ok PyNone (handle_event p key w) = Ok r w1)
      by (destruct (cls (deref w p)); done).
    clear Hk. injection Hk' as <- <-.
    assert (Hp : deref (handle_event p key w) self
                 = deref w self ∨
                 deref (handle_event p key w) self
                 = with_last_event (Some key) (deref w self)).
    { unfold handle_event. destruct (cls (deref w p)); try by left.
      rewrite deref_update. case_decide; subst; [by right | by left]. }
    assert (Hn' : next_ref (handle_event p key w) = next_ref w).
    { unfold handle_event. by destruct (cls (deref w p)). }
    rewrite IH; [| |lia].
    + destruct Hp as [->| ->]; done.
    + destruct Hp as [->| ->]; done.
  - unfold step in Hs. rewrite Hc in Hs.
    apply ExplodingMonster_step_frame in Hs as (Hn1 & Hc1 & _ & Hl1).
    rewrite IH; [| rewrite Hc1; done | lia].
    rewrite Hl1 by (first [done | by rewrite Hc]). simpl. lia.
Qed.

Lemma burnt_replicate n t :
  burnt (replicate n t) = (if t then 2 else 1) * Z.of_nat n.
Proof. induction n as [|n IH]; simpl; [lia|]. rewrite IH. lia. Qed.

Lemma all_equal_replicate (t : bool) ts :
  Forall (eq t) ts → ts = replicate (length ts) t.
Proof. induction 1 as [|x ts <- _ IH]; simpl; [done | by rewrite <- IH]. Qed.

(** C4 (amended).  An ExplodingMonster built with [exploding_delay = 20]
    starts with life 30.  Counted in its own steps, and whatever the other
    actors and the player do in between, each step takes 1 life from it, and
    1 more if [is_trapped] answers true when the step starts.  So if
    [is_trapped] answers false at each of its steps it loses 1 life per
    step, and [is_dead] answers true after exactly 30 steps of its own, not
    before and not after; it is when [is_trapped] answers true at each step
    that it loses 2 life per step and is dead after exactly 15.  ([game_run]
    counts the steps of the monster, not the ticks of the stage, which can
    skip it.) *)
Theorem C4_fuse_burns_one_per_free_step
    (fuel : nat) (w : World) (self : ref) (x y delay : Z) :
  deref w self = ExplodingMonster__init__ x y delay 20 →
  (self < next_ref w)%nat →
  life (deref w self) = 30 ∧
  (∀ ts w', game_run fuel self ts w w' →
            life (deref w' self) = 30 - burnt ts) ∧
  (∀ ts w', game_run fuel self ts w w' → Forall (eq false) ts →
            life (deref w' self) = 30 - Z.of_nat (length ts) ∧
            ((Actor_is_dead self w' = true) ↔ length ts = 30%nat)) ∧
  (∀ ts w', game_run fuel self ts w w' → Forall (eq true) ts →
            life (deref w' self) = 30 - 2 * Z.of_nat (length ts) ∧
            ((Actor_is_dead self w' = true) ↔ length ts = 15%nat)).
Proof.
  intros Hd Hn.
  assert (Hl : life (deref w self) = 30) by by rewrite Hd.
  assert (Hc : cls (deref w self) = C_ExplodingMonster) by by rewrite Hd.
  assert (Hlife : ∀ ts w', game_run fuel self ts w w' →
                    life (deref w' self) = 30 - burnt ts).
  { intros ts w' Hrun. rewrite <- Hl. by eapply game_run_life. }
  split; [done|]. split; [done|].
  split; intros ts w' Hrun Hall%all_equal_replicate;
    pose proof (Hlife _ _ Hrun) as E; rewrite Hall, burnt_replicate in E;
    unfold Actor_is_dead; rewrite E, Z.eqb_eq; (split; [lia | split; lia]).
Qed.

Lemma C4_witness :
  life (deref Scenario.fuse20 0%nat) = 30 ∧
  (∀ ts w', game_run 40 0%nat ts Scenario.fuse20 w' →
            life (deref w' 0%nat) = 30 - burnt ts) ∧
  (∀ ts w', game_run 40 0%nat ts Scenario.fuse20 w' → Forall (eq false) ts →
            life (deref w' 0%nat) = 30 - Z.of_nat (length ts) ∧
            ((Actor_is_dead 0%nat w' = true) ↔ length ts = 30%nat)) ∧
  (∀ ts w', game_run 40 0%nat ts Scenario.fuse20 w' → Forall (eq true) ts →
            life (deref w' 0%nat) = 30 - 2 * Z.of_nat (length ts) ∧
            ((Actor_is_dead 0%nat w' = true) ↔ length ts = 15%nat)).
Proof.
  apply (C4_fuse_burns_one_per_free_step 40 Scenario.fuse20 0%nat 7 4 1).
  - vm_compute. reflexivity.
  - vm_compute. lia.
Defined.

(** The runs spoken of exist: alone on the stage of the game script the
    monster is never trapped; its first 29 steps are those of 29 ticks, and
    the 30th removes it and leaves flames only. *)
Lemma fuse20_runs :
  game_run 40 0%nat (replicate 30 false) Scenario.fuse20
           (Scenario.after_own_steps 30 Scenario.fuse20) ∧
  Scenario.after_own_steps 29 Scenario.fuse20
  = Scenario.after_ticks 29 Scenario.fuse20 ∧
  0%nat ∈ _actors (Scenario.after_own_steps 29 Scenario.fuse20) ∧
  (0%nat ∉ _actors (Scenario.after_own_steps 30 Scenario.fuse20)) ∧
  Forall (fun r => cls (deref (Scenario.after_own_steps 30 Scenario.fuse20) r)
                   = C_Flame)
         (_actors (Scenario.after_own_steps 30 Scenario.fuse20)).
Proof.
  split; [apply own_steps_run; vm_compute; reflexivity|].
  split; [vm_compute; reflexivity|].
  split; [decide_now|]. split; decide_now.
Qed.

(** Fifteen ticks in which the monster is never trapped leave it with life
    15, alive and registered.  On the stage of the game script, with the
    boxes scattered away from the monsters, ticks are not even steps: the
    second ExplodingMonster is trapped at no tick, but at tick 30 the first
    one explodes and its removal makes [Stage.step] pass over the second,
    which is left registered with life 1 after 30 ticks and goes at tick
    31. *)
Lemma C4_counterexample :
  deref Scenario.fuse20 0%nat = ExplodingMonster__init__ 7 4 1 20 ∧
  game_run 40 0%nat (replicate 15 false) Scenario.fuse20
           (Scenario.after_ticks 15 Scenario.fuse20) ∧
  life (deref (Scenario.after_ticks 15 Scenario.fuse20) 0%nat) = 15 ∧
  Actor_is_dead 0%nat (Scenario.after_ticks 15 Scenario.fuse20) = false ∧
  0%nat ∈ _actors (Scenario.after_ticks 15 Scenario.fuse20) ∧
  deref Setup.ready 3%nat = ExplodingMonster__init__ 7 4 1 20 ∧
  forallb (fun k => negb (is_trapped 3%nat (Setup.played k))) (seq 0 31)
  = true ∧
  (2%nat ∉ _actors (Setup.played 30)) ∧
  3%nat ∈ _actors (Setup.played 30) ∧
  life (deref (Setup.played 30) 3%nat) = 1 ∧
  (3%nat ∉ _actors (Setup.played 31)).
Proof.
  split; [vm_compute; reflexivity|].
  split; [apply own_steps_run; vm_compute; reflexivity|].
  split; [vm_compute; reflexivity|].
  split; [vm_compute; reflexivity|]. split; [decide_now|].
  split; [vm_compute; reflexivity|]. split; [vm_compute; reflexivity|].
  split; [refute_now|]. split; [decide_now|].
  split; [vm_compute; reflexivity | refute_now].
Qed.

(** ** The shape of a push *)

Lemma stays_xy w w' a :
  stays w w' a ↔
  _x (deref w' a) = _x (deref w a) ∧ _y (deref w' a) = _y (deref w a).
Proof.
  unfold stays, get_position. split; [intros [= -> ->]; done | intros [-> ->]; done].
Qed.

Lemma shifted_xy dx dy w w' a :
  shifted dx dy w w' a ↔
  _x (deref w' a) = _x (deref w a) + dx ∧
  _y (deref w' a) = _y (deref w a) + dy.
Proof.
  unfold shifted, get_position.
  split; [intros [= -> ->]; done | intros [-> ->]; done].
Qed.

Lemma stays_not_shifted dx dy w w' a :
  dx ≠ 0 ∨ dy ≠ 0 → stays w w' a → shifted dx dy w w' a → False.
Proof. rewrite stays_xy, shifted_xy. lia. Qed.

Lemma relocated_self self dx dy w :
  shifted dx dy w (relocated self dx dy w) self.
Proof. unfold shifted, relocated, set_position, get_position. by upd. Qed.

Lemma relocated_other self dx dy w a :
  a ≠ self → deref (relocated self dx dy w) a = deref w a.
Proof. intros H. unfold relocated, set_position. by upd. Qed.

Lemma relocated_stays self dx dy w a :
  a ≠ self → stays w (relocated self dx dy w) a.
Proof. intros H. unfold stays, get_position. by rewrite relocated_other. Qed.

Lemma get_actor_marks self occ w x y :
  get_actor (marks self occ w) x y = get_actor w x y.
Proof.
  apply get_actor_stays; [apply same_stage_marks | apply stays_marks].
Qed.

Lemma cls_marks self occ w a : cls (deref (marks self occ w) a) = cls (deref w a).
Proof. by destruct (same_stage_marks self occ w) as (_&_&_&_&_&->). Qed.

Lemma xy_marks self occ w a :
  _x (deref (marks self occ w) a) = _x (deref w a) ∧
  _y (deref (marks self occ w) a) = _y (deref w a).
Proof. apply stays_xy, stays_marks. Qed.

Lemma dxy_marks self occ w a :
  _dx (deref (marks self occ w) a) = _dx (deref w a) ∧
  _dy (deref (marks self occ w) a) = _dy (deref w a).
Proof.
  destruct (marks_deref self occ w a) as [->|(_&_&->)]; done.
Qed.

Section Shape.
Variables dx dy : Z.
Hypothesis nonzero : dx ≠ 0 ∨ dy ≠ 0.

Lemma push_shape_still self other w r w' :
  r ≠ PyTrue → (∀ a, stays w w' a) → push_shape self other dx dy w r w'.
Proof.
  intros Hr Hs. split; try done.
  - intros a. by left.
  - intros _ a Ha. exfalso.
    exact (stays_not_shifted _ _ _ _ _ nonzero (Hs a) Ha).
Qed.

(** Only [self] has moved. *)
Lemma push_shape_single self other w w' :
  shifted dx dy w w' self → (∀ a, a ≠ self → stays w w' a) →
  (pusher (cls (deref w self)) = true ∨ proper self other dx dy w →
   is_in_bounds w (_x (deref w self) + dx) (_y (deref w self) + dy) = true ∧
   target_clear dx dy w w' self) →
  push_shape self other dx dy w PyTrue w'.
Proof.
  intros Hself Hothers Hclear. split; try done.
  - intros _ Hp. apply Hclear. by left.
  - intros a. destruct (decide (a = self)) as [->|]; [right | left]; auto.
  - intros Hp a Ha. destruct (decide (a = self)) as [->|Hne].
    + apply Hclear. by right.
    + exfalso.
      exact (stays_not_shifted _ _ _ _ _ nonzero (Hothers a Hne) Ha).
Qed.

(** The occupant has moved on, then [self] follows. *)
Lemma push_shape_follow self other w occ w1 :
  is_in_bounds w (_x (deref w self) + dx) (_y (deref w self) + dy) = true →
  get_actor w (_x (deref w self) + dx) (_y (deref w self) + dy) = Some occ →
  asks (cls (deref w self)) (cls (deref w occ)) = true →
  push_shape occ self dx dy (marks self occ w) PyTrue w1 →
  push_shape self other dx dy w PyTrue (relocated self dx dy w1).
Proof.
  intros Hb Hg Ha [_ IHself _ IHeach IHproper].
  specialize (IHself eq_refl).
  pose proof (get_actor_Some _ _ _ _ Hg) as [Hocc Hpos].
  injection Hpos as Hox Hoy.
  assert (Hne : occ ≠ self).
  { intros ->. destruct nonzero; lia. }
  (* places in [marks self occ w] are the places in [w] *)
  assert (Hst : ∀ a, stays (marks self occ w) w1 a → stays w w1 a).
  { intros a H. eapply stays_trans; [apply stays_marks | done]. }
  assert (Hsh : ∀ a, shifted dx dy (marks self occ w) w1 a ↔ shifted dx dy w w1 a).
  { intros a. rewrite !shifted_xy.
    destruct (xy_marks self occ w a) as [-> ->]. done. }
  assert (Hselfstays : stays w w1 self).
  { destruct (IHeach self) as [H|[H [E|(i & Hi & Ex & Ey)]]]; [auto | done |].
    exfalso. destruct (xy_marks self occ w self) as [Ex1 Ey1].
    destruct (xy_marks self occ w occ) as [Ex2 Ey2].
    rewrite Ex1, Ex2 in Ex. rewrite Ey1, Ey2 in Ey.
    destruct nonzero; nia. }
  assert (Hnew : shifted dx dy w (relocated self dx dy w1) self).
  { apply shifted_xy. apply stays_xy in Hselfstays as [Ex Ey].
    pose proof (relocated_self self dx dy w1) as [E1 E2]%shifted_xy.
    rewrite E1, E2, Ex, Ey. done. }
  assert (Hkeep : ∀ a, a ≠ self →
            (stays w w1 a → stays w (relocated self dx dy w1) a) ∧
            (shifted dx dy w w1 a → shifted dx dy w (relocated self dx dy w1) a)).
  { intros a Hna. unfold stays, shifted, get_position.
    rewrite relocated_other by done. done. }
  assert (Hclear : ∀ a, a ≠ self →
            target_clear dx dy (marks self occ w) w1 a →
            target_clear dx dy w (relocated self dx dy w1) a).
  { intros a Hna. unfold target_clear.
    rewrite get_actor_marks. destruct (xy_marks self occ w a) as [-> ->].
    destruct (get_actor w (_x (deref w a) + dx) _) as [b|]; [|done].
    rewrite !cls_marks. intros [H|H]; [left | by right].
    apply Hsh in H. destruct (decide (b = self)) as [->|Hnb].
    - exfalso. exact (stays_not_shifted _ _ _ _ _ nonzero Hselfstays H).
    - by apply Hkeep. }
  assert (Hoccshift : shifted dx dy w (relocated self dx dy w1) occ).
  { apply Hkeep; [done|]. by apply Hsh. }
  split.
  - done.
  - done.
  - intros _ _. split; [done|]. unfold target_clear. rewrite Hg. by left.
  - intros a. destruct (decide (a = self)) as [->|Hna]; [right; auto|].
    destruct (IHeach a) as [H|[H Hray]].
    + left. apply Hkeep; auto.
    + right. split; [apply Hkeep; [done | by apply Hsh]|]. right.
      destruct (xy_marks self occ w a) as [Ex1 Ey1].
      destruct (xy_marks self occ w occ) as [Ex2 Ey2].
      destruct Hray as [->|(i & Hi & Ex & Ey)].
      * exists 1%nat. split; [done|]. lia.
      * exists (S i). split; [lia|]. rewrite Ex1, Ex2 in Ex.
        rewrite Ey1, Ey2 in Ey. lia.
  - intros (Hc & Hall & Hdir) a Hshift.
    destruct (decide (a = self)) as [->|Hna].
    { split; [done|]. unfold target_clear. rewrite Hg. by left. }
    assert (Ha1 : shifted dx dy (marks self occ w) w1 a).
    { apply Hsh. revert Hshift. unfold shifted, get_position.
      by rewrite relocated_other. }
    destruct (IHproper) with (a := a) as [Hin Hcl]; [|done|].
    { split; [|split].
      - rewrite cls_marks. by apply Hall.
      - intros b Hbin. rewrite cls_marks. apply Hall.
        by destruct (same_stage_marks self occ w) as [<- _].
      - intros _ E. by destruct Hne. }
    destruct (xy_marks self occ w a) as [Ex Ey].
    rewrite Ex, Ey in Hin.
    rewrite (same_stage_bounds w (marks self occ w)) in Hin
      by apply same_stage_marks.
    split; [done | by apply Hclear].
Qed.

(** The occupant has refused. *)
Lemma push_shape_refused self other w occ r1 w1 :
  push_shape occ self dx dy (marks self occ w) r1 w1 → r1 ≠ PyTrue →
  push_shape self other dx dy w PyNone w1.
Proof.
  intros [IH _ _ _ _] Hr. apply push_shape_still; [done|].
  intros a. eapply stays_trans; [apply stays_marks | by apply IH].
Qed.

End Shape.

Lemma pusher_not_monster c : isinstance_Monster c = true → pusher c = false.
Proof. by destruct c. Qed.

Lemma Moved_shape self other dx dy w r w' :
  Moved self other dx dy w r w' → dx ≠ 0 ∨ dy ≠ 0 →
  push_shape self other dx dy w r w'.
Proof.
  induction 1 as
    [self other dx dy w Hc | self other dx dy w Hc | self other dx dy w Hc
    | self other dx dy w r w' Hm Hf Hmv
    | self other dx dy w Hp Hb | self other dx dy w Hp Hb Hg
    | self other dx dy w occ w1 Hb Hg Ha Hrec IH
    | self other dx dy w occ r1 w1 Hb Hg Ha Hrec IH Hr
    | self other dx dy w occ Hc Hb Hg Ho
    | self other dx dy w occ Hc Hb Hg Ho
    | self other dx dy w occ Hc Hb Hg Ho]; intros nonzero.
  - apply push_shape_single; [done | apply relocated_self
                             | intros; by apply relocated_stays |].
    intros [Hp|(Hp & _)]; destruct Hc as [Hc|Hc]; rewrite Hc in Hp; done.
  - by apply push_shape_still.
  - by apply push_shape_still.
  - apply Monster_move_spec in Hmv as (_ & Hothers & _ & Hself).
    destruct Hself as [[Hr Hst]|(-> & -> & Hsh & Hin & Hg)].
    + apply push_shape_still; [done | done |].
      intros a. destruct (decide (a = self)) as [->|]; auto.
    + apply push_shape_single; [done | done | done |].
      intros [Hp|(_ & _ & Hdir)].
      * by rewrite pusher_not_monster in Hp.
      * destruct (Hdir Hm eq_refl) as [-> ->]. split; [done|].
        unfold target_clear. by rewrite Hg.
  - by apply push_shape_still.
  - apply push_shape_single; [done | apply relocated_self
                             | intros; by apply relocated_stays |].
    intros _. split; [done|]. unfold target_clear. by rewrite Hg.
  - eapply push_shape_follow; eauto.
  - eapply push_shape_refused; eauto.
  - apply push_shape_still; [done | done |]. intros a. by apply stays_update.
  - assert (Hne : occ ≠ self) by (intros ->; congruence).
    apply push_shape_single; [done | | |].
    + apply shifted_xy.
      pose proof (relocated_self self dx dy (update occ (with_life 0) w))
        as [-> ->]%shifted_xy. by upd.
    + intros a Hna. eapply stays_trans; [|by apply relocated_stays].
      by apply stays_update.
    + intros _. split; [done|]. unfold target_clear. rewrite Hg. right.
      by rewrite Ho.
  - apply push_shape_single; [done | apply relocated_self
                             | intros; by apply relocated_stays |].
    intros _. split; [done|]. unfold target_clear. rewrite Hg. right.
    split; [done|]. by destruct Ho as [-> | ->].
Qed.

Lemma move_shape fuel self other dx dy w r w' :
  move fuel self other dx dy w = Ok r w' → dx ≠ 0 ∨ dy ≠ 0 →
  push_shape self other dx dy w r w'.
Proof. intros H. by apply Moved_shape, move_Moved with (fuel := fuel). Qed.

(** ** Pushes and the grid invariant *)

Lemma push_one_per_cell self other dx dy w r w' :
  dx ≠ 0 ∨ dy ≠ 0 →
  push_shape self other dx dy w r w' → same_stage w w' →
  proper self other dx dy w → no_walk_on dx dy w →
  one_per_cell w → one_per_cell w'.
Proof.
  intros nonzero [_ _ _ Heach Hproper] (Hact & _) Hp Hnw Hone.
  specialize (Hproper Hp).
  pose proof Hone as [Hnd Hpw]%one_per_cell_pairwise.
  apply one_per_cell_pairwise. rewrite Hact. split; [done|].
  assert (Hcross : ∀ a b, a ∈ _actors w → b ∈ _actors w →
            shifted dx dy w w' a → stays w w' b →
            get_position w' a = get_position w' b → False).
  { intros a b Ha Hb Hsa Hsb E.
    destruct (Hproper a Hsa) as [_ Hcl]. unfold target_clear in Hcl.
    assert (Hg : get_actor w (_x (deref w a) + dx) (_y (deref w a) + dy)
                 = Some b).
    { apply get_actor_only; [done | done |].
      rewrite <- Hsb, <- E. exact Hsa. }
    rewrite Hg in Hcl. destruct Hcl as [Hsb'|[Hk Hwalk]].
    - exact (stays_not_shifted _ _ _ _ _ nonzero Hsb Hsb').
    - rewrite (Hnw a b Ha Hk Hg) in Hwalk. discriminate. }
  intros a b Ha Hb E.
  destruct (Heach a) as [Hsa|[Hsa _]], (Heach b) as [Hsb|[Hsb _]].
  - apply Hpw; [done | done |]. by rewrite <- Hsa, <- Hsb.
  - exfalso. by apply (Hcross b a).
  - exfalso. by apply (Hcross a b).
  - apply Hpw; [done | done |].
    apply shifted_xy in Hsa as [Ex Ey]. apply shifted_xy in Hsb as [Ex' Ey'].
    injection E as E1 E2. unfold get_position. f_equal; lia.
Qed.

Lemma move_one_per_cell fuel self other dx dy w r w' :
  dx ≠ 0 ∨ dy ≠ 0 → proper self other dx dy w → no_walk_on dx dy w →
  one_per_cell w →
  move fuel self other dx dy w = Ok r w' → one_per_cell w'.
Proof.
  intros Hnz Hp Hnw Hone Hm.
  eapply push_one_per_cell; eauto.
  - by eapply move_shape.
  - by eapply move_frame.
Qed.

(** ** Every push returns *)

Lemma room_in_bounds dx dy w x y :
  is_in_bounds w x y = true → 1 ≤ room dx dy w x y.
Proof.
  unfold is_in_bounds, is_in_bounds_x, is_in_bounds_y, room.
  rewrite !andb_true_iff, !Z.leb_le, !Z.ltb_lt. intros [[? ?] [? ?]].
  repeat case_match; lia.
Qed.

Lemma room_next dx dy w x y :
  dx ≠ 0 ∨ dy ≠ 0 → room dx dy w (x + dx) (y + dy) ≤ room dx dy w x y - 1.
Proof.
  unfold room. intros H.
  destruct (0 <? dx) eqn:E1; [apply Z.ltb_lt in E1; lia|].
  destruct (dx <? 0) eqn:E2; [apply Z.ltb_lt in E2; lia|].
  apply Z.ltb_ge in E1, E2.
  destruct (0 <? dy) eqn:E3; [apply Z.ltb_lt in E3; lia|].
  apply Z.ltb_ge in E3. lia.
Qed.

Lemma room_marks dx dy self occ w x y :
  room dx dy (marks self occ w) x y = room dx dy w x y.
Proof.
  destruct (same_stage_marks self occ w) as (_ & Hw & Hh & _).
  unfold room. by rewrite Hw, Hh.
Qed.

Lemma push_returns mv self other dx dy w occ :
  (∃ r1 w1, mv occ self dx dy (marks self occ w) = Ok r1 w1) →
  ∃ r w', (call r1, w1 <- mv occ self dx dy (marks self occ w);
           if decide (r1 = PyTrue) then Actor_move self other dx dy w1
           else Ok PyNone w1) = Ok r w'.
Proof.
  intros (r1 & w1 & ->). simpl. case_decide; unfold Actor_move; eauto.
Qed.

Lemma move_returns_depth n :
  ∀ self other dx dy w,
    dx ≠ 0 ∨ dy ≠ 0 →
    (1 ≤ n)%nat →
    (is_in_bounds w (_x (deref w self) + dx) (_y (deref w self) + dy) = true →
     room dx dy w (_x (deref w self) + dx) (_y (deref w self) + dy)
     < Z.of_nat n) →
    ∃ r w', move n self other dx dy w = Ok r w'.
Proof.
  induction n as [|n IH]; intros self other dx dy w Hnz Hn Hroom; [lia|].
  assert (Hrec : ∀ occ,
    is_in_bounds w (_x (deref w self) + dx) (_y (deref w self) + dy) = true →
    get_actor w (_x (deref w self) + dx) (_y (deref w self) + dy) = Some occ →
    ∃ r1 w1, move n occ self dx dy (marks self occ w) = Ok r1 w1).
  { intros occ Hb Hg. specialize (Hroom Hb).
    pose proof (room_in_bounds dx dy w _ _ Hb) as H1.
    apply get_actor_Some in Hg as [_ [= Hx Hy]].
    destruct (xy_marks self occ w occ) as [Ex Ey].
    apply IH; [done | lia |]. intros _.
    rewrite Ex, Ey, Hx, Hy, room_marks.
    pose proof (room_next dx dy w (_x (deref w self) + dx)
                  (_y (deref w self) + dy) Hnz). lia. }
  simpl. destruct (cls (deref w self)) eqn:Ec;
    try (unfold Actor_move, Wall_move, Flame_move; by eauto);
    try apply Monster_move_returns.
  - unfold KeyboardPlayer_move.
    destruct (is_in_bounds w _ _) eqn:Hb; [|by eauto].
    destruct (get_actor w _ _) as [occ|] eqn:Hg;
      [|unfold Actor_move; by eauto].
    destruct (isinstance_Monster (cls (deref w occ))) eqn:Hm; simpl.
    + unfold Actor_move. repeat case_match; simpl; eauto.
    + assert (Hmk : marks self occ w = w) by (unfold marks; by rewrite Ec).
      pose proof (push_returns (move n) self other dx dy w occ) as H.
      rewrite Hmk in H. apply H. rewrite <- Hmk. by apply Hrec.
  - unfold Box_move.
    destruct (is_in_bounds w _ _) eqn:Hb; [|by eauto].
    destruct (get_actor w _ _) as [occ|] eqn:Hg;
      [|unfold Actor_move; by eauto].
    assert (Hmk : marks self occ w = w) by (unfold marks; by rewrite Ec).
    pose proof (push_returns (move n) self other dx dy w occ) as H.
    rewrite Hmk in H. apply H. rewrite <- Hmk. by apply Hrec.
  - unfold StickyBox_move.
    destruct (is_in_bounds w _ _) eqn:Hb; [|by eauto].
    destruct (get_actor w _ _) as [occ|] eqn:Hg;
      [|unfold Actor_move; by eauto].
    assert (Hmarks :
      (if isinstance_Monster (cls (deref w occ))
       then match get_actor (update occ (with_stuck true) w)
                    (_x (deref w self) + dx) (_y (deref w self) + dy) with
            | Some occ' => update occ' (with_stick_with (Some self))
                             (update occ (with_stuck true) w)
            | None => update occ (with_stuck true) w
            end
       else w) = marks self occ w).
    { unfold marks. rewrite Ec.
      destruct (isinstance_Monster _); [|done].
      by rewrite get_actor_update, Hg. }
    rewrite Hmarks, get_actor_marks, Hg.
    apply push_returns. by apply Hrec.
Qed.

Lemma room_bound dx dy w x y :
  is_in_bounds w x y = true →
  room dx dy w x y ≤ Z.max (_width w) (_height w) + 1.
Proof.
  unfold is_in_bounds, is_in_bounds_x, is_in_bounds_y, room.
  rewrite !andb_true_iff, !Z.leb_le, !Z.ltb_lt. intros [[? ?] [? ?]].
  repeat case_match; lia.
Qed.

(** With a recursion depth of [enough_fuel w] or more, a move request in a
    non-null direction returns. *)
Lemma move_returns fuel self other dx dy w :
  dx ≠ 0 ∨ dy ≠ 0 → (enough_fuel w ≤ fuel)%nat →
  ∃ r w', move fuel self other dx dy w = Ok r w'.
Proof.
  intros Hnz Hf. unfold enough_fuel in Hf.
  apply move_returns_depth; [done | lia |].
  intros Hb%(room_bound dx dy). lia.
Qed.

(** ** Boxes *)

Lemma boxes_then_wall_head w x y dx dy k :
  boxes_then_wall w x y dx dy k = true →
  is_in_bounds w x y = true ∧
  ∃ a, get_actor w x y = Some a ∧
       match k with
       | O => cls (deref w a) = C_Wall
       | S k' => isinstance_Box (cls (deref w a)) = true ∧
                 boxes_then_wall w (x + dx) (y + dy) dx dy k' = true
       end.
Proof.
  destruct k; simpl; intros [Hb H]%andb_true_iff;
    (split; [done|]); destruct (get_actor w x y) as [a|]; try done;
    exists a; (split; [done|]).
  - by apply bool_decide_eq_true in H.
  - by apply andb_true_iff in H.
Qed.

(** Asked to move towards a row of boxes closed by a wall, an actor of the
    row refuses and nothing changes. *)
Lemma chain_refuses w dx dy k :
  ∀ x y a other fuel,
    boxes_then_wall w x y dx dy k = true → get_actor w x y = Some a →
    (k < fuel)%nat →
    ∃ r, move fuel a other dx dy w = Ok r w ∧ r ≠ PyTrue.
Proof.
  induction k as [|k IH]; intros x y a other fuel Hch Hg Hf;
    destruct fuel as [|n]; try lia;
    apply boxes_then_wall_head in Hch as (Hb & a' & Hg' & Hk);
    rewrite Hg in Hg'; injection Hg' as <-; simpl.
  - rewrite Hk. exists PyFalse. done.
  - destruct Hk as [Hbox Hch].
    apply get_actor_Some in Hg as [_ [= Hx Hy]].
    pose proof Hch as (Hb1 & a1 & Hg1 & Hk1)%boxes_then_wall_head.
    destruct (IH _ _ a1 a n Hch Hg1) as (r1 & E1 & Hr1); [lia|].
    assert (Hnm : isinstance_Monster (cls (deref w a1)) = false).
    { destruct k; [by rewrite Hk1 | destruct Hk1 as [Hk1 _]].
      by destruct (cls (deref w a1)). }
    destruct (cls (deref w a)) eqn:Ec; try discriminate.
    + unfold Box_move. rewrite Hx, Hy, Hb1, Hg1, E1. simpl.
      case_decide; [done|]. by exists PyNone.
    + unfold StickyBox_move. rewrite Hx, Hy, Hb1, Hg1, Hnm, Hg1, E1. simpl.
      case_decide; [done|]. by exists PyNone.
Qed.

(** C2.  A move request against a Box in a non-null direction.  If the
    request does not return [True] no actor has changed place (no partial
    relocation: the box relocates only after the occupant of its target cell
    has moved on).  If it returns [True] the box has moved by [(dx, dy)], its
    new cell is on the stage and, provided the target cell held at most one
    actor, no other registered actor stands on it.  With a recursion depth
    of [enough_fuel w] the request returns.  A row of [k] boxes closed by a
    wall refuses the request at every one of its actors, and refuses the
    player pushing it, and leaves the world as it was. *)
Theorem C2_box_push_chain (w : World) (dx dy : Z) :
  dx ≠ 0 ∨ dy ≠ 0 →
  (∀ fuel self other r w',
     isinstance_Box (cls (deref w self)) = true →
     move fuel self other dx dy w = Ok r w' →
     (r ≠ PyTrue → ∀ a, stays w w' a) ∧
     (r = PyTrue →
      shifted dx dy w w' self ∧
      is_in_bounds w' (_x (deref w' self)) (_y (deref w' self)) = true ∧
      (at_most_one_at w (_x (deref w self) + dx) (_y (deref w self) + dy) →
       ∀ b, b ∈ _actors w' → b ≠ self →
            get_position w' b ≠ get_position w' self))) ∧
  (∀ fuel self other,
     (enough_fuel w ≤ fuel)%nat →
     ∃ r w', move fuel self other dx dy w = Ok r w') ∧
  (∀ k x y a other fuel,
     boxes_then_wall w x y dx dy k = true → get_actor w x y = Some a →
     (k < fuel)%nat →
     ∃ r, move fuel a other dx dy w = Ok r w ∧ r ≠ PyTrue) ∧
  (∀ k p fuel,
     cls (deref w p) = C_KeyboardPlayer →
     boxes_then_wall w (_x (deref w p) + dx) (_y (deref w p) + dy) dx dy k
     = true →
     (S k < fuel)%nat →
     move fuel p p dx dy w = Ok PyNone w).
Proof.
  intros nonzero. split; [|split; [|split]].
  - intros fuel self other r w' Hbox Hm.
    pose proof (move_shape _ _ _ _ _ _ _ _ Hm nonzero)
      as [Hrefused Hself Htarget Heach _].
    pose proof (move_frame _ _ _ _ _ _ _ _ Hm) as [Hstage _].
    split; [done|]. intros ->.
    specialize (Hself eq_refl).
    destruct Htarget as [Hin Hclear]; [done | by destruct (cls (deref w self))|].
    pose proof Hself as [Ex Ey]%shifted_xy.
    split; [done|]. split.
    { rewrite Ex, Ey. by rewrite (same_stage_bounds w w'). }
    intros Hsole b Hb Hne E.
    destruct Hstage as (Hact & _). rewrite Hact in Hb.
    unfold target_clear in Hclear.
    destruct (Heach b) as [Hsb|[Hsb [->|(i & Hi & Hx & Hy)]]]; [| done |].
    + assert (Hpb : get_position w b
                    = (_x (deref w self) + dx, _y (deref w self) + dy)).
      { rewrite <- Hsb, E. exact Hself. }
      destruct (get_actor w _ _) as [c|] eqn:Hg.
      * apply get_actor_Some in Hg as [Hc Hpc].
        assert (c = b) as -> by by apply Hsole.
        destruct Hclear as [Hsb'|[Hk _]].
        -- exact (stays_not_shifted _ _ _ _ _ nonzero Hsb Hsb').
        -- rewrite Hk in Hbox. discriminate.
      * eapply get_actor_None in Hg; eauto.
    + apply shifted_xy in Hsb as [Ex' Ey']. injection E as E1 E2.
      destruct nonzero; nia.
  - intros fuel self other Hf. by apply move_returns.
  - intros k x y a other fuel. apply chain_refuses.
  - intros k p fuel Hc Hch Hf. destruct fuel as [|n]; [lia|].
    pose proof Hch as (Hb & a & Hg & Hk)%boxes_then_wall_head.
    destruct (chain_refuses w dx dy k _ _ a p n Hch Hg) as (r & E & Hr); [lia|].
    simpl. rewrite Hc. unfold KeyboardPlayer_move. rewrite Hb, Hg.
    assert (isinstance_Monster (cls (deref w a)) = false) as ->.
    { destruct k; [by rewrite Hk | destruct Hk as [Hk _]].
      by destruct (cls (deref w a)). }
    simpl. rewrite E. simpl. by case_decide.
Qed.

Lemma C2_witness :
  ∃ r, move 10 1%nat 0%nat 1 0 Scenario.two_boxes_wall
       = Ok r Scenario.two_boxes_wall ∧ r ≠ PyTrue.
Proof.
  refine (proj1 (proj2 (proj2
            (C2_box_push_chain Scenario.two_boxes_wall 1 0 _)))
                2%nat 1 0 1%nat 0%nat 10%nat _ _ _).
  - left. lia.
  - vm_compute. reflexivity.
  - vm_compute. reflexivity.
  - lia.
Defined.

(** ** The grid invariant under the steps *)

Lemma one_per_cell_same_places w w' :
  _actors w' = _actors w →
  (∀ a, a ∈ _actors w → stays w w' a) →
  one_per_cell w → one_per_cell w'.
Proof.
  intros Ha Hs. unfold one_per_cell. rewrite Ha.
  assert (get_position w' <$> _actors w = get_position w <$> _actors w) as ->;
    [|done].
  apply list_fmap_ext. intros i a Hi. apply Hs.
  by eapply list_elem_of_lookup_2.
Qed.

Lemma one_per_cell_update r f w :
  _x (f (deref w r)) = _x (deref w r) →
  _y (f (deref w r)) = _y (deref w r) →
  one_per_cell w → one_per_cell (update r f w).
Proof.
  intros Hx Hy. apply one_per_cell_same_places; [done|].
  intros a _. by apply stays_update.
Qed.

Lemma one_per_cell_remove r w :
  one_per_cell w → one_per_cell (with_actors (remove_first r (_actors w)) w).
Proof.
  unfold one_per_cell. simpl. intros H.
  eapply sublist_NoDup; [exact H|].
  apply fmap_sublist, remove_first_sublist.
Qed.

Lemma refs_allocated_remove r w :
  refs_allocated w → refs_allocated (with_actors (remove_first r (_actors w)) w).
Proof.
  intros H a Ha. simpl in *. apply remove_first_elem_of in Ha. by apply H.
Qed.

Lemma refs_allocated_same w w' :
  _actors w' = _actors w → next_ref w' = next_ref w →
  refs_allocated w → refs_allocated w'.
Proof. intros Ha Hn H r. rewrite Ha, Hn. apply H. Qed.

(** One actor steps onto a cell where the stage finds nobody. *)
Lemma one_per_cell_step_aside self w w' :
  _actors w' = _actors w →
  (∀ a, a ≠ self → stays w w' a) →
  (stays w w' self ∨
   ∃ cx cy, get_position w' self = (cx, cy) ∧ get_actor w cx cy = None) →
  one_per_cell w → one_per_cell w'.
Proof.
  intros Ha Hothers Hself Hone.
  destruct Hself as [Hself|(cx & cy & Hp & Hg)].
  { apply (one_per_cell_same_places w); [done | | done].
    intros a _. destruct (decide (a = self)) as [->|]; auto. }
  pose proof Hone as [Hnd Hpw]%one_per_cell_pairwise.
  apply one_per_cell_pairwise. rewrite Ha. split; [done|].
  assert (Hfree : ∀ b, b ∈ _actors w → b ≠ self →
            get_position w' b ≠ get_position w' self).
  { intros b Hb Hne E. rewrite Hothers, Hp in E by done.
    by eapply get_actor_None in Hg. }
  intros a b Hina Hinb E.
  destruct (decide (a = self)) as [->|Hna], (decide (b = self)) as [->|Hnb];
    try done.
  - exfalso. by apply (Hfree b).
  - exfalso. by apply (Hfree a).
  - apply Hpw; [done | done |]. by rewrite <- (Hothers a), <- (Hothers b).
Qed.

Lemma delayed_move_invariant self w r w' :
  delayed_move self w = Ok r w' →
  (one_per_cell w → one_per_cell w') ∧ (refs_allocated w → refs_allocated w').
Proof.
  intros ((Ha&_&_&Hn&_) & Hothers & _ & Hself)%delayed_move_spec. split.
  - by apply one_per_cell_step_aside with (self := self).
  - by apply refs_allocated_same.
Qed.

Lemma Actor_step_invariant self w r w' :
  Actor_step self w = Ok r w' →
  (one_per_cell w → one_per_cell w') ∧ (refs_allocated w → refs_allocated w').
Proof.
  unfold Actor_step. destruct (Actor_is_dead self w).
  - intros (_ & _ & ->)%remove_actor_spec.
    split; [apply one_per_cell_remove | apply refs_allocated_remove].
  - by intros [= <- <-].
Qed.

Lemma Flame_step_invariant self w r w' :
  Flame_step self w = Ok r w' →
  (one_per_cell w → one_per_cell w') ∧ (refs_allocated w → refs_allocated w').
Proof.
  unfold Flame_step. set (w1 := update self _ w).
  assert (H1 : (one_per_cell w → one_per_cell w1) ∧
               (refs_allocated w → refs_allocated w1)).
  { split; [by apply one_per_cell_update | by apply refs_allocated_same]. }
  clearbody w1. destruct H1 as [Ho Hr].
  destruct (Actor_is_dead self w1).
  - intros (_ & _ & ->)%remove_actor_spec.
    split; intros H; [apply one_per_cell_remove | apply refs_allocated_remove];
      auto.
  - by intros [= <- <-].
Qed.

Lemma Monster_step_invariant self w r w' :
  Monster_step self w = Ok r w' →
  (one_per_cell w → one_per_cell w') ∧ (refs_allocated w → refs_allocated w').
Proof.
  rewrite Monster_step_unfold.
  set (first := if Actor_is_dead self w then _ else _).
  assert (Hfirst : ∀ v w1, first = Ok v w1 →
            (one_per_cell w → one_per_cell w1) ∧
            (refs_allocated w → refs_allocated w1)).
  { unfold first. intros v w1. destruct (Actor_is_dead self w).
    - intros (_ & _ & ->)%remove_actor_spec.
      split; [apply one_per_cell_remove | apply refs_allocated_remove].
    - by intros [= <- <-]. }
  destruct first as [v w1| |]; simpl; try discriminate.
  destruct (Hfirst _ _ eq_refl) as [Ho1 Hr1]. clear Hfirst.
  set (w2 := if is_trapped self w1 then _ else _).
  assert (H2 : (one_per_cell w1 → one_per_cell w2) ∧
               (refs_allocated w1 → refs_allocated w2)).
  { unfold w2. destruct (is_trapped self w1);
      (split; [by apply one_per_cell_update | by apply refs_allocated_same]). }
  clearbody w2. destruct H2 as [Ho2 Hr2].
  destruct (stuck_check self w2) as [stop w3| |] eqn:E3; simpl; try discriminate.
  apply stuck_check_spec in E3 as ((Ha3&_&_&Hn3&_) & Hs3 & _).
  assert (H3 : (one_per_cell w2 → one_per_cell w3) ∧
               (refs_allocated w2 → refs_allocated w3)).
  { split; [apply one_per_cell_same_places; auto
           | by apply refs_allocated_same]. }
  destruct H3 as [Ho3 Hr3].
  destruct stop.
  - intros [= <- <-]. split; auto.
  - intros [Ho4 Hr4]%delayed_move_invariant. split; auto.
Qed.

Lemma ExplodingMonster_step_invariant self w r w' :
  ExplodingMonster_step self w = Ok r w' →
  refs_allocated w →
  (one_per_cell w → one_per_cell w') ∧ refs_allocated w'.
Proof.
  rewrite ExplodingMonster_step_unfold. cbv zeta.
  set (w2 := update self _ _). intros Hstep Hr.
  assert (H2 : (one_per_cell w → one_per_cell w2) ∧ refs_allocated w2).
  { unfold w2. destruct (is_trapped self w).
    - split; [intros H; apply one_per_cell_update; [done | done |];
                by apply one_per_cell_update
             | by apply (refs_allocated_same w)].
    - split; [by apply one_per_cell_update | by apply (refs_allocated_same w)]. }
  clearbody w2. destruct H2 as [Ho2 Hr2]. revert Hstep.
  set (mid := if Actor_is_dead self w2 then _ else _).
  assert (Hmid : ∀ v w3, mid = Ok v w3 →
            (one_per_cell w2 → one_per_cell w3) ∧ refs_allocated w3).
  { unfold mid. intros v w3. destruct (Actor_is_dead self w2).
    - destruct (remove_actor self w2) as [v' wa| |] eqn:Er;
        simpl; try discriminate.
      apply remove_actor_spec in Er as (_ & _ & ->).
      destruct (explode_grows self
                  (with_actors (remove_first self (_actors w2)) w2))
        as (w3' & -> & _ & Hra & Hoa). intros [= _ <-].
      pose proof (refs_allocated_remove self w2 Hr2) as Hr'.
      split; [intros H; apply Hoa; [done | by apply one_per_cell_remove]
             | by apply Hra].
    - intros [= <- <-]. done. }
  destruct mid as [v w3| |]; simpl; try discriminate.
  destruct (Hmid _ _ eq_refl) as [Ho3 Hr3]. clear Hmid.
  intros [Ho4 Hr4]%delayed_move_invariant. split; auto.
Qed.

Lemma key_direction_nonzero k dx dy :
  key_direction k = Some (dx, dy) → dx ≠ 0 ∨ dy ≠ 0.
Proof. destruct k; simpl; intros [= <- <-]; lia. Qed.

Lemma KeyboardPlayer_step_invariant fuel self w r w' :
  cls (deref w self) = C_KeyboardPlayer →
  (∀ b, b ∈ _actors w → concrete (cls (deref w b)) = true) →
  (∀ k dx dy, _last_event (deref w self) = Some k →
              key_direction k = Some (dx, dy) → no_walk_on dx dy w) →
  KeyboardPlayer_step fuel self w = Ok r w' →
  (one_per_cell w → one_per_cell w') ∧ (refs_allocated w → refs_allocated w').
Proof.
  intros Hc Hall Hnw. rewrite KeyboardPlayer_step_unfold.
  destruct (pending_move fuel self w) as [v w1| |] eqn:E1;
    simpl; try discriminate.
  assert (H1 : (one_per_cell w → one_per_cell w1) ∧
               (refs_allocated w → refs_allocated w1)).
  { pose proof (pending_move_frame _ _ _ _ _ Hc E1) as [(Ha&_&_&Hn&_) _].
    split; [|by apply refs_allocated_same].
    revert E1. unfold pending_move.
    destruct (_last_event (deref w self)) as [k|]; [|by intros [= <- <-]].
    destruct (key_direction k) as [[dx dy]|] eqn:Ek; simpl.
    - destruct (KeyboardPlayer_move _ _ _ _ _ _) as [v' wa| |] eqn:Em;
        simpl; try discriminate.
      intros [= <- <-] Hone. apply one_per_cell_update; [done | done |].
      assert (Hm : move (S fuel) self self dx dy w = Ok v' wa)
        by (simpl; by rewrite Hc).
      eapply move_one_per_cell; eauto using key_direction_nonzero.
      split; [by rewrite Hc|]. split; [done|]. by rewrite Hc.
    - intros [= <- <-] Hone. by apply one_per_cell_update. }
  destruct H1 as [Ho1 Hr1].
  destruct (KeyboardPlayer_is_dead_frame self w1) as [(Ha2&_&_&Hn2&_) _].
  assert (H2 : ∀ a, stays w1 (KeyboardPlayer_is_dead self w1).2 a).
  { intros a. unfold KeyboardPlayer_is_dead.
    destruct (_ && _); simpl; [by apply stays_update|].
    by destruct (_ =? _). }
  destruct (KeyboardPlayer_is_dead self w1) as [d w2]. simpl in *.
  assert (H3 : (one_per_cell w1 → one_per_cell w2) ∧
               (refs_allocated w1 → refs_allocated w2)).
  { split; [apply one_per_cell_same_places; auto
           | by apply refs_allocated_same]. }
  destruct H3 as [Ho2 Hr2].
  destruct d.
  - intros (_ & _ & ->)%remove_actor_spec.
    split; intros H; [apply one_per_cell_remove | apply refs_allocated_remove];
      auto.
  - intros [= <- <-]. split; auto.
Qed.

(** C3 (amended).  From a stage with at most one registered actor per cell,
    populated with existing objects of the game's classes: a move request in a
    non-null direction, a step of any actor and an explosion all leave at
    most one registered actor per cell, except when a KeyboardPlayer walks
    onto the cell of a Monster that is neither a NormalMonster nor a Flame
    (hypothesis [no_walk_on]); such a move apart, the cell of a registered
    player whose move request has completed holds no other actor.  Move
    requests return when the recursion depth is [enough_fuel w], and
    explosions always do. *)
Theorem C3_grid_invariant (fuel : nat) (w : World) :
  one_per_cell w → refs_allocated w →
  (∀ b, b ∈ _actors w → concrete (cls (deref w b)) = true) →
  (∀ self other dx dy r w',
     dx ≠ 0 ∨ dy ≠ 0 → proper self other dx dy w → no_walk_on dx dy w →
     move fuel self other dx dy w = Ok r w' →
     one_per_cell w' ∧
     (self ∈ _actors w' →
      ∀ b, b ∈ _actors w' → b ≠ self →
           get_position w' b ≠ get_position w' self)) ∧
  (∀ self other dx dy,
     dx ≠ 0 ∨ dy ≠ 0 → (enough_fuel w ≤ fuel)%nat →
     ∃ r w', move fuel self other dx dy w = Ok r w') ∧
  (∀ self r w',
     (∀ k dx dy, _last_event (deref w self) = Some k →
                 key_direction k = Some (dx, dy) → no_walk_on dx dy w) →
     step fuel self w = Ok r w' →
     one_per_cell w' ∧ refs_allocated w') ∧
  (∀ self,
     ∃ r w', explode self w = Ok r w' ∧ one_per_cell w' ∧ refs_allocated w').
Proof.
  intros Hone Hal Hall. split; [|split; [|split]].
  - intros self other dx dy r w' Hnz Hp Hnw Hm.
    assert (Hone' : one_per_cell w') by by eapply move_one_per_cell.
    split; [done|]. intros Hs b Hb Hne E.
    apply one_per_cell_pairwise in Hone' as [_ Hpw]. by apply Hne, Hpw.
  - intros self other dx dy Hnz Hf. by apply move_returns.
  - intros self r w' Hnw. unfold step.
    destruct (cls (deref w self)) eqn:Ec.
    1,2,4,5,6: intros [Ho Hr]%Actor_step_invariant; split; auto.
    + intros [Ho Hr]%KeyboardPlayer_step_invariant; auto.
    + intros [Ho Hr]%Monster_step_invariant; auto.
    + intros [Ho Hr]%Monster_step_invariant; auto.
    + intros [Ho Hr]%Monster_step_invariant; auto.
    + intros H. apply ExplodingMonster_step_invariant in H as [Ho Hr]; auto.
    + intros [Ho Hr]%Flame_step_invariant; auto.
  - intros self.
    destruct (explode_grows self w) as (w' & E & _ & Hr & Ho).
    exists PyTrue, w'. auto.
Qed.

(** The player walks onto an EzMonster: the move returns [True] and the two
    of them stand on one cell. *)
Lemma C3_counterexample :
  one_per_cell Scenario.skip_start ∧
  cls (deref Scenario.skip_start 0%nat) = C_KeyboardPlayer ∧
  cls (deref Scenario.skip_start 1%nat) = C_EzMonster ∧
  move 10 0%nat 0%nat 1 0 Scenario.skip_start
  = Ok PyTrue (Scenario.after_move 0%nat 0%nat 1 0 Scenario.skip_start) ∧
  _actors (Scenario.after_move 0%nat 0%nat 1 0 Scenario.skip_start)
  = [0%nat; 1%nat; 2%nat] ∧
  get_position (Scenario.after_move 0%nat 0%nat 1 0 Scenario.skip_start) 0%nat
  = get_position (Scenario.after_move 0%nat 0%nat 1 0 Scenario.skip_start)
                 1%nat ∧
  ¬ one_per_cell (Scenario.after_move 0%nat 0%nat 1 0 Scenario.skip_start).
Proof.
  split; [decide_now|]. split; [vm_compute; reflexivity|].
  split; [vm_compute; reflexivity|]. split; [vm_compute; reflexivity|].
  split; [vm_compute; reflexivity|]. split; [vm_compute; reflexivity|].
  refute_now.
Qed.

Lemma no_walk_on_check dx dy w :
  no_walk_on_b dx dy w = true → no_walk_on dx dy w.
Proof.
  unfold no_walk_on_b. rewrite forallb_forall.
  intros H a b Ha Hk Hg. apply list_elem_of_In in Ha.
  specialize (H a Ha). rewrite decide_True, Hg in H by done.
  by apply negb_true_iff.
Qed.

Lemma concrete_Forall w :
  Forall (fun b => concrete (cls (deref w b)) = true) (_actors w) →
  ∀ b, b ∈ _actors w → concrete (cls (deref w b)) = true.
Proof. intros H b Hb. by eapply Forall_forall in H. Qed.

Lemma C3_witness :
  one_per_cell (Scenario.after_move 0%nat 0%nat 1 0 Scenario.push_row) ∧
  (0%nat ∈ _actors (Scenario.after_move 0%nat 0%nat 1 0 Scenario.push_row) →
   ∀ b, b ∈ _actors (Scenario.after_move 0%nat 0%nat 1 0 Scenario.push_row) →
        b ≠ 0%nat →
        get_position (Scenario.after_move 0%nat 0%nat 1 0 Scenario.push_row) b
        ≠ get_position (Scenario.after_move 0%nat 0%nat 1 0 Scenario.push_row)
                       0%nat).
Proof.
  refine (proj1 (C3_grid_invariant 10 Scenario.push_row _ _ _)
                0%nat 0%nat 1 0 PyTrue _ _ _ _ _).
  - decide_now.
  - apply refs_allocated_Forall. decide_now.
  - apply concrete_Forall. decide_now.
  - left. lia.
  - split; [vm_compute; reflexivity|]. split.
    + apply concrete_Forall. decide_now.
    + intros H. vm_compute in H. discriminate.
  - apply no_walk_on_check. vm_compute. reflexivity.
  - vm_compute. reflexivity.
Defined.
(** C1 (defect).  A removal during the tick makes [Stage.step] skip the
    next live actor: the player walks onto the EzMonster, the monster's step
    removes it from the list, and the NormalMonster registered after it,
    live at the start of the tick and still live at its end, is not stepped
    in that tick. *)
Theorem C1_removal_skips_next_actor :
  _actors Scenario.skip_pressed = [0%nat; 1%nat; 2%nat] ∧
  returned (Stage_step 10 Scenario.skip_pressed) = Some [0%nat; 1%nat] ∧
  (_actors <$> final (Stage_step 10 Scenario.skip_pressed))
    = Some [0%nat; 2%nat] ∧
  ((fun w => deref w 2%nat) <$> final (Stage_step 10 Scenario.skip_pressed))
    = Some (deref Scenario.skip_pressed 2%nat) ∧
  ((fun w => _delay_count (deref w 2%nat))
     <$> final (step 10 2%nat Scenario.skip_pressed)) = Some 1.
Proof. vm_compute. repeat split; reflexivity. Qed.

(** C5 (defect).  A StickyBox pushed against a monster marks it stuck and
    records the box, but records no stick position ([Monster.move] does, on
    the path where the monster runs into the box): the stuck check of the
    monster's next step then subscripts [None], and the exception ends the
    tick loop. *)
Theorem C5_sticky_push_crashes_monster_step :
  after (KeyboardPlayer_step 10 0%nat Scenario.sticky_pressed)
    (fun _ w =>
       cls (deref w 1%nat) = C_StickyBox ∧
       get_actor w 2 0 = Some 2%nat ∧
       stuck (deref w 2%nat) = true ∧
       stick_with (deref w 2%nat) = Some 1%nat ∧
       stick_position (deref w 2%nat) = None ∧
       Monster_step 2%nat w = Raise TypeError) ∧
  Stage_step 10 Scenario.sticky_pressed = Raise TypeError.
Proof. vm_compute. repeat split; reflexivity. Qed.

Lemma is_dead_iff w a : (is_dead a w).1 = true ↔ life (deref w a) = 0.
Proof.
  unfold is_dead, KeyboardPlayer_is_dead, Actor_is_dead.
  destruct (cls (deref w a)); simpl; try apply Z.eqb_eq.
  destruct (life (deref w a) =? 0) eqn:E; simpl.
  - apply Z.eqb_eq in E. destruct (dead (deref w a)); simpl; done.
  - apply Z.eqb_neq in E. done.
Qed.

(** C8 (defect).  [is_dead] answers true exactly when the life is 0, for
    every class; but lives do become negative.  A trapped ExplodingMonster
    loses 2 life per tick; built with [exploding_delay = 1] it starts at 11,
    steps over 0 and after six ticks has life -1, while [is_dead] stays
    false and it stays registered. *)
Theorem C8_exploding_monster_negative_life :
  (∀ w a, (is_dead a w).1 = true ↔ life (deref w a) = 0) ∧
  life (deref Scenario.boxed_in 0%nat) = 11 ∧
  after (ticks 20 6 Scenario.boxed_in)
    (fun _ w =>
       life (deref w 0%nat) = -1 ∧
       Actor_is_dead 0%nat w = false ∧
       (is_dead 0%nat w).1 = false ∧
       0%nat ∈ _actors w).
Proof.
  split; [apply is_dead_iff|].
  vm_compute. split; [reflexivity|]. repeat split; try reflexivity.
  apply list_elem_of_In; simpl; tauto.
Qed.

(** C9 (defect).  When the occupant of the target cell refuses, [Box.move]
    falls off the end of the method: the caller gets [None], not [False].
    Here the box is pushed against a wall. *)
Theorem C9_box_move_returns_None :
  cls (deref Scenario.wall_row 1%nat) = C_Box ∧
  get_actor Scenario.wall_row 2 0 = Some 2%nat ∧
  cls (deref Scenario.wall_row 2%nat) = C_Wall ∧
  returned (move 10 2%nat 1%nat 1 0 Scenario.wall_row) = Some PyFalse ∧
  returned (move 10 1%nat 0%nat 1 0 Scenario.wall_row) = Some PyNone.
Proof. vm_compute. repeat split; reflexivity. Qed.


(** ** Death and removal *)

Lemma removed_gone self w :
  NoDup (_actors w) →
  self ∉ _actors (with_actors (remove_first self (_actors w)) w).
Proof. intros H. simpl. by apply remove_first_gone. Qed.

Lemma KeyboardPlayer_is_dead_spec self w :
  life (deref w self) = 0 →
  ∃ w', KeyboardPlayer_is_dead self w = (true, w') ∧
        same_stage w w' ∧ dead (deref w' self) = true.
Proof.
  intros Hl. unfold KeyboardPlayer_is_dead. rewrite Hl. simpl.
  destruct (dead (deref w self)) eqn:Ed; simpl.
  - exists w. split; [done|]. split; [apply same_stage_refl | done].
  - eexists. split; [done|]. split; [by apply same_stage_update | by upd].
Qed.

Lemma pending_move_returns fuel self w :
  cls (deref w self) = C_KeyboardPlayer → (enough_fuel w ≤ S fuel)%nat →
  ∃ w1, pending_move fuel self w = Ok PyNone w1 ∧
        _last_event (deref w1 self) = None ∧
        (pending_direction self w = None →
         ∀ a, with_last_event None (deref w1 a)
              = with_last_event None (deref w a)).
Proof.
  intros Hc Hf. unfold pending_move, pending_direction.
  destruct (_last_event (deref w self)) as [k|] eqn:Ek;
    [|exists w; by rewrite Ek].
  destruct (key_direction k) as [[dx dy]|] eqn:Ed; simpl.
  - destruct (move_returns (S fuel) self self dx dy w) as (r & wa & Hm);
      [by eapply key_direction_nonzero | done |].
    simpl in Hm. rewrite Hc in Hm. rewrite Hm. simpl.
    eexists. split; [done|]. split; [by upd | done].
  - eexists. split; [done|]. split; [by upd|]. intros _ a.
    rewrite deref_update. case_decide; subst; done.
Qed.

Lemma player_step_tail self w0 w1 :
  same_stage w0 w1 → self ∈ _actors w0 →
  ∃ w', (let (d, w2) := KeyboardPlayer_is_dead self w1 in
         if d then remove_actor self w2 else Ok PyNone w2) = Ok PyNone w' ∧
        (∀ a, with_dead false (deref w' a) = with_dead false (deref w1 a)) ∧
        _actors w' = (if life (deref w1 self) =? 0
                      then remove_first self (_actors w0) else _actors w0) ∧
        _width w' = _width w0 ∧ _height w' = _height w0.
Proof.
  intros (Ha & Hw & Hh & _) Hin. unfold KeyboardPlayer_is_dead.
  destruct (life (deref w1 self) =? 0) eqn:El; simpl.
  - destruct (dead (deref w1 self)) eqn:Ed; simpl.
    + rewrite remove_actor_returns by (by rewrite Ha).
      eexists. split; [done|]. simpl. by rewrite Ha.
    + rewrite remove_actor_returns by (simpl; by rewrite Ha).
      eexists. split; [done|]. simpl. rewrite Ha. split; [|done].
      intros a. unfold deref at 1. simpl.
      change (with_dead false (deref (update self (with_dead true) w1) a)
              = with_dead false (deref w1 a)).
      rewrite deref_update. case_decide; subst; done.
  - exists w1. by rewrite Ha.
Qed.

(** The test [if self.is_dead(): self._stage.remove_actor(self)] on a
    registered actor: it removes the actor exactly when its life is 0, and
    touches no object. *)
Lemma death_test_spec self w :
  self ∈ _actors w → NoDup (_actors w) →
  ∃ w', (if Actor_is_dead self w then remove_actor self w else Ok PyNone w)
        = Ok PyNone w' ∧
        (self ∉ _actors w' ↔ life (deref w self) = 0) ∧
        deref w' = deref w ∧ next_ref w' = next_ref w ∧
        _player w' = _player w.
Proof.
  intros Hin Hnd. unfold Actor_is_dead.
  destruct (life (deref w self) =? 0) eqn:El.
  - rewrite remove_actor_returns by done. eexists. split; [done|].
    apply Z.eqb_eq in El. split; [|done]. split; [done|].
    intros _. by apply removed_gone.
  - exists w. split; [done|]. apply Z.eqb_neq in El. split; [|done].
    split; [by intros [] | done].
Qed.

Lemma Monster_step_death self w :
  self ∈ _actors w → NoDup (_actors w) →
  (stuck (deref w self) = true → stick_position (deref w self) ≠ None) →
  _delay (deref w self) ≠ 0 →
  ∃ r w', Monster_step self w = Ok r w' ∧
          (self ∉ _actors w' ↔ life (deref w self) = 0).
Proof.
  intros Hin Hnd Hst Hd. rewrite Monster_step_unfold.
  destruct (death_test_spec self w Hin Hnd) as (w1 & -> & Hiff & Hd1 & _).
  simpl.
  set (w2 := if is_trapped self w1 then _ else _).
  assert (Hw2 : same_stage w1 w2 ∧
                stuck (deref w2 self) = stuck (deref w self) ∧
                stick_position (deref w2 self) = stick_position (deref w self) ∧
                _delay (deref w2 self) = _delay (deref w self)).
  { unfold w2. destruct (is_trapped self w1);
      (split; [by apply same_stage_update|]); upd; by rewrite Hd1. }
  destruct Hw2 as (Hs2 & E1 & E2 & E3).
  destruct (stuck_check_returns self w2) as (b & w3 & E).
  { by rewrite E1, E2. }
  rewrite E. simpl.
  apply stuck_check_spec in E as (Hs3 & _ & _ & Hd3 & _).
  assert (Ha3 : _actors w3 = _actors w1).
  { destruct Hs3 as [-> _]. by destruct Hs2 as [-> _]. }
  destruct b.
  { eexists _, _. split; [done|]. by rewrite Ha3. }
  destruct (delayed_move_returns self w3) as (r & w' & E').
  { by rewrite Hd3, E3. }
  rewrite E'. eexists _, _. split; [done|].
  apply delayed_move_spec in E' as ([-> _] & _). by rewrite Ha3.
Qed.

Lemma ExplodingMonster_step_death self w :
  self ∈ _actors w → NoDup (_actors w) → refs_allocated w →
  _delay (deref w self) ≠ 0 →
  ∃ wt r w',
    wt = update self (fun a => with_life (life a - 1) a)
           (if is_trapped self w
            then update self (fun a => with_life (life a - 1) a) w
            else w) ∧
    ExplodingMonster_step self w = Ok r w' ∧
    (self ∉ _actors w' ↔ life (deref wt self) = 0).
Proof.
  intros Hin Hnd Hal Hd. rewrite ExplodingMonster_step_unfold. cbv zeta.
  set (w2 := update self _ _). exists w2.
  assert (Hw2 : _actors w2 = _actors w ∧
                _delay (deref w2 self) = _delay (deref w self) ∧
                next_ref w2 = next_ref w).
  { unfold w2. destruct (is_trapped self w); by upd. }
  destruct Hw2 as (Ha2 & Hd2 & Hn2). clearbody w2.
  unfold Actor_is_dead. destruct (life (deref w2 self) =? 0) eqn:El.
  - apply Z.eqb_eq in El.
    rewrite remove_actor_returns by by rewrite Ha2. simpl.
    set (wa := with_actors _ w2).
    destruct (explode_grows self wa) as (w3 & -> & Hg & _ & _). simpl.
    assert (Hgone : self ∉ _actors w3).
    { destruct Hg as (_&_&_&_&Hsub&_). intros [Hr|Hr]%Hsub.
      - revert Hr. unfold wa. simpl. rewrite Ha2.
        by apply remove_first_gone.
      - apply Hal in Hin. unfold wa in Hr. simpl in Hr. lia. }
    assert (Hd3 : _delay (deref w3 self) ≠ 0).
    { destruct (grows_old wa w3 self Hg) as (_ & _ & _ & ->).
      - apply Hal in Hin. unfold wa. simpl. lia.
      - unfold wa, deref. simpl. fold (deref w2 self). by rewrite Hd2. }
    destruct (delayed_move_returns self w3 Hd3) as (r & w' & E').
    rewrite E'. exists r, w'. split; [done|]. split; [done|].
    apply delayed_move_spec in E' as ([-> _] & _). done.
  - apply Z.eqb_neq in El. simpl.
    destruct (delayed_move_returns self w2) as (r & w' & E');
      [by rewrite Hd2|].
    rewrite E'. exists r, w'. split; [done|]. split; [done|].
    apply delayed_move_spec in E' as ([-> _] & _). rewrite Ha2.
    split; [by intros [] | done].
Qed.

Lemma KeyboardPlayer_step_death fuel self w :
  cls (deref w self) = C_KeyboardPlayer →
  self ∈ _actors w → NoDup (_actors w) → (enough_fuel w ≤ S fuel)%nat →
  ∃ wt w',
    pending_move fuel self w = Ok PyNone wt ∧
    KeyboardPlayer_step fuel self w = Ok PyNone w' ∧
    (self ∉ _actors w' ↔ life (deref wt self) = 0) ∧
    _player w' = _player w ∧
    life (deref w' self) = life (deref wt self) ∧
    (life (deref wt self) = 0 → dead (deref w' self) = true) ∧
    (life (deref w self) = 0 → life (deref wt self) = 0).
Proof.
  intros Hc Hin Hnd Hf. rewrite KeyboardPlayer_step_unfold.
  destruct (pending_move_returns fuel self w Hc Hf) as (w1 & E & _).
  rewrite E. simpl. exists w1.
  apply pending_move_frame in E as [(Ha1 & _ & _ & _ & Hp1 & _) Hu1];
    [|done].
  assert (Hkeep : life (deref w self) = 0 → life (deref w1 self) = 0).
  { intros H0. destruct (Hu1 self) as [->|[-> _]]; done. }
  destruct (Z.eq_dec (life (deref w1 self)) 0) as [H0|Hn0].
  - pose proof (KeyboardPlayer_is_dead_frame self w1) as [_ Hl2].
    destruct (KeyboardPlayer_is_dead_spec self w1 H0)
      as (w2 & Eq & (Ha2 & _ & _ & _ & Hp2 & _) & Hdead).
    rewrite Eq in Hl2 |- *. simpl in Hl2.
    rewrite remove_actor_returns by by rewrite Ha2, Ha1.
    eexists. split; [done|]. split; [done|]. simpl.
    split; [|split; [congruence|]].
    + split; [done|]. intros _. rewrite Ha2, Ha1. by apply remove_first_gone.
    + split; [apply (Hl2 self) | done].
  - unfold KeyboardPlayer_is_dead.
    rewrite (proj2 (Z.eqb_neq _ _) Hn0). simpl.
    exists w1. split; [done|]. split; [done|].
    split; [|done]. rewrite Ha1. split; [by intros [] | done].
Qed.

(** C6 (amended).  On a stage whose list names no actor twice, a registered
    actor is removed from the list by its own step exactly when the step,
    at its [is_dead] test, finds the life at zero: at the start of the step for plain
    actors, boxes, walls and base monsters, after the step's own countdown
    for a Flame and an ExplodingMonster, and after the pending key has been
    acted on for the player.  The player is no exception: killed by its own
    move, or stepped with life 0, it is removed in that step, which also
    raises its [dead] flag, and the stage keeps its separate reference to
    the player.  The step returns whenever a monster has a non-zero delay
    and, if stuck, a stick position, and the player a recursion depth that
    covers the stage. *)
Theorem C6_dead_actors_are_removed (fuel : nat) (w : World) (self : ref) :
  self ∈ _actors w → NoDup (_actors w) → refs_allocated w →
  step_completes fuel self w →
  ∃ v wt r w',
    at_death_test fuel self w = Ok v wt ∧
    step fuel self w = Ok r w' ∧
    (self ∉ _actors w' ↔ life (deref wt self) = 0) ∧
    (cls (deref w self) = C_KeyboardPlayer →
     _player w' = _player w ∧
     life (deref w' self) = life (deref wt self) ∧
     (life (deref wt self) = 0 → dead (deref w' self) = true) ∧
     (life (deref w self) = 0 → life (deref wt self) = 0)).
Proof.
  intros Hin Hnd Hal Hok.
  assert (Hbase : ∃ w', Actor_step self w = Ok PyNone w' ∧
                        (self ∉ _actors w' ↔ life (deref w self) = 0)).
  { destruct (death_test_spec self w Hin Hnd) as (w' & E & Hiff & _).
    by exists w'. }
  unfold at_death_test, step_completes, step in *.
  destruct (cls (deref w self)) eqn:Ec.
  1,2,4,5,6:
    destruct Hbase as (w' & E & Hiff);
    exists PyNone, w, PyNone, w';
    do 2 (split; [done|]); (split; [exact Hiff | done]).
  - destruct (KeyboardPlayer_step_death fuel self w Ec Hin Hnd Hok)
      as (wt & w' & E1 & E2 & Hiff & Hrest).
    exists PyNone, wt, PyNone, w'.
    do 2 (split; [done|]). split; [exact Hiff|]. intros _. exact Hrest.
  - destruct Hok as [Hst Hd].
    destruct (Monster_step_death self w Hin Hnd Hst Hd) as (r & w' & E & Hiff).
    exists PyNone, w, r, w'.
    do 2 (split; [done|]). split; [exact Hiff | done].
  - destruct Hok as [Hst Hd].
    destruct (Monster_step_death self w Hin Hnd Hst Hd) as (r & w' & E & Hiff).
    exists PyNone, w, r, w'.
    do 2 (split; [done|]). split; [exact Hiff | done].
  - destruct Hok as [Hst Hd].
    destruct (Monster_step_death self w Hin Hnd Hst Hd) as (r & w' & E & Hiff).
    exists PyNone, w, r, w'.
    do 2 (split; [done|]). split; [exact Hiff | done].
  - destruct (ExplodingMonster_step_death self w Hin Hnd Hal Hok)
      as (wt & r & w' & -> & E & Hiff).
    eexists PyNone, _, r, w'.
    do 2 (split; [done|]). split; [exact Hiff | done].
  - unfold Flame_step.
    set (wt := update self (fun a => with_life (life a - 1) a) w).
    destruct (death_test_spec self wt) as (w' & E & Hiff & _); [done..|].
    exists PyNone, wt, PyNone, w'.
    do 2 (split; [done|]). split; [exact Hiff | done].
Qed.

Lemma C6_witness :
  ∃ v wt r w',
    at_death_test 10 0%nat Scenario.doomed = Ok v wt ∧
    step 10 0%nat Scenario.doomed = Ok r w' ∧
    (0%nat ∉ _actors w' ↔ life (deref wt 0%nat) = 0) ∧
    (cls (deref Scenario.doomed 0%nat) = C_KeyboardPlayer →
     _player w' = _player Scenario.doomed ∧
     life (deref w' 0%nat) = life (deref wt 0%nat) ∧
     (life (deref wt 0%nat) = 0 → dead (deref w' 0%nat) = true) ∧
     (life (deref Scenario.doomed 0%nat) = 0 → life (deref wt 0%nat) = 0)).
Proof.
  apply (C6_dead_actors_are_removed 10 Scenario.doomed 0%nat).
  - decide_now.
  - decide_now.
  - apply refs_allocated_Forall. decide_now.
  - vm_compute. lia.
Defined.

(** The player walks into a NormalMonster: its life becomes 0 and the same
    step removes it from the stage's list. *)
Lemma C6_counterexample :
  cls (deref Scenario.doomed 0%nat) = C_KeyboardPlayer ∧
  _actors Scenario.doomed = [0%nat; 1%nat] ∧
  after (step 10 0%nat Scenario.doomed)
    (fun _ w' => life (deref w' 0%nat) = 0 ∧ dead (deref w' 0%nat) = true ∧
                 _actors w' = [1%nat] ∧ _player w' = Some 0%nat).
Proof. vm_compute. repeat split; reflexivity. Qed.

(** * Further properties of the program *)

(** ** [Actor.delay] *)

Lemma delay_calls_from n :
  ∀ self w,
    _delay (deref w self) ≠ 0 →
    ∃ w', delay_calls n self w
          = Ok ((fun k => (_delay_count (deref w self) + Z.of_nat k)
                          `mod` _delay (deref w self) =? 0) <$> seq 1 n) w' ∧
          _delay_count (deref w' self)
          = match n with
            | O => _delay_count (deref w self)
            | S _ => (_delay_count (deref w self) + Z.of_nat n)
                     `mod` _delay (deref w self)
            end ∧
          _delay (deref w' self) = _delay (deref w self) ∧
          (∀ a, a ≠ self → deref w' a = deref w a) ∧
          _actors w' = _actors w.
Proof.
  induction n as [|n IH]; intros self w Hd.
  - exists w. by repeat split.
  - cbn [delay_calls]. unfold delay at 1.
    apply Z.eqb_neq in Hd as Hd'. rewrite Hd'. cbn [bind].
    set (c := _delay_count (deref w self)). set (N := _delay (deref w self)).
    set (w1 := update self (with_delay_count ((c + 1) `mod` N)) w).
    assert (Hc1 : _delay_count (deref w1 self) = (c + 1) `mod` N)
      by (unfold w1; by upd).
    assert (HN1 : _delay (deref w1 self) = N) by (unfold w1; by upd).
    destruct (IH self w1) as (w' & -> & Hcount & Hdelay & Hothers & Hact);
      [by rewrite HN1|].
    cbn [bind]. exists w'. rewrite Hc1, HN1 in *.
    assert (Htail :
      (fun k => ((c + 1) `mod` N + Z.of_nat k) `mod` N =? 0) <$> seq 1 n
      = (fun k => (c + Z.of_nat k) `mod` N =? 0) <$> seq 2 n).
    { rewrite <- (fmap_S_seq 1), <- list_fmap_compose.
      apply list_fmap_ext. intros i k _. simpl.
      rewrite Zplus_mod_idemp_l. f_equal. f_equal. lia. }
    split; [|split; [|split; [|split]]].
    + rewrite Htail. reflexivity.
    + rewrite Hcount. destruct n as [|n]; [f_equal; lia|].
      rewrite Zplus_mod_idemp_l. f_equal. lia.
    + done.
    + intros a Ha. rewrite Hothers by done. unfold w1. by upd.
    + by rewrite Hact.
Qed.

(** X1.  Of [n] calls of [delay] in a row on an actor whose [_delay] is [N],
    not zero, and whose counter is [c], the [k]-th returns [True] exactly when
    [(c + k) mod N = 0]: every [N]-th call for a new actor, every call when
    [N] is 1.  The calls change the counter of that actor and nothing else. *)
Theorem delay_every_nth (n : nat) (self : ref) (w : World) :
  _delay (deref w self) ≠ 0 →
  ∃ w', delay_calls n self w
        = Ok ((fun k => (_delay_count (deref w self) + Z.of_nat k)
                        `mod` _delay (deref w self) =? 0) <$> seq 1 n) w' ∧
        (n ≠ 0%nat →
         _delay_count (deref w' self)
         = (_delay_count (deref w self) + Z.of_nat n)
           `mod` _delay (deref w self)) ∧
        (∀ a, a ≠ self → deref w' a = deref w a) ∧
        _actors w' = _actors w.
Proof.
  intros Hd. destruct (delay_calls_from n self w Hd)
    as (w' & E & Hc & _ & Ho & Ha).
  exists w'. split; [done|]. split; [by destruct n|]. done.
Qed.

Lemma delay_every_nth_witness :
  ∃ w', delay_calls 6 0%nat Scenario.boxed_in_normal
        = Ok [false; false; true; false; false; true] w' ∧
        _delay_count (deref w' 0%nat) = 0.
Proof.
  destruct (delay_every_nth 6 0%nat Scenario.boxed_in_normal)
    as (w' & E & Hc & _).
  - vm_compute. discriminate.
  - exists w'. split; [exact E|]. rewrite Hc by discriminate. reflexivity.
Defined.

(** ** The stage: finding, adding and removing actors *)

Lemma first_at_split w x y l r :
  first_at w x y l = Some r ↔
  ∃ l1 l2, l = l1 ++ r :: l2 ∧ get_position w r = (x, y) ∧
           ∀ a, a ∈ l1 → get_position w a ≠ (x, y).
Proof.
  induction l as [|a l IH]; simpl.
  - split; [discriminate|]. intros (l1 & l2 & E & _). by destruct l1.
  - destruct (at_cell w x y a) eqn:Ea.
    + apply at_cell_true in Ea. split.
      * intros [= <-]. exists [], l. split; [done|]. split; [done|].
        intros b Hb. inversion Hb.
      * intros (l1 & l2 & E & Hp & Hno). destruct l1 as [|b l1].
        -- by injection E as ->.
        -- injection E as <- _. destruct (Hno a); [left | done].
    + apply at_cell_false in Ea. rewrite IH. split.
      * intros (l1 & l2 & -> & Hp & Hno). exists (a :: l1), l2.
        split; [done|]. split; [done|].
        intros b Hb. inversion Hb; subst; auto.
      * intros (l1 & l2 & E & Hp & Hno). destruct l1 as [|b l1].
        -- injection E as -> _. done.
        -- injection E as <- ->. exists l1, l2. split; [done|].
           split; [done|]. intros c Hc. apply Hno. by right.
Qed.

(** X2.  [Stage.get_actor] returns the actor registered first among those
    standing on the cell, and [None] exactly when no registered actor stands
    there. *)
Theorem get_actor_first (w : World) (x y : Z) :
  (∀ r, get_actor w x y = Some r ↔
        ∃ l1 l2, _actors w = l1 ++ r :: l2 ∧ get_position w r = (x, y) ∧
                 ∀ a, a ∈ l1 → get_position w a ≠ (x, y)) ∧
  (get_actor w x y = None ↔
   ∀ a, a ∈ _actors w → get_position w a ≠ (x, y)).
Proof. split; [intros r; apply first_at_split | apply get_actor_None]. Qed.

Lemma first_at_app w x y l1 l2 :
  first_at w x y (l1 ++ l2)
  = match first_at w x y l1 with
    | Some a => Some a
    | None => first_at w x y l2
    end.
Proof.
  induction l1 as [|a l1 IH]; simpl; [done|].
  by destruct (at_cell w x y a).
Qed.

(** X3.  An actor added to the stage is found on its cell only if no actor
    registered before stands there: [add_actor] appends, and [get_actor] takes
    the first. *)
Theorem get_actor_after_add (w : World) (r : ref) (x y : Z) :
  get_actor (add_actor r w) x y
  = match get_actor w x y with
    | Some a => Some a
    | None => if at_cell w x y r then Some r else None
    end.
Proof.
  unfold get_actor, add_actor. simpl.
  assert (H : ∀ l, first_at (with_actors (_actors w ++ [r]) w) x y l
                   = first_at w x y l) by (intros l; by apply first_at_ext).
  rewrite H, first_at_app. simpl. reflexivity.
Qed.

Lemma remove_first_snoc r l : r ∉ l → remove_first r (l ++ [r]) = l.
Proof.
  induction l as [|a l IH]; simpl; intros Hr.
  - by rewrite Nat.eqb_refl.
  - apply not_elem_of_cons in Hr as [Hne Hr].
    destruct (Nat.eqb a r) eqn:E; [apply Nat.eqb_eq in E; congruence|].
    by rewrite IH.
Qed.

(** X4.  Removing an actor that is not registered raises [ValueError]; adding
    it and removing it again gives the stage back as it was. *)
Theorem remove_actor_after_add (w : World) (r : ref) :
  r ∉ _actors w →
  remove_actor r w = Raise ValueError ∧
  remove_actor r (add_actor r w) = Ok PyNone w.
Proof.
  intros Hr. split.
  - unfold remove_actor. destruct (mem r (_actors w)) eqn:E; [|done].
    by apply mem_true in E.
  - rewrite remove_actor_returns
      by (unfold add_actor; simpl; apply elem_of_app; right; left).
    unfold add_actor. simpl. rewrite remove_first_snoc by done.
    by destruct w.
Qed.

Lemma remove_actor_after_add_witness :
  remove_actor 7%nat Scenario.wall_row = Raise ValueError ∧
  remove_actor 7%nat (add_actor 7%nat Scenario.wall_row)
  = Ok PyNone Scenario.wall_row.
Proof.
  apply (remove_actor_after_add Scenario.wall_row 7%nat).
  intros H. apply (bool_decide_pack _) in H. vm_compute in H. exact H.
Defined.

(** X5.  [Stage.remove_player] returns exactly when the stage has a player
    that is still registered: it then drops the first entry of the player from
    the list and forgets the player.  After [set_player] on a new actor it
    gives back the list as it was. *)
Theorem remove_player_spec (w : World) :
  (∀ r w', remove_player w = Ok r w' →
           ∃ p, _player w = Some p ∧ p ∈ _actors w ∧
                _actors w' = remove_first p (_actors w) ∧
                _player w' = None ∧ heap w' = heap w) ∧
  (∀ p, _player w = Some p → p ∈ _actors w →
        ∃ w', remove_player w = Ok PyNone w') ∧
  (∀ p, p ∉ _actors w →
        ∃ w', remove_player (set_player p w) = Ok PyNone w' ∧
              _actors w' = _actors w ∧ _player w' = None ∧
              heap w' = heap w).
Proof.
  split; [|split].
  - intros r w'. unfold remove_player.
    destruct (_player w) as [p|]; [|discriminate].
    destruct (remove_actor p w) as [v w1| |] eqn:E; simpl; try discriminate.
    apply remove_actor_spec in E as (Hin & _ & ->). intros [= _ <-].
    exists p. done.
  - intros p Hp Hin. unfold remove_player. rewrite Hp.
    rewrite remove_actor_returns by done. simpl. eauto.
  - intros p Hp. unfold remove_player, set_player, add_actor. simpl.
    rewrite remove_actor_returns by (simpl; apply elem_of_app; right; left).
    simpl. eexists. split; [done|]. simpl.
    by rewrite remove_first_snoc.
Qed.

(** ** [KeyboardPlayer.is_dead] *)

(** X6.  Asking a player whether it is dead answers whether its life is 0 and
    changes at most its [dead] flag, which is raised at the first positive
    answer; asking again gives the same answer and changes nothing. *)
Theorem player_is_dead_once (self : ref) (w : World) :
  let (b, w1) := KeyboardPlayer_is_dead self w in
  (b = true ↔ life (deref w self) = 0) ∧
  (b = true → dead (deref w1 self) = true) ∧
  (b = false → w1 = w) ∧
  (∀ a, with_dead false (deref w1 a) = with_dead false (deref w a)) ∧
  _actors w1 = _actors w ∧
  KeyboardPlayer_is_dead self w1 = (b, w1).
Proof.
  unfold KeyboardPlayer_is_dead.
  destruct (life (deref w self) =? 0) eqn:El; simpl.
  - apply Z.eqb_eq in El. destruct (dead (deref w self)) eqn:Ed; simpl.
    + rewrite (proj2 (Z.eqb_eq _ _) El), Ed. simpl. by repeat split.
    + split; [done|]. split; [intros _; by upd|]. split; [done|].
      split; [|split; [done|]].
      * intros a. rewrite deref_update. case_decide; subst; done.
      * upd. rewrite (proj2 (Z.eqb_eq _ _) El). simpl. done.
  - apply Z.eqb_neq in El. rewrite (proj2 (Z.eqb_neq _ _) El). simpl.
    by repeat split.
Qed.

(** ** Key presses and [KeyboardPlayer.step] *)

Lemma update_update r f g w :
  update r f (update r g w) = update r (fun a => f (g a)) w.
Proof.
  unfold update, deref. simpl.
  by rewrite lookup_total_insert_eq, insert_insert_eq.
Qed.

Lemma player_event_twice (e1 e2 : Key) (w : World) :
  (call _, w1 <- player_event e1 w; player_event e2 w1) = player_event e2 w.
Proof.
  unfold player_event. destruct (_player w) as [p|] eqn:Hp; [|done].
  destruct (cls (deref w p)) eqn:Hc; simpl; try done.
  - unfold handle_event. rewrite Hc. by rewrite Hp, Hc.
  - unfold handle_event. rewrite Hc. simpl. rewrite Hp. upd.
    rewrite Hc. by rewrite update_update.
Qed.

(** X7.  The step of a registered player returns [None] whenever the depth
    allowed for the pushes is that of the stage: no path raises.  Afterwards
    no key is pending, and the player has left the list exactly if its life is
    0. *)
Theorem player_step_returns (fuel : nat) (self : ref) (w : World) :
  cls (deref w self) = C_KeyboardPlayer → self ∈ _actors w →
  (enough_fuel w ≤ S fuel)%nat →
  ∃ w', KeyboardPlayer_step fuel self w = Ok PyNone w' ∧
        _last_event (deref w' self) = None ∧
        _actors w' = (if life (deref w' self) =? 0
                      then remove_first self (_actors w) else _actors w) ∧
        _width w' = _width w ∧ _height w' = _height w.
Proof.
  intros Hc Hin Hf. rewrite KeyboardPlayer_step_unfold.
  destruct (pending_move_returns fuel self w Hc Hf) as (w1 & E & Hl & _).
  rewrite E. simpl.
  apply pending_move_frame in E as [Hs _]; [|done].
  destruct (player_step_tail self w w1 Hs Hin) as (w' & -> & Hd & Ha & Hwh).
  exists w'. split; [done|].
  pose proof (Hd self) as Hself.
  split; [|split; [|done]].
  - apply (f_equal _last_event) in Hself. simpl in Hself. by rewrite Hself.
  - apply (f_equal life) in Hself. simpl in Hself. by rewrite Hself.
Qed.

Lemma player_step_returns_witness :
  ∃ w', KeyboardPlayer_step 10 0%nat Scenario.sticky_pressed = Ok PyNone w' ∧
        _last_event (deref w' 0%nat) = None ∧
        _actors w' = (if life (deref w' 0%nat) =? 0
                      then remove_first 0%nat (_actors Scenario.sticky_pressed)
                      else _actors Scenario.sticky_pressed) ∧
        _width w' = _width Scenario.sticky_pressed ∧
        _height w' = _height Scenario.sticky_pressed.
Proof.
  apply (player_step_returns 10 0%nat Scenario.sticky_pressed).
  - reflexivity.
  - refine (bool_decide_unpack _ _); vm_compute; exact I.
  - vm_compute. lia.
Defined.

(** X8.  With no key pending, or a key that is none of those tested, the step
    of a registered player asks nobody to move, whatever the depth allowed:
    every object is as before but for the event and the [dead] flag of the
    player. *)
Theorem player_step_without_direction (fuel : nat) (self : ref) (w : World) :
  cls (deref w self) = C_KeyboardPlayer → self ∈ _actors w →
  pending_direction self w = None →
  ∃ w', KeyboardPlayer_step fuel self w = Ok PyNone w' ∧
        _last_event (deref w' self) = None ∧
        (∀ a, with_dead false (with_last_event None (deref w' a))
              = with_dead false (with_last_event None (deref w a))) ∧
        _actors w' = (if life (deref w self) =? 0
                      then remove_first self (_actors w) else _actors w).
Proof.
  intros Hc Hin Hp. rewrite KeyboardPlayer_step_unfold.
  assert (E : ∃ w1, pending_move fuel self w = Ok PyNone w1 ∧
                    _last_event (deref w1 self) = None ∧
                    ∀ a, with_last_event None (deref w1 a)
                         = with_last_event None (deref w a)).
  { unfold pending_move. unfold pending_direction in Hp.
    destruct (_last_event (deref w self)) as [k|] eqn:Ek;
      [|exists w; by rewrite Ek].
    rewrite Hp. simpl. eexists. split; [done|]. split; [by upd|].
    intros a. rewrite deref_update. case_decide; subst; done. }
  destruct E as (w1 & E & Hl & Hsame). rewrite E. simpl.
  apply pending_move_frame in E as [Hs _]; [|done].
  destruct (player_step_tail self w w1 Hs Hin) as (w' & -> & Hd & Ha & _).
  exists w'. split; [done|].
  assert (Hall : ∀ a, with_dead false (with_last_event None (deref w' a))
                      = with_dead false (with_last_event None (deref w a))).
  { intros a.
    change (with_last_event None (with_dead false (deref w' a))
            = with_last_event None (with_dead false (deref w a))).
    rewrite Hd.
    change (with_dead false (with_last_event None (deref w1 a))
            = with_dead false (with_last_event None (deref w a))).
    by rewrite Hsame. }
  split; [|split; [done|]].
  - specialize (Hd self). apply (f_equal _last_event) in Hd. simpl in Hd.
    by rewrite Hd.
  - rewrite Ha. specialize (Hsame self). apply (f_equal life) in Hsame.
    simpl in Hsame. by rewrite Hsame.
Qed.

Lemma player_step_without_direction_witness :
  ∃ w', KeyboardPlayer_step 0 0%nat
          (handle_event 0%nat (K_other 32) Scenario.wall_row) = Ok PyNone w' ∧
        _last_event (deref w' 0%nat) = None ∧
        (∀ a, with_dead false (with_last_event None (deref w' a))
              = with_dead false
                  (with_last_event None
                     (deref (handle_event 0%nat (K_other 32) Scenario.wall_row)
                            a))) ∧
        _actors w'
        = (if life (deref (handle_event 0%nat (K_other 32) Scenario.wall_row)
                          0%nat) =? 0
           then remove_first 0%nat
                  (_actors (handle_event 0%nat (K_other 32) Scenario.wall_row))
           else _actors (handle_event 0%nat (K_other 32) Scenario.wall_row)).
Proof.
  apply (player_step_without_direction 0 0%nat
           (handle_event 0%nat (K_other 32) Scenario.wall_row)).
  - reflexivity.
  - refine (bool_decide_unpack _ _); vm_compute; exact I.
  - reflexivity.
Defined.

(** ** The move protocol *)

(** X9.  A box or a player that stands on the stage and is the actor found on
    its own cell never returns from a request to move by [(0, 0)], a direction
    the documentation of [Actor.move] allows: it finds itself on the target
    cell and asks itself to move, at every depth. *)
Theorem null_move_never_returns (fuel : nat) (self other : ref) (w : World) :
  pusher (cls (deref w self)) = true →
  is_in_bounds w (_x (deref w self)) (_y (deref w self)) = true →
  get_actor w (_x (deref w self)) (_y (deref w self)) = Some self →
  move fuel self other 0 0 w = OutOfFuel.
Proof.
  intros Hp Hb Hg. revert other.
  induction fuel as [|n IH]; intros other; [done|].
  simpl. destruct (cls (deref w self)) eqn:Hc; try discriminate.
  - unfold KeyboardPlayer_move. rewrite !Z.add_0_r, Hb, Hg, Hc. simpl.
    by rewrite IH.
  - unfold Box_move. rewrite !Z.add_0_r, Hb, Hg. by rewrite IH.
  - unfold StickyBox_move. rewrite !Z.add_0_r, Hb, Hg, Hc. simpl.
    rewrite Hg. by rewrite IH.
Qed.

Lemma null_move_never_returns_witness :
  move 1000 1%nat 0%nat 0 0 Scenario.wall_row = OutOfFuel.
Proof.
  apply (null_move_never_returns 1000 1%nat 0%nat Scenario.wall_row);
    reflexivity.
Defined.

Lemma shifted_relocated_other dx dy dx' dy' self w w1 a :
  a ≠ self → shifted dx dy w w1 a →
  shifted dx dy w (relocated self dx' dy' w1) a.
Proof.
  intros Ha H. unfold shifted, get_position in *.
  by rewrite relocated_other.
Qed.

Lemma isinstance_Box_pusher c : isinstance_Box c = true → pusher c = true.
Proof. by destruct c. Qed.

Lemma isinstance_Box_not_Monster c :
  isinstance_Box c = true → isinstance_Monster c = false.
Proof. by destruct c. Qed.

Lemma pusher_move n self other dx dy w occ :
  pusher (cls (deref w self)) = true →
  is_in_bounds w (_x (deref w self) + dx) (_y (deref w self) + dy) = true →
  get_actor w (_x (deref w self) + dx) (_y (deref w self) + dy) = Some occ →
  isinstance_Box (cls (deref w occ)) = true →
  move (S n) self other dx dy w
  = (call r, w1 <- move n occ self dx dy w;
     if decide (r = PyTrue) then Actor_move self other dx dy w1
     else Ok PyNone w1).
Proof.
  intros Hp Hb Hg Ho. apply isinstance_Box_not_Monster in Ho.
  simpl. destruct (cls (deref w self)) eqn:Hc; try discriminate.
  - unfold KeyboardPlayer_move. by rewrite Hb, Hg, Ho.
  - unfold Box_move. by rewrite Hb, Hg.
  - unfold StickyBox_move. by rewrite Hb, Hg, Ho, Hg.
Qed.

Lemma pusher_move_free n self other dx dy w :
  pusher (cls (deref w self)) = true →
  is_in_bounds w (_x (deref w self) + dx) (_y (deref w self) + dy) = true →
  get_actor w (_x (deref w self) + dx) (_y (deref w self) + dy) = None →
  move (S n) self other dx dy w = Ok PyTrue (relocated self dx dy w).
Proof.
  intros Hp Hb Hg.
  simpl. destruct (cls (deref w self)) eqn:Hc; try discriminate.
  - unfold KeyboardPlayer_move. by rewrite Hb, Hg.
  - unfold Box_move. by rewrite Hb, Hg.
  - unfold StickyBox_move. by rewrite Hb, Hg.
Qed.

(** X10.  A player or a box in front of [k] boxes in a row, with a free cell
    of the stage behind them, moves when asked to, and so does every box of
    the row: all are shifted by [(dx, dy)], and no other object changes. *)
Theorem push_chain_moves (w : World) (dx dy : Z) (k fuel : nat)
    (self other : ref) :
  dx ≠ 0 ∨ dy ≠ 0 →
  pusher (cls (deref w self)) = true →
  boxes_then_free w (_x (deref w self) + dx) (_y (deref w self) + dy) dx dy k
  = true →
  (k < fuel)%nat →
  ∃ w', move fuel self other dx dy w = Ok PyTrue w' ∧
        shifted dx dy w w' self ∧
        (∀ i a, (1 ≤ i ≤ k)%nat →
                get_actor w (_x (deref w self) + Z.of_nat i * dx)
                            (_y (deref w self) + Z.of_nat i * dy) = Some a →
                shifted dx dy w w' a) ∧
        (∀ a, a ≠ self →
              (∀ i, (1 ≤ i ≤ k)%nat →
                    get_actor w (_x (deref w self) + Z.of_nat i * dx)
                                (_y (deref w self) + Z.of_nat i * dy)
                    ≠ Some a) →
              deref w' a = deref w a).
Proof.
  intros Hnz. revert fuel self other.
  induction k as [|k IH]; intros fuel self other Hp Hc Hf;
    (destruct fuel as [|n]; [lia|]); simpl in Hc;
    apply andb_true_iff in Hc as [Hb Hc].
  - apply bool_decide_eq_true in Hc.
    rewrite pusher_move_free by done.
    eexists. split; [done|]. split; [apply relocated_self|].
    split; [intros; lia|]. intros a Ha _. by apply relocated_other.
  - destruct (get_actor w _ _) as [b|] eqn:Hg; [|done].
    apply andb_true_iff in Hc as [Hbox Hc].
    destruct (get_actor_Some _ _ _ _ Hg) as [_ Hpos].
    injection Hpos as Hbx Hby.
    assert (Hbs : b ≠ self) by (intros ->; lia).
    rewrite <- Hbx, <- Hby in Hc.
    destruct (IH n b self (isinstance_Box_pusher _ Hbox) Hc ltac:(lia))
      as (w1 & Hm & Hsb & Hchain & Hothers).
    rewrite (pusher_move n self other dx dy w b) by done.
    rewrite Hm. simpl.
    assert (Hself : deref w1 self = deref w self).
    { apply Hothers; [done|]. intros i Hi Hgs.
      apply get_actor_Some in Hgs as [_ Hps]. injection Hps as Hx Hy.
      rewrite Hbx in Hx. rewrite Hby in Hy. nia. }
    exists (relocated self dx dy w1). split; [done|].
    split; [|split].
    + unfold shifted. unfold relocated, set_position, get_position. upd.
      by rewrite Hself.
    + intros i a Hi Ha.
      assert (Has : a ≠ self).
      { intros ->. apply get_actor_Some in Ha as [_ Hps].
        injection Hps as Hx Hy. nia. }
      apply shifted_relocated_other; [done|].
      destruct (decide (i = 1%nat)) as [->|Hi1].
      * replace (_x (deref w self) + Z.of_nat 1 * dx)
          with (_x (deref w self) + dx) in Ha by lia.
        replace (_y (deref w self) + Z.of_nat 1 * dy)
          with (_y (deref w self) + dy) in Ha by lia.
        rewrite Hg in Ha. by injection Ha as <-.
      * apply (Hchain (i - 1)%nat); [lia|].
        rewrite Hbx, Hby. rewrite <- Ha. f_equal; nia.
    + intros a Ha Hno. rewrite relocated_other by done.
      apply Hothers.
      * intros ->. apply (Hno 1%nat); [lia|]. rewrite <- Hg. f_equal; lia.
      * intros i Hi Hgs. apply (Hno (S i)); [lia|].
        rewrite <- Hgs, Hbx, Hby. f_equal; nia.
Qed.

Lemma push_chain_moves_witness :
  ∃ w', move 10 0%nat 0%nat 1 0 Scenario.push_row = Ok PyTrue w' ∧
        shifted 1 0 Scenario.push_row w' 0%nat ∧
        (∀ i a, (1 ≤ i ≤ 2)%nat →
                get_actor Scenario.push_row
                  (_x (deref Scenario.push_row 0%nat) + Z.of_nat i * 1)
                  (_y (deref Scenario.push_row 0%nat) + Z.of_nat i * 0)
                = Some a →
                shifted 1 0 Scenario.push_row w' a) ∧
        (∀ a, a ≠ 0%nat →
              (∀ i, (1 ≤ i ≤ 2)%nat →
                    get_actor Scenario.push_row
                      (_x (deref Scenario.push_row 0%nat) + Z.of_nat i * 1)
                      (_y (deref Scenario.push_row 0%nat) + Z.of_nat i * 0)
                    ≠ Some a) →
              deref w' a = deref Scenario.push_row a).
Proof.
  apply (push_chain_moves Scenario.push_row 1 0 2 10 0%nat 0%nat).
  - left. lia.
  - reflexivity.
  - vm_compute. reflexivity.
  - lia.
Defined.

Lemma asks_pusher c o : asks c o = true → pusher c = true.
Proof. by destruct c. Qed.

Lemma unpushable_not_pusher c : unpushable c = true → pusher c = false.
Proof. by destruct c. Qed.

Lemma stays_refl w a : stays w w a.
Proof. done. Qed.

Lemma Moved_unpushable self other dx dy w r w' :
  Moved self other dx dy w r w' → dx ≠ 0 ∨ dy ≠ 0 →
  ∀ b, unpushable (cls (deref w b)) = true → (b = self → other ≠ self) →
       stays w w' b.
Proof.
  intros HM Hnz.
  induction HM as
    [ self other dx dy w Hc
    | self other dx dy w Hc
    | self other dx dy w Hc
    | self other dx dy w r w' Hm Hf E
    | self other dx dy w Hp Hb
    | self other dx dy w Hp Hb Hg
    | self other dx dy w occ w1 Hb Hg Ha HM IH
    | self other dx dy w occ r1 w1 Hb Hg Ha HM IH Hr
    | self other dx dy w occ Hc Hb Hg Ho
    | self other dx dy w occ Hc Hb Hg Ho
    | self other dx dy w occ Hc Hb Hg Ho ];
    intros b Hu Hself.
  - apply relocated_stays. intros ->. by destruct Hc as [Hc|Hc]; rewrite Hc in Hu.
  - apply stays_refl.
  - apply stays_refl.
  - apply Monster_move_spec in E as (_ & Hothers & _ & Hcase).
    destruct (decide (b = self)) as [->|Hne]; [|by apply Hothers].
    destruct Hcase as [[_ Hs]|(_ & Ho & _)]; [done|].
    by destruct Hself.
  - apply stays_refl.
  - apply relocated_stays. intros ->.
    apply unpushable_not_pusher in Hu. congruence.
  - assert (Hos : self ≠ occ).
    { intros <-. apply get_actor_Some in Hg as [_ Hps].
      injection Hps as Hx Hy. lia. }
    assert (Hbs : b ≠ self).
    { intros ->. apply asks_pusher in Ha.
      apply unpushable_not_pusher in Hu. congruence. }
    eapply stays_trans; [apply (stays_marks self occ)|].
    eapply stays_trans; [|by apply relocated_stays].
    apply IH; [done | by rewrite cls_marks | done].
  - assert (Hos : self ≠ occ).
    { intros <-. apply get_actor_Some in Hg as [_ Hps].
      injection Hps as Hx Hy. lia. }
    eapply stays_trans; [apply (stays_marks self occ)|].
    apply IH; [done | by rewrite cls_marks | done].
  - by apply stays_update.
  - assert (Hbs : b ≠ self) by (intros ->; by rewrite Hc in Hu).
    eapply stays_trans; [|by apply relocated_stays].
    by apply stays_update.
  - apply relocated_stays. intros ->. by rewrite Hc in Hu.
Qed.

(** X11.  No request to move, however long the chain of pushes it starts,
    changes the place of a wall, of a flame, or of a monster other than the
    one that asked itself: pushes move players and boxes only. *)
Theorem push_never_moves_monster_or_wall (fuel : nat) (self other : ref)
    (dx dy : Z) (w : World) (r : PyVal) (w' : World) (b : ref) :
  dx ≠ 0 ∨ dy ≠ 0 →
  move fuel self other dx dy w = Ok r w' →
  unpushable (cls (deref w b)) = true → (b = self → other ≠ self) →
  stays w w' b.
Proof.
  intros Hnz Hm. apply move_Moved in Hm. by eapply Moved_unpushable.
Qed.

Lemma push_never_moves_monster_or_wall_witness :
  stays Scenario.sticky_start
        (Scenario.after_move 0%nat 0%nat 1 0 Scenario.sticky_start) 2%nat.
Proof.
  apply (push_never_moves_monster_or_wall 10 0%nat 0%nat 1 0
           Scenario.sticky_start PyNone
           (Scenario.after_move 0%nat 0%nat 1 0 Scenario.sticky_start) 2%nat).
  - left. lia.
  - vm_compute. reflexivity.
  - reflexivity.
  - intros H. discriminate H.
Defined.

(** X12.  A request to move changes places and little else: it registers and
    removes nobody, creates no object, leaves the classes and the stage as
    they are, moves every actor by [(dx, dy)] or not at all, and changes a
    life only by setting that of a player or of an EzMonster to 0. *)
Theorem move_changes_places_only (fuel : nat) (self other : ref)
    (dx dy : Z) (w : World) (r : PyVal) (w' : World) :
  dx ≠ 0 ∨ dy ≠ 0 →
  move fuel self other dx dy w = Ok r w' →
  _actors w' = _actors w ∧ next_ref w' = next_ref w ∧
  _player w' = _player w ∧ _width w' = _width w ∧ _height w' = _height w ∧
  ∀ a, cls (deref w' a) = cls (deref w a) ∧
       (stays w w' a ∨ shifted dx dy w w' a) ∧
       (life (deref w' a) = life (deref w a) ∨
        (life (deref w' a) = 0 ∧
         (cls (deref w a) = C_KeyboardPlayer ∨ cls (deref w a) = C_EzMonster))).
Proof.
  intros Hnz Hm.
  destruct (move_frame _ _ _ _ _ _ _ _ Hm) as [(Ha & Hw & Hh & Hn & Hp & Hc) Hu].
  pose proof (move_shape _ _ _ _ _ _ _ _ Hm Hnz) as Hs.
  do 5 (split; [done|]). intros a. split; [done|]. split.
  - destruct (ps_each _ _ _ _ _ _ _ Hs a) as [?|[? _]]; auto.
  - destruct (Hu a) as [?|[H0 Hk]]; [by left|]. right. split; [done|].
    destruct (cls (deref w a)); destruct Hk as [Hk|Hk]; try discriminate; auto.
Qed.

Lemma move_changes_places_only_witness :
  let w := Scenario.skip_start in
  let w' := Scenario.after_move 0%nat 0%nat 1 0 Scenario.skip_start in
  _actors w' = _actors w ∧ next_ref w' = next_ref w ∧
  _player w' = _player w ∧ _width w' = _width w ∧ _height w' = _height w ∧
  ∀ a, cls (deref w' a) = cls (deref w a) ∧
       (stays w w' a ∨ shifted 1 0 w w' a) ∧
       (life (deref w' a) = life (deref w a) ∨
        (life (deref w' a) = 0 ∧
         (cls (deref w a) = C_KeyboardPlayer ∨ cls (deref w a) = C_EzMonster))).
Proof.
  apply (move_changes_places_only 10 0%nat 0%nat 1 0 Scenario.skip_start PyTrue).
  - left. lia.
  - vm_compute. reflexivity.
Defined.

(** ** What a step moves, and where to *)

Lemma same_places_refl w : same_places w w.
Proof. by repeat split. Qed.

Lemma same_places_trans w1 w2 w3 :
  same_places w1 w2 → same_places w2 w3 → same_places w1 w3.
Proof.
  intros (Hw & Hh & H) (Hw' & Hh' & H').
  split; [congruence|]. split; [congruence|]. intros a.
  destruct (H a) as [Hc Hs], (H' a) as [Hc' Hs']. split; [congruence|].
  by eapply stays_trans.
Qed.

Lemma same_places_update r f w :
  cls (f (deref w r)) = cls (deref w r) →
  _x (f (deref w r)) = _x (deref w r) →
  _y (f (deref w r)) = _y (deref w r) →
  same_places w (update r f w).
Proof.
  intros Hc Hx Hy. split; [done|]. split; [done|]. intros a. split.
  - rewrite deref_update. by case_decide; subst.
  - by apply stays_update.
Qed.

Lemma same_places_with_actors l w : same_places w (with_actors l w).
Proof. by repeat split. Qed.

Lemma same_places_same_stage w w' :
  same_stage w w' → (∀ a, stays w w' a) → same_places w w'.
Proof. intros (_ & Hw & Hh & _ & _ & Hc) Hs. by repeat split. Qed.

Lemma same_places_bounds w w' x y :
  same_places w w' → is_in_bounds w' x y = is_in_bounds w x y.
Proof.
  intros (Hw & Hh & _).
  unfold is_in_bounds, is_in_bounds_x, is_in_bounds_y. by rewrite Hw, Hh.
Qed.

Lemma same_places_removed r w v w' :
  (if Actor_is_dead r w then remove_actor r w else Ok PyNone w) = Ok v w' →
  same_places w w'.
Proof.
  destruct (Actor_is_dead r w).
  - intros (_ & _ & ->)%remove_actor_spec. apply same_places_with_actors.
  - intros [= _ <-]. apply same_places_refl.
Qed.

Lemma fixture_unpushable c : fixture c = true → unpushable c = true.
Proof. by destruct c. Qed.

Lemma Monster_unpushable c : isinstance_Monster c = true → unpushable c = true.
Proof. by destruct c. Qed.

Lemma delayed_move_on_stage self w r w' :
  delayed_move self w = Ok r w' →
  stays w w' self ∨
  is_in_bounds w (_x (deref w' self)) (_y (deref w' self)) = true.
Proof.
  unfold delayed_move. destruct (delay self w) as [go w4| |] eqn:Ed;
    simpl; try discriminate.
  apply delay_spec in Ed as [Hd ->].
  set (w4 := update self _ w).
  assert (Hp4 : same_places w w4) by by apply same_places_update.
  destruct go; simpl.
  2:{ intros [= _ <-]. left. apply Hp4. }
  destruct (Monster_move _ _ _ _ _) as [r5 w5| |] eqn:Em;
    simpl; try discriminate.
  intros [= _ <-].
  apply Monster_move_spec in Em as (_ & _ & _ & Hself).
  destruct Hself as [[_ Hst]|(_ & _ & Hsh & Hb & _)].
  - left. eapply stays_trans; [apply Hp4 | done].
  - right. apply shifted_xy in Hsh as [-> ->].
    by rewrite <- (same_places_bounds w w4).
Qed.

Lemma pending_move_places fuel s w v w1 :
  cls (deref w s) = C_KeyboardPlayer →
  pending_move fuel s w = Ok v w1 →
  _width w1 = _width w ∧ _height w1 = _height w ∧
  ∀ a, cls (deref w1 a) = cls (deref w a) ∧
       moved_by s w w1 a ∧
       ((∀ b, b ∈ _actors w → concrete (cls (deref w b)) = true) →
        on_stage w a → on_stage w1 a).
Proof.
  intros Hc. unfold pending_move.
  assert (Hsame : ∀ w1, same_places w w1 →
    _width w1 = _width w ∧ _height w1 = _height w ∧
    ∀ a, cls (deref w1 a) = cls (deref w a) ∧
         moved_by s w w1 a ∧
         ((∀ b, b ∈ _actors w → concrete (cls (deref w b)) = true) →
          on_stage w a → on_stage w1 a)).
  { intros w2 Hp. pose proof Hp as (Hw & Hh & H).
    split; [done|]. split; [done|]. intros a. destruct (H a) as [Hca Hsa].
    split; [done|]. split; [by left|]. intros _. unfold on_stage.
    apply stays_xy in Hsa as [-> ->]. by rewrite (same_places_bounds w w2). }
  destruct (_last_event (deref w s)) as [k|];
    [|intros [= _ <-]; apply Hsame, same_places_refl].
  destruct (key_direction k) as [[dx dy]|] eqn:Ek; simpl;
    [|intros [= _ <-]; by apply Hsame, same_places_update].
  destruct (KeyboardPlayer_move _ _ _ _ _ _) as [v' wa| |] eqn:Em;
    simpl; try discriminate.
  intros [= _ <-].
  assert (Hm : move (S fuel) s s dx dy w = Ok v' wa)
    by (simpl; by rewrite Hc).
  pose proof (key_direction_nonzero _ _ _ Ek) as Hnz.
  pose proof (move_frame _ _ _ _ _ _ _ _ Hm) as [(Ha & Hw & Hh & _ & _ & Hcl) _].
  pose proof (move_shape _ _ _ _ _ _ _ _ Hm Hnz) as Hs.
  pose proof (Moved_unpushable _ _ _ _ _ _ _ (move_Moved _ _ _ _ _ _ _ _ Hm) Hnz)
    as Hu.
  assert (Hlast : same_places wa (update s (with_last_event None) wa))
    by by apply same_places_update.
  destruct Hlast as (Hw' & Hh' & Hl).
  split; [congruence|]. split; [congruence|]. intros a.
  destruct (Hl a) as [Hca Hsa]. split; [by rewrite Hca|].
  apply stays_xy in Hsa as [Hx Hy].
  destruct (unpushable (cls (deref w a))) eqn:Eu.
  - assert (Hst : stays w wa a).
    { apply Hu; [done|]. intros ->. by rewrite Hc in Eu. }
    apply stays_xy in Hst as [Hx1 Hy1]. split.
    + left. apply stays_xy. split; congruence.
    + intros _. unfold on_stage, is_in_bounds, is_in_bounds_x, is_in_bounds_y.
      simpl. by rewrite Hx, Hy, Hx1, Hy1, Hw, Hh.
  - destruct (ps_each _ _ _ _ _ _ _ Hs a) as [Hst|[Hsh _]].
    + apply stays_xy in Hst as [Hx1 Hy1]. split.
      * left. apply stays_xy. split; congruence.
      * intros _. unfold on_stage, is_in_bounds, is_in_bounds_x,
          is_in_bounds_y. simpl. by rewrite Hx, Hy, Hx1, Hy1, Hw, Hh.
    + split.
      * right. split.
        -- destruct (fixture (cls (deref w a))) eqn:Ef; [|done].
           apply fixture_unpushable in Ef. congruence.
        -- intros Hmo. apply Monster_unpushable in Hmo. congruence.
      * intros Hcon _.
        assert (Hpr : proper s s dx dy w).
        { split; [by rewrite Hc|]. split; [done|]. by rewrite Hc. }
        destruct (ps_proper _ _ _ _ _ _ _ Hs Hpr a Hsh) as [Hb _].
        apply shifted_xy in Hsh as [Hx1 Hy1].
        unfold on_stage, is_in_bounds, is_in_bounds_x, is_in_bounds_y.
        simpl. rewrite Hx, Hy, Hx1, Hy1, Hw, Hh. exact Hb.
Qed.

Lemma step_places fuel s w r w' :
  step fuel s w = Ok r w' →
  _width w' = _width w ∧ _height w' = _height w ∧
  ∀ a, (a < next_ref w)%nat →
       cls (deref w' a) = cls (deref w a) ∧
       moved_by s w w' a ∧
       ((∀ b, b ∈ _actors w → concrete (cls (deref w b)) = true) →
        on_stage w a → on_stage w' a).
Proof.
  assert (Hsame : ∀ w1, same_places w w1 →
    _width w1 = _width w ∧ _height w1 = _height w ∧
    ∀ a, (a < next_ref w)%nat →
         cls (deref w1 a) = cls (deref w a) ∧
         moved_by s w w1 a ∧
         ((∀ b, b ∈ _actors w → concrete (cls (deref w b)) = true) →
          on_stage w a → on_stage w1 a)).
  { intros w2 Hp. pose proof Hp as (Hw & Hh & H).
    split; [done|]. split; [done|]. intros a _. destruct (H a) as [Hca Hsa].
    split; [done|]. split; [by left|]. intros _. unfold on_stage.
    apply stays_xy in Hsa as [-> ->]. by rewrite (same_places_bounds w w2). }
  assert (Htail : ∀ w3 r' w4,
    (∀ a, (a < next_ref w)%nat →
          cls (deref w3 a) = cls (deref w a) ∧ stays w w3 a) →
    _width w3 = _width w → _height w3 = _height w →
    isinstance_Monster (cls (deref w s)) = true →
    fixture (cls (deref w s)) = false →
    delayed_move s w3 = Ok r' w4 →
    _width w4 = _width w ∧ _height w4 = _height w ∧
    ∀ a, (a < next_ref w)%nat →
         cls (deref w4 a) = cls (deref w a) ∧
         moved_by s w w4 a ∧
         ((∀ b, b ∈ _actors w → concrete (cls (deref w b)) = true) →
          on_stage w a → on_stage w4 a)).
  { intros w3 r' w4 H3 Hw3 Hh3 Hmo Hfx Hd.
    pose proof (delayed_move_on_stage _ _ _ _ Hd) as Hon.
    apply delayed_move_spec in Hd as ((_ & Hw4 & Hh4 & _ & _ & Hc4) & Ho4 & _).
    split; [congruence|]. split; [congruence|]. intros a Ha.
    destruct (H3 a Ha) as [Hc3 Hs3]. split; [by rewrite Hc4|].
    destruct (decide (a = s)) as [->|Hne].
    - split; [by right|]. intros _ Hin. unfold on_stage in *.
      assert (Hbd : ∀ x y, is_in_bounds w4 x y = is_in_bounds w x y).
      { intros x y. unfold is_in_bounds, is_in_bounds_x, is_in_bounds_y.
        by rewrite Hw4, Hh4, Hw3, Hh3. }
      assert (Hbd3 : ∀ x y, is_in_bounds w3 x y = is_in_bounds w x y).
      { intros x y. unfold is_in_bounds, is_in_bounds_x, is_in_bounds_y.
        by rewrite Hw3, Hh3. }
      rewrite Hbd. destruct Hon as [Hst|Hb].
      + apply stays_xy in Hst as [-> ->]. apply stays_xy in Hs3 as [-> ->].
        done.
      + by rewrite <- Hbd3.
    - assert (Hst : stays w w4 a)
        by (eapply stays_trans; [exact Hs3 | by apply Ho4]).
      split; [by left|]. intros _. unfold on_stage.
      apply stays_xy in Hst as [-> ->].
      unfold is_in_bounds, is_in_bounds_x, is_in_bounds_y.
      by rewrite Hw4, Hh4, Hw3, Hh3. }
  assert (Hmonster : cls (deref w s) = C_Monster ∨
                     cls (deref w s) = C_NormalMonster ∨
                     cls (deref w s) = C_EzMonster →
                     Monster_step s w = Ok r w' →
    _width w' = _width w ∧ _height w' = _height w ∧
    ∀ a, (a < next_ref w)%nat →
         cls (deref w' a) = cls (deref w a) ∧
         moved_by s w w' a ∧
         ((∀ b, b ∈ _actors w → concrete (cls (deref w b)) = true) →
          on_stage w a → on_stage w' a)).
  { intros Hc. rewrite Monster_step_unfold.
    destruct (if Actor_is_dead s w then _ else _) as [v w1| |] eqn:E1;
      simpl; try discriminate.
    apply same_places_removed in E1.
    set (w2 := if is_trapped s w1 then _ else _).
    assert (H2 : same_places w1 w2).
    { unfold w2. destruct (is_trapped s w1); by apply same_places_update. }
    clearbody w2.
    destruct (stuck_check s w2) as [stop w3| |] eqn:E3; simpl;
      try discriminate.
    apply stuck_check_spec in E3 as (Hs3 & Hst3 & _).
    pose proof (same_places_same_stage _ _ Hs3 Hst3) as H3.
    pose proof (same_places_trans _ _ _ (same_places_trans _ _ _ E1 H2) H3)
      as H03.
    destruct stop; [intros [= _ <-]; by apply Hsame|].
    destruct H03 as (Hw3 & Hh3 & Hall). apply Htail; try done.
    - by destruct Hc as [->|[->| ->]].
    - by destruct Hc as [->|[->| ->]]. }
  unfold step. destruct (cls (deref w s)) eqn:Ec.
  1,2,4,5,6: intros H; by apply Hsame, (same_places_removed s w r).
  - (* the player *)
    rewrite KeyboardPlayer_step_unfold.
    destruct (pending_move fuel s w) as [v w1| |] eqn:E1;
      simpl; try discriminate.
    apply pending_move_places in E1 as (Hw1 & Hh1 & H1); [|done].
    intros H.
    assert (Hp : same_places w1 w').
    { unfold KeyboardPlayer_is_dead in H.
      destruct (life (deref w1 s) =? 0); simpl in H;
        [destruct (dead (deref w1 s)); simpl in H|].
      - apply remove_actor_spec in H as (_ & _ & ->).
        apply same_places_with_actors.
      - apply remove_actor_spec in H as (_ & _ & ->).
        eapply same_places_trans; [|apply same_places_with_actors].
        by apply same_places_update.
      - injection H as _ <-. apply same_places_refl. }
    destruct Hp as (Hw' & Hh' & Hall).
    split; [congruence|]. split; [congruence|]. intros a _.
    destruct (H1 a) as (Hc1 & Hm1 & Hon1), (Hall a) as [Hca Hsa].
    split; [congruence|]. split.
    + destruct Hm1 as [Hst|?]; [left; by eapply stays_trans | by right].
    + intros Hcon Hin. specialize (Hon1 Hcon Hin). unfold on_stage in *.
      apply stays_xy in Hsa as [-> ->].
      unfold is_in_bounds, is_in_bounds_x, is_in_bounds_y in *.
      by rewrite Hw', Hh'.
  - apply Hmonster; auto.
  - apply Hmonster; auto.
  - apply Hmonster; auto.
  - (* the exploding monster *)
    rewrite ExplodingMonster_step_unfold. cbv zeta.
    set (w2 := update s _ _).
    assert (H2 : same_places w w2).
    { unfold w2. destruct (is_trapped s w).
      - eapply same_places_trans; by apply same_places_update.
      - by apply same_places_update. }
    assert (Hn2 : next_ref w2 = next_ref w)
      by (unfold w2; by destruct (is_trapped s w)).
    clearbody w2.
    destruct (if Actor_is_dead s w2 then _ else _) as [v w3| |] eqn:E3;
      simpl; try discriminate.
    assert (H3 : _width w3 = _width w2 ∧ _height w3 = _height w2 ∧
                 ∀ a, (a < next_ref w2)%nat →
                      cls (deref w3 a) = cls (deref w2 a) ∧ stays w2 w3 a).
    { destruct (Actor_is_dead s w2).
      - destruct (remove_actor s w2) as [v' wa| |] eqn:Er;
          simpl in E3; try discriminate.
        apply remove_actor_spec in Er as (_ & _ & ->).
        destruct (explode_grows s (with_actors (remove_first s (_actors w2)) w2))
          as (w3' & Ee & Hg & _).
        rewrite Ee in E3. injection E3 as _ <-.
        pose proof Hg as (Hw & Hh & _).
        split; [done|]. split; [done|]. intros a Ha.
        destruct (grows_old _ _ a Hg Ha) as (Hc & Hs & _). done.
      - injection E3 as _ <-. by repeat split. }
    destruct H2 as (Hw2 & Hh2 & Hall2), H3 as (Hw3 & Hh3 & Hall3).
    apply Htail; try congruence; try done.
    intros a Ha. destruct (Hall2 a) as [Hc2 Hs2].
    destruct (Hall3 a) as [Hc3 Hs3]; [lia|].
    split; [congruence | by eapply stays_trans].
  - (* a flame *)
    unfold Flame_step. set (w1 := update s _ w). intros H.
    apply Hsame. eapply same_places_trans;
      [|apply (same_places_removed s w1 r); exact H].
    by apply same_places_update.
Qed.

(** X13.  A step of an actor leaves the stage its size and every object its
    class.  It moves no wall and no flame, and no monster but the one that
    steps; and, when the registered actors are of the classes the game
    creates, an actor that stands on the stage still does afterwards. *)
Theorem step_moves_within_stage (fuel : nat) (s : ref) (w : World)
    (r : PyVal) (w' : World) :
  (∀ b, b ∈ _actors w → concrete (cls (deref w b)) = true) →
  step fuel s w = Ok r w' →
  _width w' = _width w ∧ _height w' = _height w ∧
  ∀ a, (a < next_ref w)%nat →
       cls (deref w' a) = cls (deref w a) ∧
       (fixture (cls (deref w a)) = true → stays w w' a) ∧
       (isinstance_Monster (cls (deref w a)) = true → a ≠ s → stays w w' a) ∧
       (on_stage w a → on_stage w' a).
Proof.
  intros Hcon (Hw & Hh & H)%step_places.
  split; [done|]. split; [done|]. intros a Ha.
  destruct (H a Ha) as (Hc & Hm & Hon). split; [done|].
  split; [|split; [|auto]].
  - intros Hf. destruct Hm as [?|[Hf' _]]; [done | congruence].
  - intros Hmo Hne. destruct Hm as [?|[_ Hs]]; [done|]. by destruct Hne; auto.
Qed.

Lemma step_moves_within_stage_witness :
  let w := Scenario.sticky_pressed in
  let w' := Setup.after_step 0%nat Scenario.sticky_pressed in
  _width w' = _width w ∧ _height w' = _height w ∧
  ∀ a, (a < next_ref w)%nat →
       cls (deref w' a) = cls (deref w a) ∧
       (fixture (cls (deref w a)) = true → stays w w' a) ∧
       (isinstance_Monster (cls (deref w a)) = true → a ≠ 0%nat →
        stays w w' a) ∧
       (on_stage w a → on_stage w' a).
Proof.
  apply (step_moves_within_stage 10 0%nat Scenario.sticky_pressed PyNone).
  - apply concrete_Forall. refine (bool_decide_unpack _ _); vm_compute; exact I.
  - vm_compute. reflexivity.
Defined.

(** ** Monsters *)

Lemma Monster_move_self self other dx dy w r w' :
  Monster_move self other dx dy w = Ok r w' →
  let nx := _x (deref w self) + _dx (deref w self) in
  let ny := _y (deref w self) + _dy (deref w self) in
  (other ≠ self → r = PyFalse ∧ w' = w) ∧
  (∀ a, _delay (deref w' a) = _delay (deref w a) ∧
        _delay_count (deref w' a) = _delay_count (deref w a)) ∧
  (∀ a, a ≠ self → _dx (deref w' a) = _dx (deref w a) ∧
                   _dy (deref w' a) = _dy (deref w a)) ∧
  (_dx (deref w' self) = _dx (deref w self) ∨
   _dx (deref w' self) = - _dx (deref w self)) ∧
  (_dy (deref w' self) = _dy (deref w self) ∨
   _dy (deref w' self) = - _dy (deref w self)) ∧
  (other = self → is_in_bounds_x w nx = false →
   _dx (deref w' self) = - _dx (deref w self)) ∧
  (other = self → is_in_bounds_y w ny = false →
   _dy (deref w' self) = - _dy (deref w self)) ∧
  (r = PyTrue → _dx (deref w' self) = _dx (deref w self) ∧
                _dy (deref w' self) = _dy (deref w self)) ∧
  (stuck (deref w' self) = true →
   stuck (deref w self) = true ∨ stick_position (deref w' self) ≠ None).
Proof.
  unfold Monster_move.
  destruct (Nat.eqb other self) eqn:Eo; simpl.
  2:{ intros [= <- <-]. apply Nat.eqb_neq in Eo.
      repeat split; auto; intros; congruence. }
  apply Nat.eqb_eq in Eo. subst other.
  set (nx := _x (deref w self) + _dx (deref w self)).
  set (ny := _y (deref w self) + _dy (deref w self)).
  destruct (is_in_bounds_x w nx) eqn:Ex; simpl.
  - unfold is_in_bounds_y at 1. simpl. fold (is_in_bounds_y w ny).
    destruct (is_in_bounds_y w ny) eqn:Ey; simpl.
    + rewrite is_in_bounds_split, Ex, Ey. simpl.
      destruct (get_actor w nx ny) as [actor|] eqn:Eg.
      * destruct (isinstance_KeyboardPlayer (cls (deref w actor))) eqn:Ek;
          [|destruct (isinstance_StickyBox (cls (deref w actor))) eqn:Es];
          intros [= <- <-].
        all: split; [done|].
        all: split; [intros a; repeat (rewrite deref_update; case_decide; subst; simpl); done|].
        all: split; [intros a Ha; repeat (rewrite deref_update; case_decide; subst; simpl); done|].
        all: repeat (rewrite deref_update; case_decide; subst; simpl).
        all: repeat split; auto; try done; try (intros; congruence).
      * unfold Actor_move, set_position. intros [= <- <-].
        split; [done|].
        split; [intros a; repeat (rewrite deref_update; case_decide; subst; simpl); done|].
        split; [intros a Ha; repeat (rewrite deref_update; case_decide; subst; simpl); done|].
        repeat (rewrite deref_update; case_decide; subst; simpl).
        all: repeat split; auto; try done; try (intros; congruence).
    + intros [= <- <-].
      split; [done|].
      split; [intros a; repeat (rewrite deref_update; case_decide; subst; simpl); done|].
      split; [intros a Ha; repeat (rewrite deref_update; case_decide; subst; simpl); done|].
      repeat (rewrite deref_update; case_decide; subst; simpl).
      all: repeat split; auto; try done; try (intros; congruence).
  - unfold is_in_bounds_y at 1. simpl. fold (is_in_bounds_y w ny).
    intros [= <- <-].
    destruct (is_in_bounds_y w ny) eqn:Ey; simpl.
    all: split; [done|].
    all: split; [intros a; repeat (rewrite deref_update; case_decide; subst; simpl); done|].
    all: split; [intros a Ha; repeat (rewrite deref_update; case_decide; subst; simpl); done|].
    all: repeat (rewrite deref_update; case_decide; subst; simpl).
    all: repeat split; auto; try done; try (intros; congruence).
Qed.

(** X14.  Whatever [Monster.move] is asked, the monster keeps the speed it
    has: each component of its direction is kept or reversed.  It is reversed
    when the monster asks itself and the target is off the stage in that
    coordinate, and kept whenever the call returns [True].  A request of
    another actor is refused and changes nothing. *)
Theorem monster_move_turns (self other : ref) (dx dy : Z) (w : World)
    (r : PyVal) (w' : World) :
  Monster_move self other dx dy w = Ok r w' →
  (other ≠ self → r = PyFalse ∧ w' = w) ∧
  Z.abs (_dx (deref w' self)) = Z.abs (_dx (deref w self)) ∧
  Z.abs (_dy (deref w' self)) = Z.abs (_dy (deref w self)) ∧
  (other = self →
   is_in_bounds_x w (_x (deref w self) + _dx (deref w self)) = false →
   _dx (deref w' self) = - _dx (deref w self)) ∧
  (other = self →
   is_in_bounds_y w (_y (deref w self) + _dy (deref w self)) = false →
   _dy (deref w' self) = - _dy (deref w self)) ∧
  (r = PyTrue → _dx (deref w' self) = _dx (deref w self) ∧
                _dy (deref w' self) = _dy (deref w self)) ∧
  (∀ a, a ≠ self → _dx (deref w' a) = _dx (deref w a) ∧
                   _dy (deref w' a) = _dy (deref w a)).
Proof.
  intros (Ho & _ & Hoth & Hx & Hy & Hbx & Hby & Ht & _)%Monster_move_self.
  split; [done|]. split; [lia|]. split; [lia|]. done.
Qed.

Lemma monster_move_turns_witness :
  let w := Scenario.boxed_in_normal in
  let w' := Scenario.after_move 0%nat 0%nat 1 1 Scenario.boxed_in_normal in
  (0%nat ≠ 0%nat → PyFalse = PyFalse ∧ w' = w) ∧
  Z.abs (_dx (deref w' 0%nat)) = Z.abs (_dx (deref w 0%nat)) ∧
  Z.abs (_dy (deref w' 0%nat)) = Z.abs (_dy (deref w 0%nat)) ∧
  (0%nat = 0%nat →
   is_in_bounds_x w (_x (deref w 0%nat) + _dx (deref w 0%nat)) = false →
   _dx (deref w' 0%nat) = - _dx (deref w 0%nat)) ∧
  (0%nat = 0%nat →
   is_in_bounds_y w (_y (deref w 0%nat) + _dy (deref w 0%nat)) = false →
   _dy (deref w' 0%nat) = - _dy (deref w 0%nat)) ∧
  (PyFalse = PyTrue → _dx (deref w' 0%nat) = _dx (deref w 0%nat) ∧
                      _dy (deref w' 0%nat) = _dy (deref w 0%nat)) ∧
  (∀ a, a ≠ 0%nat → _dx (deref w' a) = _dx (deref w a) ∧
                    _dy (deref w' a) = _dy (deref w a)).
Proof.
  apply (monster_move_turns 0%nat 0%nat 1 1 Scenario.boxed_in_normal PyFalse).
  vm_compute. reflexivity.
Defined.

Lemma delayed_move_gate self w r w' :
  delayed_move self w = Ok r w' →
  _delay (deref w self) ≠ 0 ∧
  ((r = PyNone ∧ same_places w w' ∧
    (_delay_count (deref w self) + 1) `mod` _delay (deref w self) ≠ 0 ∧
    (∀ a, _dx (deref w' a) = _dx (deref w a) ∧
          _dy (deref w' a) = _dy (deref w a))) ∨
   (r = PyTrue ∧
    (_delay_count (deref w self) + 1) `mod` _delay (deref w self) = 0)) ∧
  _delay_count (deref w' self)
  = (_delay_count (deref w self) + 1) `mod` _delay (deref w self) ∧
  (stuck (deref w' self) = true →
   stuck (deref w self) = true ∨ stick_position (deref w' self) ≠ None).
Proof.
  unfold delayed_move. destruct (delay self w) as [go w4| |] eqn:Ed;
    simpl; try discriminate.
  pose proof Ed as [Hd ->]%delay_spec. unfold delay in Ed.
  destruct (_delay (deref w self) =? 0); [done|]. injection Ed as Hgo.
  set (c := (_delay_count (deref w self) + 1) `mod` _delay (deref w self))
    in *.
  set (w4 := update self (with_delay_count c) w).
  destruct go; simpl.
  - destruct (Monster_move _ _ _ _ _) as [r5 w5| |] eqn:Em;
      simpl; try discriminate.
    intros [= <- <-]. split; [done|].
    apply Monster_move_self in Em as (_ & Hdl & _ & _ & _ & _ & _ & _ & Hst).
    split; [right; split; [done | by apply Z.eqb_eq]|].
    destruct (Hdl self) as [_ ->]. unfold w4 at 1. upd.
    split; [done|]. intros H. destruct (Hst H) as [H'|H']; [left | by right].
    unfold w4 in H'. by rewrite deref_update_eq in H'.
  - intros [= <- <-]. split; [done|]. split.
    + left. split; [done|]. split; [by apply same_places_update|].
      split; [by apply Z.eqb_neq|].
      intros a. unfold w4. rewrite deref_update. by case_decide; subst.
    + unfold w4. upd. split; [done|]. auto.
Qed.

Lemma stuck_check_cases self w b w' :
  stuck_check self w = Ok b w' →
  (∀ a, _delay (deref w' a) = _delay (deref w a) ∧
        _delay_count (deref w' a) = _delay_count (deref w a)) ∧
  ((b = true ∧ w' = w ∧ stuck (deref w self) = true ∧
    ∃ p, stick_position (deref w self) = Some p) ∨
   (b = false ∧ stuck (deref w' self) = false)).
Proof.
  unfold stuck_check. destruct (stuck (deref w self)) eqn:Es.
  - destruct (stick_position (deref w self)) as [[px py]|] eqn:Ep;
      [|discriminate].
    case_decide; intros [= <- <-].
    + split; [done|]. left. eauto.
    + split; [|right; split; [done | by upd]].
      intros a. repeat (rewrite deref_update; case_decide; subst; simpl); done.
  - intros [= <- <-]. split; [done|]. by right.
Qed.

Lemma Monster_step_parts self w r w' :
  Monster_step self w = Ok r w' →
  ∃ w3 stop,
    same_places w w3 ∧
    (∀ a, _dx (deref w3 a) = _dx (deref w a) ∧
          _dy (deref w3 a) = _dy (deref w a) ∧
          _delay (deref w3 a) = _delay (deref w a) ∧
          _delay_count (deref w3 a) = _delay_count (deref w a)) ∧
    ((stop = true ∧ r = PyNone ∧ w' = w3 ∧ stuck (deref w3 self) = true ∧
      ∃ p, stick_position (deref w3 self) = Some p) ∨
     (stop = false ∧ stuck (deref w3 self) = false ∧
      delayed_move self w3 = Ok r w')).
Proof.
  rewrite Monster_step_unfold.
  destruct (if Actor_is_dead self w then _ else _) as [v w1| |] eqn:E1;
    simpl; try discriminate.
  assert (Hd1 : deref w1 = deref w).
  { destruct (Actor_is_dead self w);
      [apply remove_actor_spec in E1 as (_ & _ & ->) | injection E1 as _ <-];
      done. }
  apply same_places_removed in E1.
  set (w2 := if is_trapped self w1 then _ else _).
  assert (H2 : same_places w1 w2 ∧
               ∀ a, _dx (deref w2 a) = _dx (deref w1 a) ∧
                    _dy (deref w2 a) = _dy (deref w1 a) ∧
                    _delay (deref w2 a) = _delay (deref w1 a) ∧
                    _delay_count (deref w2 a) = _delay_count (deref w1 a)).
  { unfold w2. destruct (is_trapped self w1);
      (split; [by apply same_places_update|]); intros a;
      rewrite deref_update; by case_decide; subst. }
  destruct H2 as [H2 Hf2]. clearbody w2.
  destruct (stuck_check self w2) as [stop w3| |] eqn:E3; simpl;
    try discriminate.
  pose proof (stuck_check_spec _ _ _ _ E3) as (Hs3 & Hst3 & _ & _ & Hdx & Hdy).
  apply stuck_check_cases in E3 as [Hf3 Hcase].
  intros H. exists w3, stop.
  split.
  { eapply same_places_trans; [eapply same_places_trans; [exact E1 | exact H2]|].
    by apply same_places_same_stage. }
  split.
  { intros a. destruct (Hf3 a) as [-> ->], (Hf2 a) as (Ha & Hb & -> & ->).
    by rewrite Hdx, Hdy, Ha, Hb, Hd1. }
  destruct Hcase as [(-> & -> & Hs & Hp)|[-> Hs]].
  - left. injection H as <- <-. done.
  - right. done.
Qed.

(** X15.  [Monster.step] returns [True] exactly at the steps where the delay
    counter of the monster wraps to 0, the only ones at which it asks itself
    to move; at every other step it returns [None], and neither a place nor a
    direction has changed. *)
Theorem monster_step_gated (self : ref) (w : World) (r : PyVal) (w' : World) :
  Monster_step self w = Ok r w' →
  (r = PyTrue ∧
   (_delay_count (deref w self) + 1) `mod` _delay (deref w self) = 0 ∧
   _delay_count (deref w' self) = 0) ∨
  (r = PyNone ∧ same_places w w' ∧
   ∀ a, _dx (deref w' a) = _dx (deref w a) ∧
        _dy (deref w' a) = _dy (deref w a)).
Proof.
  intros (w3 & stop & Hp & Hf & Hcase)%Monster_step_parts.
  destruct Hcase as [(_ & -> & -> & _)|(_ & _ & Hd)].
  - right. split; [done|]. split; [done|]. intros a.
    by destruct (Hf a) as (-> & -> & _).
  - apply delayed_move_gate in Hd as (_ & Hg & Hc & _).
    destruct (Hf self) as (_ & _ & Hdl & Hdc). rewrite Hdl, Hdc in *.
    destruct Hg as [(-> & Hp' & _ & Hdir)|[-> H0]].
    + right. split; [done|]. split; [by eapply same_places_trans|].
      intros a. destruct (Hdir a) as [-> ->]. by destruct (Hf a) as (-> & -> & _).
    + left. split; [done|]. split; [done|]. by rewrite Hc.
Qed.

Lemma monster_step_gated_witness :
  let w := Scenario.boxed_in_normal in
  let w' := Setup.after_step 0%nat Scenario.boxed_in_normal in
  (PyNone = PyTrue ∧
   (_delay_count (deref w 0%nat) + 1) `mod` _delay (deref w 0%nat) = 0 ∧
   _delay_count (deref w' 0%nat) = 0) ∨
  (PyNone = PyNone ∧ same_places w w' ∧
   ∀ a, _dx (deref w' a) = _dx (deref w a) ∧
        _dy (deref w' a) = _dy (deref w a)).
Proof.
  apply (monster_step_gated 0%nat Scenario.boxed_in_normal PyNone).
  vm_compute. reflexivity.
Defined.

(** X16.  Whenever [Monster.step] returns, a monster that is stuck knows where
    the actor it sticks to stood: [stick_position] is set.  (The flag alone,
    as [StickyBox.move] sets it, makes the next step raise.) *)
Theorem monster_step_stick_position (self : ref) (w : World) (r : PyVal)
    (w' : World) :
  Monster_step self w = Ok r w' →
  stuck (deref w' self) = true → stick_position (deref w' self) ≠ None.
Proof.
  intros (w3 & stop & _ & _ & Hcase)%Monster_step_parts Hs.
  destruct Hcase as [(_ & _ & -> & _ & p & ->)|(_ & Hs3 & Hd)]; [done|].
  apply delayed_move_gate in Hd as (_ & _ & _ & Hst).
  destruct (Hst Hs) as [?|?]; [congruence | done].
Qed.

Lemma monster_step_stick_position_witness :
  stick_position (deref (Setup.after_step 1%nat Setup.stuck_pair) 1%nat)
  ≠ None.
Proof.
  apply (monster_step_stick_position 1%nat Setup.stuck_pair PyNone).
  - vm_compute. reflexivity.
  - reflexivity.
Defined.

(** X17.  A live stuck Monster, NormalMonster or EzMonster whose
    [stick_position] still holds the actor it sticks to does nothing in its
    step but update its life: it does not move, and its delay counter does
    not advance. *)
Theorem stuck_monster_waits (fuel : nat) (self : ref) (w : World)
    (px py : Z) :
  cls (deref w self) = C_Monster ∨ cls (deref w self) = C_NormalMonster ∨
  cls (deref w self) = C_EzMonster →
  life (deref w self) ≠ 0 →
  stuck (deref w self) = true →
  stick_position (deref w self) = Some (px, py) →
  get_actor w px py = stick_with (deref w self) →
  ∃ w', step fuel self w = Ok PyNone w' ∧
        _actors w' = _actors w ∧
        (∀ a, a ≠ self → deref w' a = deref w a) ∧
        with_life 0 (deref w' self) = with_life 0 (deref w self) ∧
        life (deref w' self)
        = if is_trapped self w then life (deref w self) - 1 else 5.
Proof.
  intros Hc Hl Hs Hp Hg.
  destruct (step_Monster fuel self w Hc) as (-> & _).
  rewrite Monster_step_unfold. unfold Actor_is_dead.
  apply Z.eqb_neq in Hl. rewrite Hl. simpl.
  unfold stuck_check.
  destruct (is_trapped self w); upd; rewrite Hs, Hp;
    rewrite get_actor_update by done; rewrite decide_True by done; simpl;
    (eexists; split; [done|]); (split; [done|]);
    (split; [intros a Ha; by upd|]); by upd.
Qed.

Lemma stuck_monster_waits_witness :
  ∃ w', step 0 1%nat Setup.stuck_pair = Ok PyNone w' ∧
        _actors w' = _actors Setup.stuck_pair ∧
        (∀ a, a ≠ 1%nat → deref w' a = deref Setup.stuck_pair a) ∧
        with_life 0 (deref w' 1%nat)
        = with_life 0 (deref Setup.stuck_pair 1%nat) ∧
        life (deref w' 1%nat)
        = if is_trapped 1%nat Setup.stuck_pair
          then life (deref Setup.stuck_pair 1%nat) - 1 else 5.
Proof.
  apply (stuck_monster_waits 0 1%nat Setup.stuck_pair 1 1);
    [right; left; reflexivity | vm_compute; discriminate | reflexivity
    | reflexivity | vm_compute; reflexivity].
Defined.

(** ** Whole runs of the game *)

Lemma player_event_places key w r w1 :
  player_event key w = Ok r w1 →
  same_places w w1 ∧ next_ref w1 = next_ref w ∧ _actors w1 = _actors w ∧
  ∀ a, life (deref w1 a) = life (deref w a).
Proof.
  unfold player_event. destruct (_player w) as [p|]; [|discriminate].
  unfold handle_event.
  destruct (cls (deref w p)) eqn:Hc; try discriminate; intros [= _ <-].
  - split; [apply same_places_refl | done].
  - split; [by apply same_places_update|]. split; [done|]. split; [done|].
    intros a. rewrite deref_update. by case_decide; subst.
Qed.

(** X18.  In no run of the game, whatever the steps and the keys pressed, does
    a wall or a flame change its place or its class. *)
Theorem wall_never_moves (fuel : nat) (self : ref) (ts : list bool)
    (w w' : World) (a : ref) :
  game_run fuel self ts w w' →
  (a < next_ref w)%nat → fixture (cls (deref w a)) = true →
  stays w w' a ∧ cls (deref w' a) = cls (deref w a).
Proof.
  assert (Hstep : ∀ s w r w1, step fuel s w = Ok r w1 →
            (a < next_ref w)%nat → fixture (cls (deref w a)) = true →
            (a < next_ref w1)%nat ∧ stays w w1 a ∧
            cls (deref w1 a) = cls (deref w a)).
  { intros s w0 r w1 Hs Ha Hf.
    pose proof (step_frame _ _ _ _ _ Hs) as [Hn _].
    apply step_places in Hs as (_ & _ & H).
    destruct (H a Ha) as (Hc & Hm & _). split; [lia|]. split; [|done].
    destruct Hm as [?|[Hf' _]]; [done | congruence]. }
  induction 1 as [w|ts w s r w1 w' _ Hs _ IH|ts w key r w1 w' Hk _ IH
                 |ts w r w1 w' Hs _ IH]; intros Ha Hf.
  - done.
  - destruct (Hstep _ _ _ _ Hs Ha Hf) as (Ha1 & Hst & Hc).
    destruct IH as [Hst' Hc']; [done | by rewrite Hc|].
    split; [by eapply stays_trans | congruence].
  - apply player_event_places in Hk as ((_ & _ & H) & Hn & _).
    destruct (H a) as [Hc Hst].
    destruct IH as [Hst' Hc']; [by rewrite Hn | by rewrite Hc|].
    split; [by eapply stays_trans | congruence].
  - destruct (Hstep _ _ _ _ Hs Ha Hf) as (Ha1 & Hst & Hc).
    destruct IH as [Hst' Hc']; [done | by rewrite Hc|].
    split; [by eapply stays_trans | congruence].
Qed.

Lemma wall_never_moves_witness :
  stays Setup.wall_pressed (Setup.after_step 0%nat Setup.wall_pressed) 2%nat ∧
  cls (deref (Setup.after_step 0%nat Setup.wall_pressed) 2%nat)
  = cls (deref Setup.wall_pressed 2%nat).
Proof.
  apply (wall_never_moves 10 0%nat [is_trapped 0%nat Setup.wall_pressed]
           Setup.wall_pressed (Setup.after_step 0%nat Setup.wall_pressed)
           2%nat).
  - apply (run_self 10 0%nat [] Setup.wall_pressed PyNone
             (Setup.after_step 0%nat Setup.wall_pressed));
      [vm_compute; reflexivity | apply run_done].
  - vm_compute. lia.
  - reflexivity.
Defined.

Lemma step_actors fuel s w r w' :
  step fuel s w = Ok r w' →
  (∀ a, a ∈ _actors w' → a ∈ _actors w ∨ (next_ref w ≤ a)%nat) ∧
  (cls (deref w s) = C_KeyboardPlayer → life (deref w s) = 0 →
   life (deref w' s) = 0).
Proof.
  assert (Hrem : ∀ w0 v w1,
            (if Actor_is_dead s w0 then remove_actor s w0 else Ok PyNone w0)
            = Ok v w1 →
            ∀ a, a ∈ _actors w1 → a ∈ _actors w0).
  { intros w0 v w1. destruct (Actor_is_dead s w0).
    - intros (_ & _ & ->)%remove_actor_spec a. apply remove_first_elem_of.
    - by intros [= _ <-]. }
  assert (Hmonster : Monster_step s w = Ok r w' →
            ∀ a, a ∈ _actors w' → a ∈ _actors w).
  { rewrite Monster_step_unfold.
    destruct (if Actor_is_dead s w then _ else _) as [v w1| |] eqn:E1;
      simpl; try discriminate.
    pose proof (Hrem _ _ _ E1) as H1.
    set (w2 := if is_trapped s w1 then _ else _).
    assert (H2 : _actors w2 = _actors w1)
      by (unfold w2; by destruct (is_trapped s w1)).
    clearbody w2.
    destruct (stuck_check s w2) as [stop w3| |] eqn:E3; simpl;
      try discriminate.
    apply stuck_check_spec in E3 as ((H3 & _) & _).
    destruct stop.
    - intros [= _ <-] a. rewrite H3, H2. auto.
    - intros ((H4 & _) & _)%delayed_move_spec a. rewrite H4, H3, H2. auto. }
  unfold step. destruct (cls (deref w s)) eqn:Ec.
  1,2,4,5,6: intros H; split; [intros a Ha; left; by eapply Hrem | done].
  - rewrite KeyboardPlayer_step_unfold.
    destruct (pending_move fuel s w) as [v w1| |] eqn:E1;
      simpl; try discriminate.
    apply pending_move_frame in E1 as [(Ha1 & _) Hu1]; [|done].
    destruct (KeyboardPlayer_is_dead_frame s w1) as [(Ha2 & _) Hl2].
    destruct (KeyboardPlayer_is_dead s w1) as [d w2]. simpl in *.
    intros H.
    assert (Hd : deref w' = deref w2 ∧
                 ∀ a, a ∈ _actors w' → a ∈ _actors w2).
    { destruct d; [apply remove_actor_spec in H as (_ & _ & ->)
                  | injection H as _ <-]; (split; [done|]); [|done].
      intros a. apply remove_first_elem_of. }
    destruct Hd as [Hd Hin]. split.
    + intros a Ha. left. rewrite <- Ha1, <- Ha2. auto.
    + intros _ H0. rewrite Hd, Hl2.
      destruct (Hu1 s) as [->|[? _]]; done.
  - split; [intros a Ha; left; by apply Hmonster | done].
  - split; [intros a Ha; left; by apply Hmonster | done].
  - split; [intros a Ha; left; by apply Hmonster | done].
  - rewrite ExplodingMonster_step_unfold. cbv zeta.
    set (w2 := update s _ _).
    assert (H2 : _actors w2 = _actors w ∧ next_ref w2 = next_ref w)
      by (unfold w2; by destruct (is_trapped s w)).
    destruct H2 as [H2 Hn2]. clearbody w2.
    destruct (if Actor_is_dead s w2 then _ else _) as [v w3| |] eqn:E3;
      simpl; try discriminate.
    intros ((H4 & _) & _)%delayed_move_spec.
    split; [|done]. intros a. rewrite H4.
    destruct (Actor_is_dead s w2).
    + destruct (remove_actor s w2) as [v' wa| |] eqn:Er;
        simpl in E3; try discriminate.
      apply remove_actor_spec in Er as (_ & _ & ->).
      destruct (explode_grows s (with_actors (remove_first s (_actors w2)) w2))
        as (w3' & Ee & (_ & _ & _ & _ & Hg & _) & _).
      rewrite Ee in E3. injection E3 as _ <-.
      intros Ha. destruct (Hg a Ha) as [Hin|Hnew].
      * left. simpl in Hin. rewrite <- H2. by eapply remove_first_elem_of.
      * right. simpl in Hnew. lia.
    + injection E3 as _ <-. rewrite H2. auto.
  - unfold Flame_step. set (w1 := update s _ w). intros H.
    split; [|done]. intros a Ha. left.
    by apply (Hrem w1 r w').
Qed.

(** X19.  An actor that has left the list never comes back, in any run of the
    game: only new objects are registered.  And the death of a player is
    final: its life stays 0. *)
Theorem gone_for_good (fuel : nat) (self : ref) (ts : list bool)
    (w w' : World) (a : ref) :
  game_run fuel self ts w w' →
  (a < next_ref w)%nat →
  (a ∉ _actors w → a ∉ _actors w') ∧
  (cls (deref w a) = C_KeyboardPlayer → life (deref w a) = 0 →
   life (deref w' a) = 0).
Proof.
  assert (Hstep : ∀ s w r w1, step fuel s w = Ok r w1 →
            (a < next_ref w)%nat →
            (a < next_ref w1)%nat ∧
            (a ∉ _actors w → a ∉ _actors w1) ∧
            (cls (deref w a) = C_KeyboardPlayer →
             cls (deref w1 a) = C_KeyboardPlayer ∧
             (life (deref w a) = 0 → life (deref w1 a) = 0))).
  { intros s w0 r w1 Hs Ha.
    pose proof (step_frame _ _ _ _ _ Hs) as [Hn Hfr].
    pose proof (step_places _ _ _ _ _ Hs) as (_ & _ & Hpl).
    apply step_actors in Hs as [Hin Hown].
    split; [lia|]. split.
    - intros Hno Hin1. destruct (Hin a Hin1); [done | lia].
    - intros Hc. destruct (Hpl a Ha) as [Hc1 _]. split; [congruence|].
      intros H0. destruct (decide (a = s)) as [->|Hne]; [auto|].
      destruct (Hfr a Hne Ha) as [_ [->|[? _]]]; done. }
  induction 1 as [w|ts w s r w1 w' _ Hs _ IH|ts w key r w1 w' Hk _ IH
                 |ts w r w1 w' Hs _ IH]; intros Ha.
  - done.
  - destruct (Hstep _ _ _ _ Hs Ha) as (Ha1 & Hno & Hp).
    destruct (IH Ha1) as [Hno' Hp']. split; [auto|].
    intros Hc H0. destruct (Hp Hc) as [Hc1 Hl]. auto.
  - apply player_event_places in Hk as ((_ & _ & H) & Hn & Hact & Hl).
    destruct IH as [Hno' Hp']; [by rewrite Hn|]. rewrite Hact in Hno'.
    split; [done|]. intros Hc H0. apply Hp'.
    + destruct (H a) as [-> _]. done.
    + by rewrite Hl.
  - destruct (Hstep _ _ _ _ Hs Ha) as (Ha1 & Hno & Hp).
    destruct (IH Ha1) as [Hno' Hp']. split; [auto|].
    intros Hc H0. destruct (Hp Hc) as [Hc1 Hl]. auto.
Qed.

Lemma gone_for_good_witness :
  (0%nat ∉ _actors (Setup.after_step 1%nat Setup.buried)) ∧
  life (deref (Setup.after_step 1%nat Setup.buried) 0%nat) = 0.
Proof.
  destruct (gone_for_good 10 1%nat [is_trapped 1%nat Setup.buried]
              Setup.buried (Setup.after_step 1%nat Setup.buried) 0%nat)
    as [Hgone Hdead].
  - apply (run_self 10 1%nat [] Setup.buried PyNone
             (Setup.after_step 1%nat Setup.buried));
      [vm_compute; reflexivity | apply run_done].
  - vm_compute. lia.
  - split.
    + apply Hgone. intros H. apply (bool_decide_pack _) in H.
      vm_compute in H. exact H.
    + apply Hdead; reflexivity.
Defined.

Lemma Stage_step_from_inert fuel loops :
  ∀ i w, inert w = true → (length (_actors w) - i < loops)%nat →
         Stage_step_from fuel loops i w = Ok (drop i (_actors w)) w.
Proof.
  induction loops as [|n IH]; intros i w Hin Hl; [lia|].
  simpl. destruct (_actors w !! i) as [a|] eqn:Ea.
  - assert (Hs : step fuel a w = Ok PyNone w).
    { unfold inert in Hin. rewrite forallb_forall in Hin.
      specialize (Hin a). rewrite <- list_elem_of_In in Hin.
      specialize (Hin (list_elem_of_lookup_2 _ _ _ Ea)).
      unfold step, Actor_step, Actor_is_dead.
      destruct (cls (deref w a)); try discriminate;
        by apply negb_true_iff in Hin as ->. }
    rewrite Hs. simpl.
    apply lookup_lt_Some in Ea as Hlt.
    rewrite IH by (done || lia). simpl.
    by rewrite (drop_S _ _ _ Ea).
  - apply lookup_ge_None in Ea. by rewrite drop_ge.
Qed.

(** X20.  On a stage that holds only live boxes, walls and plain actors a step
    of the stage visits every actor once and changes nothing: none of them
    ever acts on its own. *)
Theorem quiet_stage_step (fuel : nat) (w : World) :
  inert w = true → (length (_actors w) < fuel)%nat →
  Stage_step fuel w = Ok (_actors w) w.
Proof.
  intros Hin Hl. unfold Stage_step.
  rewrite Stage_step_from_inert by (done || lia). done.
Qed.

Lemma quiet_stage_step_witness :
  Stage_step 10 Setup.warehouse = Ok (_actors Setup.warehouse) Setup.warehouse.
Proof.
  apply (quiet_stage_step 10 Setup.warehouse); [reflexivity | vm_compute; lia].
Defined.

(** ** The explosion *)

Lemma first_at_remove_first w x y r l :
  get_position w r ≠ (x, y) →
  first_at w x y (remove_first r l) = first_at w x y l.
Proof.
  intros Hr. induction l as [|a l IH]; simpl; [done|].
  destruct (Nat.eqb a r) eqn:E.
  - apply Nat.eqb_eq in E. subst a.
    apply at_cell_false in Hr. by rewrite Hr.
  - simpl. by rewrite IH.
Qed.

Lemma exploded_cell_bounds cx cy w x y :
  is_in_bounds (exploded_cell cx cy w) x y = is_in_bounds w x y.
Proof.
  unfold exploded_cell.
  destruct (get_actor w cx cy) as [r|]; simpl; [|done].
  by destruct (isinstance_KeyboardPlayer _).
Qed.

Lemma exploded_cell_first_at cx cy w x y l :
  (∀ a, a ∈ l → (a < next_ref w)%nat) →
  first_at (exploded_cell cx cy w) x y l = first_at w x y l.
Proof.
  intros Hl. apply first_at_ext. intros a Ha.
  apply exploded_cell_old_place. specialize (Hl a Ha). lia.
Qed.

Lemma exploded_cell_elsewhere cx cy w x y :
  refs_allocated w → (x, y) ≠ (cx, cy) →
  get_actor (exploded_cell cx cy w) x y = get_actor w x y.
Proof.
  intros Hal Hne. unfold get_actor.
  rewrite exploded_cell_actors, first_at_app.
  assert (Hnew : first_at (exploded_cell cx cy w) x y [next_ref w] = None).
  { simpl. replace (at_cell _ x y (next_ref w)) with false; [done|].
    symmetry. apply at_cell_false. unfold get_position.
    rewrite exploded_cell_flame. simpl. congruence. }
  rewrite Hnew.
  destruct (get_actor w cx cy) as [r|] eqn:Eg.
  - rewrite exploded_cell_first_at
      by (intros a Ha; by apply Hal, (remove_first_elem_of r)).
    rewrite first_at_remove_first.
    + by destruct (first_at w x y (_actors w)).
    + apply get_actor_Some in Eg as [_ ->]. congruence.
  - rewrite exploded_cell_first_at by auto.
    by destruct (first_at w x y (_actors w)).
Qed.

Lemma exploded_cell_here cx cy w :
  refs_allocated w → one_per_cell w →
  get_actor (exploded_cell cx cy w) cx cy = Some (next_ref w).
Proof.
  intros Hal Hone. unfold get_actor.
  rewrite exploded_cell_actors, first_at_app.
  assert (Hnew : first_at (exploded_cell cx cy w) cx cy [next_ref w]
                 = Some (next_ref w)).
  { simpl. replace (at_cell _ cx cy (next_ref w)) with true; [done|].
    symmetry. apply at_cell_true. unfold get_position.
    by rewrite exploded_cell_flame. }
  rewrite Hnew.
  apply one_per_cell_pairwise in Hone as [Hnd Hinj].
  destruct (get_actor w cx cy) as [r|] eqn:Eg.
  - rewrite exploded_cell_first_at
      by (intros a Ha; by apply Hal, (remove_first_elem_of r)).
    replace (first_at w cx cy (remove_first r (_actors w))) with (@None ref);
      [done|].
    symmetry. apply first_at_None. intros a Ha Hpos.
    apply get_actor_Some in Eg as [Hr Hrpos].
    assert (a = r).
    { apply Hinj; [by eapply remove_first_elem_of | done | congruence]. }
    subst a. by apply (remove_first_gone r (_actors w)).
  - rewrite exploded_cell_first_at by auto.
    fold (get_actor w cx cy). by rewrite Eg.
Qed.

Lemma explode_cells_flames cells :
  ∀ w w' v,
    NoDup cells → refs_allocated w → one_per_cell w →
    explode_cells cells w = Ok v w' →
    (∀ c, c ∈ cells → is_in_bounds w c.1 c.2 = true →
          ∃ f, get_actor w' c.1 c.2 = Some f ∧ (next_ref w ≤ f)%nat ∧
               deref w' f = Flame__init__ c.1 c.2 1) ∧
    (∀ x y, (x, y) ∉ cells → get_actor w' x y = get_actor w x y).
Proof.
  induction cells as [|c cells IH]; intros w w' v Hnd Hal Hone; simpl.
  - intros [= _ <-]. split; [intros c Hc; inversion Hc | done].
  - apply NoDup_cons in Hnd as [Hc Hnd].
    destruct (explode_cell c.1 c.2 w) as [v1 w1| |] eqn:E1;
      simpl; try discriminate.
    intros E.
    destruct (explode_cell_grows c.1 c.2 w) as (w1' & E1' & Hg1 & Hal1 & Hone1).
    rewrite E1 in E1'. injection E1' as Hv Hw1. subst v1 w1'.
    specialize (Hal1 Hal). specialize (Hone1 Hal Hone).
    destruct (explode_cells_grows cells w1) as (w'' & E' & Hg & _).
    rewrite E in E'. injection E' as -> <-.
    destruct (IH _ _ _ Hnd Hal1 Hone1 E) as [Hfl Hel].
    assert (Hb : ∀ x y, is_in_bounds w1 x y = is_in_bounds w x y).
    { intros x y. destruct Hg1 as (Hw & Hh & _).
      unfold is_in_bounds, is_in_bounds_x, is_in_bounds_y.
      by rewrite Hw, Hh. }
    pose proof Hg1 as (_ & _ & _ & Hn1 & _).
    split.
    + intros d Hd Hbd. apply elem_of_cons in Hd as [->|Hd].
      * rewrite explode_cell_in in E1 by done. injection E1 as <-.
        exists (next_ref w). destruct c as [cx cy]. simpl in *.
        rewrite Hel by done. rewrite exploded_cell_here by done.
        split; [done|]. split; [done|].
        destruct Hg as (_ & _ & _ & _ & _ & Hold).
        destruct (Hold (next_ref w)) as [->|[Hk _]].
        -- rewrite exploded_cell_next. lia.
        -- apply exploded_cell_flame.
        -- by rewrite exploded_cell_flame in Hk.
      * destruct (Hfl d Hd) as (f & Hf & Hge & Hfl'); [by rewrite Hb|].
        exists f. split; [done|]. split; [lia | done].
    + intros x y Hxy. apply not_elem_of_cons in Hxy as [Hne Hxy].
      rewrite Hel by done.
      destruct (is_in_bounds w c.1 c.2) eqn:Ebc.
      * rewrite explode_cell_in in E1 by done. injection E1 as <-.
        apply exploded_cell_elsewhere; [done|]. by destruct c.
      * rewrite explode_cell_out in E1 by done. by injection E1 as <-.
Qed.

Lemma block3_spec x y cx cy :
  (cx, cy) ∈ block3 x y ↔ (x - 1 ≤ cx ≤ x + 1 ∧ y - 1 ≤ cy ≤ y + 1).
Proof.
  unfold block3. cbn. rewrite !elem_of_cons, elem_of_nil. split.
  - intros H. repeat destruct H as [H|H]; try done; injection H; lia.
  - intros [Hx Hy].
    assert (cx = x - 1 ∨ cx = x ∨ cx = x + 1) as [->|[->| ->]] by lia;
      (assert (cy = y - 1 ∨ cy = y ∨ cy = y + 1) as [->|[->| ->]] by lia);
      tauto.
Qed.

Lemma block3_NoDup x y : NoDup (block3 x y).
Proof.
  unfold block3. cbn.
  repeat (apply NoDup_cons; split;
          [rewrite ?elem_of_cons, elem_of_nil; intros H;
           repeat destruct H as [H|H]; try done; injection H; lia|]).
  apply NoDup_nil_2.
Qed.

(** X21.  On a stage with one actor per cell the explosion returns [True] and
    leaves, on every cell of the stage next to the monster or under it, a new
    flame with the life and the delay of its constructor, which is the actor
    found there.  On every other cell the actor found is who it was. *)
Theorem explosion_leaves_flames (self : ref) (w : World) :
  refs_allocated w → one_per_cell w →
  ∃ w', explode self w = Ok PyTrue w' ∧
        (∀ cx cy,
           _x (deref w self) - 1 ≤ cx ≤ _x (deref w self) + 1 →
           _y (deref w self) - 1 ≤ cy ≤ _y (deref w self) + 1 →
           is_in_bounds w cx cy = true →
           ∃ f, get_actor w' cx cy = Some f ∧ (next_ref w ≤ f)%nat ∧
                deref w' f = Flame__init__ cx cy 1) ∧
        (∀ x y,
           ¬ (_x (deref w self) - 1 ≤ x ≤ _x (deref w self) + 1 ∧
              _y (deref w self) - 1 ≤ y ≤ _y (deref w self) + 1) →
           get_actor w' x y = get_actor w x y).
Proof.
  intros Hal Hone.
  destruct (explode_grows self w) as (w' & E & _).
  exists w'. split; [done|]. unfold explode in E.
  destruct (explode_cells_flames _ _ _ _ (block3_NoDup _ _) Hal Hone E)
    as [Hfl Hel].
  split.
  - intros cx cy Hx Hy Hb.
    apply (Hfl (cx, cy)); [by apply block3_spec | done].
  - intros x y Hout. apply Hel. by rewrite block3_spec.
Qed.

Lemma explosion_leaves_flames_witness :
  ∃ w', explode 0%nat Scenario.boxed_in = Ok PyTrue w' ∧
        (∀ cx cy,
           _x (deref Scenario.boxed_in 0%nat) - 1 ≤ cx
           ≤ _x (deref Scenario.boxed_in 0%nat) + 1 →
           _y (deref Scenario.boxed_in 0%nat) - 1 ≤ cy
           ≤ _y (deref Scenario.boxed_in 0%nat) + 1 →
           is_in_bounds Scenario.boxed_in cx cy = true →
           ∃ f, get_actor w' cx cy = Some f ∧
                (next_ref Scenario.boxed_in ≤ f)%nat ∧
                deref w' f = Flame__init__ cx cy 1) ∧
        (∀ x y,
           ¬ (_x (deref Scenario.boxed_in 0%nat) - 1 ≤ x
              ≤ _x (deref Scenario.boxed_in 0%nat) + 1 ∧
              _y (deref Scenario.boxed_in 0%nat) - 1 ≤ y
              ≤ _y (deref Scenario.boxed_in 0%nat) + 1) →
           get_actor w' x y = get_actor Scenario.boxed_in x y).
Proof.
  apply (explosion_leaves_flames 0%nat Scenario.boxed_in).
  - apply refs_allocated_Forall.
    refine (bool_decide_unpack _ _); vm_compute; exact I.
  - refine (bool_decide_unpack _ _); vm_compute; exact I.
Defined.

(** ** Setting the stage up *)

Lemma deref_spawn a w r :
  deref (spawn a w) r = if decide (next_ref w = r) then a else deref w r.
Proof. unfold spawn. simpl. apply (deref_alloc a w r). Qed.

Lemma spawn_one_per_cell a w :
  refs_allocated w → one_per_cell w → get_actor w (_x a) (_y a) = None →
  one_per_cell (spawn a w) ∧ refs_allocated (spawn a w).
Proof.
  intros Hal Hone Hg. split.
  - unfold one_per_cell. unfold spawn at 2. simpl. rewrite fmap_app. simpl.
    assert (Hold : get_position (spawn a w) <$> _actors w
                   = get_position w <$> _actors w).
    { apply list_fmap_ext. intros i r Hr. unfold get_position.
      rewrite deref_spawn. case_decide; [|done].
      apply list_elem_of_lookup_2, Hal in Hr. lia. }
    rewrite Hold. apply NoDup_app. split; [done|]. split.
    + intros p Hp Hnew. apply list_elem_of_singleton in Hnew. subst p.
      apply list_elem_of_fmap in Hp as (r & Hpos & Hr).
      rewrite get_actor_None in Hg. apply (Hg r Hr).
      rewrite <- Hpos. unfold get_position. rewrite deref_spawn.
      by rewrite decide_True.
    + apply NoDup_singleton.
  - intros r Hr. unfold spawn in *. simpl in *.
    apply elem_of_app in Hr as [Hr|Hr]; [apply Hal in Hr; lia|].
    apply list_elem_of_singleton in Hr. lia.
Qed.

(** X22.  When the loop that scatters boxes is done, it has registered exactly
    the number of new boxes asked for, each of the class asked for and on a
    cell that was drawn, and left the objects there were alone; and if there
    was at most one actor per cell before, there still is: a cell drawn twice,
    or one that is taken, gets no box. *)
Theorem scatter_fills_free_cells (c : Class) (draws : list (Z * Z))
    (todo : nat) (w : World) (v : PyVal) (w' : World) :
  refs_allocated w → one_per_cell w →
  scatter c draws todo w = Ok v w' →
  one_per_cell w' ∧ refs_allocated w' ∧
  _actors w' = _actors w ++ seq (next_ref w) todo ∧
  next_ref w' = (next_ref w + todo)%nat ∧
  _width w' = _width w ∧ _height w' = _height w ∧ _player w' = _player w ∧
  (∀ r, (r < next_ref w)%nat → deref w' r = deref w r) ∧
  (∀ r, (next_ref w ≤ r < next_ref w + todo)%nat →
        ∃ d, d ∈ draws ∧ deref w' r = Box__init__ c d.1 d.2).
Proof.
  revert todo w. induction draws as [|d ds IH]; intros todo w Hal Hone.
  - destruct todo; simpl; [|discriminate]. intros [= _ <-].
    rewrite app_nil_r, Nat.add_0_r. do 8 (split; [done|]). intros; lia.
  - destruct todo as [|t]; simpl.
    { intros [= _ <-]. rewrite app_nil_r, Nat.add_0_r.
      do 8 (split; [done|]). intros; lia. }
    destruct (get_actor w d.1 d.2) as [occ|] eqn:Eg.
    + intros E.
      destruct (IH _ _ Hal Hone E)
        as (H1 & H2 & H3 & H4 & H5 & H6 & H7 & H8 & H9).
      do 8 (split; [done|]). intros r Hr.
      destruct (H9 r Hr) as (d' & Hd' & Hdr). exists d'. split; [by right|done].
    + intros E.
      destruct (spawn_one_per_cell (Box__init__ c d.1 d.2) w Hal Hone Eg)
        as [Hone1 Hal1].
      destruct (IH _ _ Hal1 Hone1 E)
        as (H1 & H2 & H3 & H4 & H5 & H6 & H7 & H8 & H9).
      assert (Hn : next_ref (spawn (Box__init__ c d.1 d.2) w) = S (next_ref w))
        by done.
      rewrite Hn in *.
      split; [done|]. split; [done|].
      split; [rewrite H3; unfold spawn; simpl; by rewrite <- app_assoc|].
      split; [lia|]. do 3 (split; [done|]).
      split.
      * intros r Hr. rewrite H8 by lia. rewrite deref_spawn.
        rewrite decide_False by lia. done.
      * intros r Hr. destruct (decide (r = next_ref w)) as [->|Hne].
        -- exists d. split; [by left|]. rewrite H8 by lia.
           rewrite deref_spawn. by rewrite decide_True.
        -- destruct (H9 r) as (d' & Hd' & Hdr); [lia|].
           exists d'. split; [by right | done].
Qed.

Lemma scatter_fills_free_cells_witness :
  let w := Setup.warehouse in
  let w' := default w (final (scatter C_Box [(1, 0); (4, 0); (4, 0); (0, 0)]
                                      2 Setup.warehouse)) in
  one_per_cell w' ∧ refs_allocated w' ∧
  _actors w' = _actors w ++ seq (next_ref w) 2 ∧
  next_ref w' = (next_ref w + 2)%nat ∧
  _width w' = _width w ∧ _height w' = _height w ∧ _player w' = _player w ∧
  (∀ r, (r < next_ref w)%nat → deref w' r = deref w r) ∧
  (∀ r, (next_ref w ≤ r < next_ref w + 2)%nat →
        ∃ d, d ∈ [(1, 0); (4, 0); (4, 0); (0, 0)] ∧
             deref w' r = Box__init__ C_Box d.1 d.2).
Proof.
  apply (scatter_fills_free_cells C_Box [(1, 0); (4, 0); (4, 0); (0, 0)] 2
           Setup.warehouse PyNone).
  - apply refs_allocated_Forall.
    refine (bool_decide_unpack _ _); vm_compute; exact I.
  - refine (bool_decide_unpack _ _); vm_compute; exact I.
  - vm_compute. reflexivity.
Defined.

Lemma wwgame_stage_grid :
  one_per_cell wwgame_stage ∧ refs_allocated wwgame_stage.
Proof.
  split.
  - refine (bool_decide_unpack _ _); vm_compute; exact I.
  - apply refs_allocated_Forall.
    refine (bool_decide_unpack _ _); vm_compute; exact I.
Qed.

(** X23.  Whatever cells the random generator draws, when the set-up of the
    game script is done the stage has 107 actors, no two of them on a cell:
    the player and the six actors placed by hand, 90 boxes and 10 sticky
    boxes.  Boxes drawn on the stage stand on the stage; of the actors placed
    by hand, the second NormalMonster does not (it is put at [y = 20] on a
    stage of height 20). *)
Theorem wwgame_init_grid (boxes sticky : list (Z * Z)) (v : PyVal)
    (w' : World) :
  wwgame_init boxes sticky = Ok v w' →
  one_per_cell w' ∧ _actors w' = seq 0 107 ∧ _player w' = Some 0%nat ∧
  (∀ r, (r < 7)%nat → deref w' r = deref wwgame_stage r) ∧
  (∀ r, (7 ≤ r < 97)%nat →
        ∃ d, d ∈ boxes ∧ deref w' r = Box__init__ C_Box d.1 d.2) ∧
  (∀ r, (97 ≤ r < 107)%nat →
        ∃ d, d ∈ sticky ∧ deref w' r = Box__init__ C_StickyBox d.1 d.2) ∧
  ((∀ d, d ∈ boxes ++ sticky → is_in_bounds wwgame_stage d.1 d.2 = true) →
   ∀ r, r ∈ _actors w' → r ≠ 5%nat → on_stage w' r) ∧
  ¬ on_stage w' 5%nat.
Proof.
  unfold wwgame_init.
  destruct (scatter C_Box boxes 90 wwgame_stage) as [v1 w1| |] eqn:E1;
    simpl; try discriminate.
  intros E2. destruct wwgame_stage_grid as [Hone Hal].
  destruct (scatter_fills_free_cells _ _ _ _ _ _ Hal Hone E1)
    as (Hone1 & Hal1 & Ha1 & Hn1 & Hw1 & Hh1 & Hp1 & Ho1 & Hb1).
  destruct (scatter_fills_free_cells _ _ _ _ _ _ Hal1 Hone1 E2)
    as (Hone2 & Hal2 & Ha2 & Hn2 & Hw2 & Hh2 & Hp2 & Ho2 & Hb2).
  assert (Hn7 : next_ref wwgame_stage = 7%nat) by (vm_compute; reflexivity).
  rewrite Hn7 in *. clear Hn7.
  assert (Hbox : ∀ r, (7 ≤ r < 97)%nat →
            ∃ d, d ∈ boxes ∧ deref w' r = Box__init__ C_Box d.1 d.2).
  { intros r Hr. destruct (Hb1 r) as (d & Hd & Hdr); [lia|].
    exists d. split; [done|]. rewrite Ho2 by lia. done. }
  assert (Hst : ∀ r, (97 ≤ r < 107)%nat →
            ∃ d, d ∈ sticky ∧ deref w' r = Box__init__ C_StickyBox d.1 d.2).
  { intros r Hr. apply Hb2. lia. }
  assert (Hold : ∀ r, (r < 7)%nat → deref w' r = deref wwgame_stage r).
  { intros r Hr. rewrite Ho2, Ho1 by lia. done. }
  assert (Hb : ∀ x y, is_in_bounds w' x y = is_in_bounds wwgame_stage x y).
  { intros x y. unfold is_in_bounds, is_in_bounds_x, is_in_bounds_y.
    by rewrite Hw2, Hh2, Hw1, Hh1. }
  split; [done|]. split.
  { rewrite Ha2, Ha1, Hn1. vm_compute. reflexivity. }
  split; [by rewrite Hp2, Hp1|].
  do 3 (split; [done|]). split.
  - intros Hin r Hr Hne. rewrite Ha2, Ha1, Hn1 in Hr.
    assert (Hact : _actors wwgame_stage = seq 0 7) by (vm_compute; reflexivity).
    rewrite Hact in Hr. rewrite !elem_of_app, !elem_of_seq in Hr.
    unfold on_stage. rewrite Hb.
    destruct Hr as [[Hr|Hr]|Hr].
    + rewrite Hold by lia.
      assert (r = 0 ∨ r = 1 ∨ r = 2 ∨ r = 3 ∨ r = 4 ∨ r = 6)%nat
        as [->|[->|[->|[->|[->| ->]]]]] by lia; vm_compute; reflexivity.
    + destruct (Hbox r) as (d & Hd & ->); [lia|]. simpl.
      apply Hin, elem_of_app. by left.
    + destruct (Hst r) as (d & Hd & ->); [lia|]. simpl.
      apply Hin, elem_of_app. by right.
  - unfold on_stage. rewrite Hb, Hold by lia. vm_compute. discriminate.
Qed.

Lemma wwgame_init_grid_witness :
  one_per_cell Setup.ready ∧ _actors Setup.ready = seq 0 107 ∧
  _player Setup.ready = Some 0%nat ∧
  (∀ r, (r < 7)%nat → deref Setup.ready r = deref wwgame_stage r) ∧
  (∀ r, (7 ≤ r < 97)%nat →
        ∃ d, d ∈ Setup.box_draws ∧
             deref Setup.ready r = Box__init__ C_Box d.1 d.2) ∧
  (∀ r, (97 ≤ r < 107)%nat →
        ∃ d, d ∈ Setup.sticky_draws ∧
             deref Setup.ready r = Box__init__ C_StickyBox d.1 d.2) ∧
  ((∀ d, d ∈ Setup.box_draws ++ Setup.sticky_draws →
         is_in_bounds wwgame_stage d.1 d.2 = true) →
   ∀ r, r ∈ _actors Setup.ready → r ≠ 5%nat → on_stage Setup.ready r) ∧
  ¬ on_stage Setup.ready 5%nat.
Proof.
  apply (wwgame_init_grid Setup.box_draws Setup.sticky_draws PyNone).
  vm_compute. reflexivity.
Defined.

(** ** The main loop *)

Lemma key_events_last keys k w :
  key_events (keys ++ [k]) w = key_events [k] w.
Proof.
  revert w. induction keys as [|k0 ks IH]; intros w; [done|].
  simpl. pose proof (player_event_twice k0 k w) as H.
  destruct (player_event k0 w) as [v w1| |]; simpl in *.
  - rewrite IH. simpl. by rewrite H.
  - by rewrite <- H.
  - by rewrite <- H.
Qed.

(** X24.  Of the keys pressed between two steps of the stage only the last one
    counts: the player has room for one event, and a pass of the main loop
    with several key presses is the pass with the last of them alone. *)
Theorem main_loop_last_key (fuel : nat) (keys : list Key) (k : Key)
    (w : World) :
  main_loop_pass fuel (keys ++ [k]) w = main_loop_pass fuel [k] w.
Proof. unfold main_loop_pass. by rewrite key_events_last. Qed.

(** X25.  Once [remove_player] has returned, the stage can neither be drawn
    nor take a key press: both ask the player, which is [None], and raise
    [AttributeError]. *)
Theorem stage_without_player (w : World) (v : PyVal) (w' : World) :
  remove_player w = Ok v w' →
  draw w' = Raise AttributeError ∧
  (∀ k, player_event k w' = Raise AttributeError) ∧
  (∀ fuel keys, keys ≠ [] → main_loop_pass fuel keys w' = Raise AttributeError).
Proof.
  unfold remove_player. destruct (_player w) as [p|]; [|discriminate].
  destruct (remove_actor p w) as [v1 w1| |]; simpl; try discriminate.
  intros [= _ <-]. split; [done|]. split; [done|].
  intros fuel [|k ks] Hk; done.
Qed.

Lemma stage_without_player_witness :
  draw Setup.no_player = Raise AttributeError ∧
  (∀ k, player_event k Setup.no_player = Raise AttributeError) ∧
  (∀ fuel keys, keys ≠ [] →
                main_loop_pass fuel keys Setup.no_player
                = Raise AttributeError).
Proof.
  apply (stage_without_player Scenario.wall_row PyNone Setup.no_player).
  vm_compute. reflexivity.
Defined.

(** X26.  Drawing the stage needs a player and changes nothing in the game
    but, at most, the [dead] flag of the player, which it raises when the life
    of a KeyboardPlayer is 0. *)
Theorem draw_marks_dead_player (w : World) (v : PyVal) (w' : World) :
  draw w = Ok v w' →
  ∃ p, _player w = Some p ∧ v = PyNone ∧
       _actors w' = _actors w ∧ _player w' = _player w ∧
       (∀ a, with_dead false (deref w' a) = with_dead false (deref w a)) ∧
       (∀ a, a ≠ p → deref w' a = deref w a) ∧
       (cls (deref w p) = C_KeyboardPlayer → life (deref w p) = 0 →
        dead (deref w' p) = true).
Proof.
  unfold draw. destruct (_player w) as [p|] eqn:Hp; [|discriminate].
  unfold is_dead.
  destruct (cls (deref w p)) eqn:Hc.
  3:{ unfold KeyboardPlayer_is_dead.
      destruct (life (deref w p) =? 0) eqn:El; cbn [andb negb];
        [destruct (dead (deref w p)) eqn:Ed; cbn [andb negb]|];
        intros [= <- <-]; exists p.
      - by repeat split.
      - do 4 (split; [done|]). split; [|split].
        + intros a. rewrite deref_update. by case_decide; subst.
        + intros a Ha. by upd.
        + intros _ _. by upd.
      - apply Z.eqb_neq in El. by repeat split. }
  all: intros [= <- <-]; exists p; do 6 (split; [done|]); intros; congruence.
Qed.

Lemma draw_marks_dead_player_witness :
  ∃ p, _player Setup.killed = Some p ∧ PyNone = PyNone ∧
       _actors Setup.drawn = _actors Setup.killed ∧
       _player Setup.drawn = _player Setup.killed ∧
       (∀ a, with_dead false (deref Setup.drawn a)
             = with_dead false (deref Setup.killed a)) ∧
       (∀ a, a ≠ p → deref Setup.drawn a = deref Setup.killed a) ∧
       (cls (deref Setup.killed p) = C_KeyboardPlayer →
        life (deref Setup.killed p) = 0 →
        dead (deref Setup.drawn p) = true).
Proof.
  apply (draw_marks_dead_player Setup.killed PyNone Setup.drawn).
  vm_compute. reflexivity.
Defined.

(** ** Flames and fuses *)

Lemma deref_with_actors l w a : deref (with_actors l w) a = deref w a.
Proof. done. Qed.

Lemma Flame_step_alive self w :
  life (deref w self) ≠ 1 →
  Flame_step self w
  = Ok PyNone (update self (fun a => with_life (life a - 1) a) w).
Proof.
  intros Hl. unfold Flame_step, Actor_is_dead. upd.
  by rewrite (proj2 (Z.eqb_neq _ _)) by lia.
Qed.

Lemma Flame_step_last self w :
  life (deref w self) = 1 → self ∈ _actors w →
  Flame_step self w
  = Ok PyNone (with_actors (remove_first self (_actors w))
                 (update self (fun a => with_life (life a - 1) a) w)).
Proof.
  intros Hl Hin. unfold Flame_step, Actor_is_dead. upd.
  rewrite Hl. simpl. by rewrite remove_actor_returns.
Qed.

(** X27.  A registered flame whose life is [n + 1] stays on the stage,
    untouched but for the life it loses, for [n] steps of its own, and its
    step [n + 1] removes it: the flames of an explosion, built with life 10,
    burn for ten steps. *)
Theorem flame_burns_out (fuel n : nat) (self : ref) (w : World) :
  cls (deref w self) = C_Flame → self ∈ _actors w →
  life (deref w self) = Z.of_nat (S n) →
  (∀ k, (k ≤ n)%nat →
        ∃ wk, steps_in_a_row fuel k self w = Ok PyNone wk ∧
              _actors wk = _actors w ∧
              life (deref wk self) = Z.of_nat (S n) - Z.of_nat k ∧
              ∀ a, a ≠ self → deref wk a = deref w a) ∧
  ∃ w', steps_in_a_row fuel (S n) self w = Ok PyNone w' ∧
        _actors w' = remove_first self (_actors w) ∧
        life (deref w' self) = 0 ∧
        ∀ a, a ≠ self → deref w' a = deref w a.
Proof.
  revert w. induction n as [|n IH]; intros w Hc Hin Hl.
  - split.
    + intros k Hk. assert (k = 0%nat) as -> by lia. exists w.
      split; [done|]. split; [done|]. split; [lia | done].
    + simpl. unfold step. rewrite Hc.
      rewrite Flame_step_last by (done || lia). simpl.
      eexists. split; [done|]. split; [done|].
      split; [|intros a Ha]; rewrite deref_with_actors; upd; [lia | done].
  - set (w1 := update self (fun a => with_life (life a - 1) a) w).
    assert (Hs : step fuel self w = Ok PyNone w1).
    { unfold step. rewrite Hc. apply Flame_step_alive. lia. }
    destruct (IH w1) as [Hk (w' & Hn & Ha & H0 & Ho)].
    { unfold w1. by upd. }
    { done. }
    { unfold w1. upd. lia. }
    split.
    + intros k Hle. destruct k as [|k].
      * exists w. split; [done|]. split; [done|]. split; [lia | done].
      * destruct (Hk k) as (wk & Ek & Hak & Hlk & Hok); [lia|].
        exists wk. cbn [steps_in_a_row]. rewrite Hs. simpl.
        split; [done|]. split; [done|]. split; [lia|].
        intros a Hne. rewrite Hok by done. unfold w1. by upd.
    + exists w'. cbn [steps_in_a_row]. rewrite Hs. cbn [bind].
      split; [done|]. split; [done|]. split; [done|].
      intros a Hne. rewrite Ho by done. unfold w1. by upd.
Qed.

Lemma flame_burns_out_witness :
  (∀ k, (k ≤ 9)%nat →
        ∃ wk, steps_in_a_row 0 k 0%nat Setup.bonfire = Ok PyNone wk ∧
              _actors wk = _actors Setup.bonfire ∧
              life (deref wk 0%nat) = Z.of_nat 10 - Z.of_nat k ∧
              ∀ a, a ≠ 0%nat → deref wk a = deref Setup.bonfire a) ∧
  ∃ w', steps_in_a_row 0 10 0%nat Setup.bonfire = Ok PyNone w' ∧
        _actors w' = remove_first 0%nat (_actors Setup.bonfire) ∧
        life (deref w' 0%nat) = 0 ∧
        ∀ a, a ≠ 0%nat → deref w' a = deref Setup.bonfire a.
Proof.
  apply (flame_burns_out 0 9 0%nat Setup.bonfire).
  - reflexivity.
  - refine (bool_decide_unpack _ _); vm_compute; exact I.
  - reflexivity.
Defined.

(** X28.  An ExplodingMonster asks itself to move at every fifth step whatever
    delay it is built with: its constructor hands the delay 5 to
    [Monster.__init__] in place of its own argument. *)
Theorem exploding_monster_ignores_delay (self : ref) (w : World)
    (x y d e : Z) :
  deref w self = ExplodingMonster__init__ x y d e →
  ∃ w', delay_calls 10 self w
        = Ok [false; false; false; false; true;
              false; false; false; false; true] w' ∧
        _delay (deref w' self) = 5.
Proof.
  intros Hd.
  destruct (delay_calls_from 10 self w) as (w' & E & _ & Hdl & _).
  { by rewrite Hd. }
  exists w'. rewrite E, Hdl, Hd. split; [|done]. reflexivity.
Qed.

Lemma exploding_monster_ignores_delay_witness :
  ∃ w', delay_calls 10 0%nat Scenario.fuse20
        = Ok [false; false; false; false; true;
              false; false; false; false; true] w' ∧
        _delay (deref w' 0%nat) = 5.
Proof.
  apply (exploding_monster_ignores_delay 0%nat Scenario.fuse20 7 4 1 20).
  reflexivity.
Defined.
